(** * comtrade.js: trade-share chart data pipeline

    A shallow embedding of [src/comtrade.js]: the record clean-up
    ([uniqueData]), the period axis ([getPeriods]), the per-period
    aggregation and stacking done by [updateChart], and the orchestration
    of [addComtradeData] (initial fetch, ranking pass, batched backfill).

    Conventions.
    - JavaScript numbers that carry trade values are exact rationals ([Q]);
      partner codes and periods are integers ([Z]).  The UN Comtrade API
      reports integral values far below 2^53, where IEEE doubles are exact.
    - [undefined] and [null] are [None].
    - An exception is the [Throw] branch of [Result].
    - The host time zone is UTC, so that local time is UTC time.
    - The parts of d3 the data flow goes through ([timeParse], [timeFormat],
      [stack]) are modelled from the behaviour of the library; the DOM is
      reduced to what the script leaves on the page: console warnings,
      requests sent, charts drawn, and the loading paragraph.
    - The paths of [g#dataSpace] (keyed join, fill, titles) are a function
      of the series a chart was drawn from ([drawPaths]); the state of the
      module's colour scale is passed explicitly. *)

From stdpp Require Import gmap strings list sorting pretty.
From Stdlib Require Import Ascii QArith Lqa.
From Equations Require Import Equations.

Open Scope Z_scope.

(** ** JavaScript values used by the script *)

Module JS.

(** Exceptions the script can raise: dereferencing [undefined], and a
    rejected network promise. *)
Inductive Exn := TypeError | NetworkError.

Inductive Result (A : Type) :=
| Ok (a : A)
| Throw (e : Exn).
Arguments Ok {A} a.
Arguments Throw {A} e.

(** Template-literal conversion [`${n}`] of an integer: its decimal
    numeral, as JavaScript prints integers below 10^21. *)
Definition toString (n : Z) : string := pretty n.

(** [new Set(xs)] keeps the distinct elements in insertion order. *)
Definition Set_add {A} `{EqDecision A} (s : list A) (x : A) : list A :=
  if decide (x ∈ s) then s else s ++ [x].
Definition Set_new {A} `{EqDecision A} (xs : list A) : list A :=
  foldl Set_add [] xs.
Definition Set_delete {A} `{EqDecision A} (x : A) (s : list A) : list A :=
  filter (λ y, y ≠ x) s.

(** [xs.find(p)] *)
Definition find {A} (p : A → bool) (xs : list A) : option A :=
  List.find p xs.

(** [xs.slice(-n)] and [xs.slice(0,-n)] for a positive literal [n]. *)
Definition slice_last {A} (n : nat) (xs : list A) : list A :=
  drop (length xs - n) xs.
Definition slice_init {A} (n : nat) (xs : list A) : list A :=
  take (length xs - n) xs.

(** [xs.join(',')] *)
Fixpoint join (sep : string) (xs : list string) : string :=
  match xs with
  | [] => ""
  | [x] => x
  | x :: rest => x +:+ sep +:+ join sep rest
  end.

(** Results of [Math.min] / [Math.max], which are infinite on an empty
    argument list. *)
Inductive Num := Fin (q : Q) | PosInfinity | NegInfinity | NaN.

Definition Math_max (xs : list Q) : Num :=
  match xs with
  | [] => NegInfinity
  | x :: rest => Fin (foldl (λ m y, if Qle_bool m y then y else m) x rest)
  end.
Definition Math_min (xs : list Q) : Num :=
  match xs with
  | [] => PosInfinity
  | x :: rest => Fin (foldl (λ m y, if Qle_bool y m then y else m) x rest)
  end.

End JS.
Export JS.

(** ** Data model *)

(** One entry of the [dataset] array of a Comtrade response; only the four
    fields the script reads. *)
Record TradeRecord := mkRecord {
  ptCode : Z;
  ptTitle : string;
  period : Z;
  TradeValue : Q
}.

Definition world : Z := 0.
Definition canada : Z := 124.

Definition width : Z := 600.
Definition height : Z := 250.
Module Margin.
Record t := mk { top : Z; right : Z; bottom : Z; left : Z }.
End Margin.
Definition margin : Margin.t := Margin.mk 5 5 20 40.

(** ** Deduplication: [uniqueData] *)

Definition uid (d : TradeRecord) : string :=
  toString (ptCode d) +:+ " - " +:+ toString (period d).

(** The [data.map] callback of [uniqueData] closes over the mutable set
    [dataPoints]; the set is threaded through the traversal. *)
Fixpoint uniqueData_map (dataPoints : gset string) (data : list TradeRecord)
  : list (option TradeRecord) :=
  match data with
  | [] => []
  | d :: rest =>
      if decide (uid d ∈ dataPoints)
      then None :: uniqueData_map dataPoints rest
      else Some d :: uniqueData_map ({[ uid d ]} ∪ dataPoints) rest
  end.

(** [.filter(d => d)] on an array of records and [undefined]: a record is an
    object, hence truthy. *)
Definition filter_defined {A} (xs : list (option A)) : list A := omap id xs.

Definition uniqueData (data : list TradeRecord) : list TradeRecord :=
  filter_defined (uniqueData_map ∅ data).

(** ** Dates: [d3-time-format] with the [%Y] specifier *)

Module D3Time.

Definition msPerDay : Z := 86400000.

(** ECMAScript [DayFromYear], [TimeFromYear] and [YearFromTime]; the year of
    a time value is found from an estimate that is off by at most one. *)
Definition DayFromYear (y : Z) : Z :=
  365 * (y - 1970) + (y - 1969) `div` 4 - (y - 1901) `div` 100
  + (y - 1601) `div` 400.
Definition TimeFromYear (y : Z) : Z := msPerDay * DayFromYear y.
Definition YearFromTime (t : Z) : Z :=
  let d := t `div` msPerDay in
  let y := 1970 + (400 * d) `div` 146097 in
  if d <? DayFromYear y then y - 1
  else if DayFromYear (y + 1) <=? d then y + 1
  else y.

(** A valid [Date] object, by its time value in milliseconds. *)
Record Date := mkDate { getTime : Z }.

(** Numeric coercion of a date or [null]: [+null] is [0]. *)
Definition valueOf (d : option Date) : Z :=
  match d with
  | Some d => getTime d
  | None => 0
  end.

Definition is_digit (c : ascii) : bool :=
  (48 <=? nat_of_ascii c)%nat && (nat_of_ascii c <=? 57)%nat.
Definition is_space (c : ascii) : bool :=
  bool_decide (nat_of_ascii c ∈ [9; 10; 11; 12; 13; 32]%nat).

Fixpoint skip_spaces (s : string) : string :=
  match s with
  | String c rest => if is_space c then skip_spaces rest else s
  | EmptyString => s
  end.
Fixpoint all_digits (s : string) : bool :=
  match s with
  | String c rest => is_digit c && all_digits rest
  | EmptyString => true
  end.
Fixpoint digits_value (acc : Z) (s : string) : Z :=
  match s with
  | String c rest => digits_value (10 * acc + (Z.of_nat (nat_of_ascii c) - 48)) rest
  | EmptyString => acc
  end.

(** [timeParse('%Y')]: the directive reads [/^\s*\d+/] from the first four
    characters and the whole string has to be consumed, else the result is
    [null].  The date is midnight of 1 January of that year. *)
Definition period2date (s : string) : option Date :=
  let digits := skip_spaces s in
  if (String.length s <=? 4)%nat
     && negb (bool_decide (digits = ""))
     && all_digits digits
  then Some (mkDate (TimeFromYear (digits_value 0 digits)))
  else None.

(** [pad(value, "0", 4)] of d3-time-format. *)
Fixpoint zeros (n : nat) : string :=
  match n with
  | O => ""
  | S n => String "0" (zeros n)
  end.
Definition pad4 (v : Z) : string :=
  let s := toString (Z.abs v) in
  (if v <? 0 then "-" else "") +:+ zeros (4 - String.length s) +:+ s.

(** [timeFormat('%Y')]: a non-Date argument is first turned into
    [new Date(+arg)]; the year is printed modulo 10000 on four digits. *)
Definition date2period (d : option Date) : string :=
  pad4 (Z.rem (YearFromTime (valueOf d)) 10000).

(** [+new Date(x)]: the time value is clipped to +-8.64e15 ms. *)
Definition newDate_value (x : Num) : Num :=
  match x with
  | Fin q =>
      let t := Z.quot (Qnum q) (Z.pos (Qden q)) in
      if Z.abs t <=? 8640000000000000 then Fin (inject_Z t) else NaN
  | _ => NaN
  end.

End D3Time.
Export D3Time.

(** ** The period axis: [getPeriods] *)

(** The comparator [(a,b) => a - b] puts [a] no later than [b] when the
    difference is not positive.  [Array.prototype.sort] is a stable sort;
    stdpp's merge sort stands for it. *)
Definition date_cmp_le (a b : option Date) : Prop := valueOf a - valueOf b ≤ 0.
#[global] Instance date_cmp_le_dec a b : Decision (date_cmp_le a b).
Proof. unfold date_cmp_le. apply _. Defined.

Definition getPeriods (data : list TradeRecord) : list (option Date) :=
  merge_sort date_cmp_le
    ((λ p, period2date (toString p)) <$> Set_new (period <$> data)).

(** ** The stacking transform of [d3-shape] *)

Module D3Shape.

(** Property values of the per-period objects handed to the stack. *)
Inductive Value := VDate (d : option Date) | VNum (q : Q).
Abbreviation Datum := (gmap string Value).

(** The order and offset the script imports. *)
Inductive StackOrder := stackOrderNone.
Inductive StackOffset := stackOffsetNone.

(** A band boundary pair [[y0, y1]] with its [data]; [None] is [NaN]. *)
Record Point := mkPoint { y0 : option Q; y1 : option Q; datum : Datum }.
Record Series := mkSeries { key : string; index : nat; points : list Point }.

Record StackGen := mkStack {
  keys : list string;
  offset : StackOffset;
  order : StackOrder
}.

(** [+d[key]] *)
Definition value (d : Datum) (k : string) : option Q :=
  match d !! k with
  | Some (VNum q) => Some q
  | Some (VDate t) => Some (inject_Z (valueOf t))
  | None => None
  end.

(** Initial series: [[0, +d[key]]] for every datum. *)
Definition stackSeries (data : list Datum) (i : nat) (k : string) : Series :=
  mkSeries k i ((λ d, mkPoint (Some 0%Q) (value d k) d) <$> data).

(** One step of [stackOffsetNone]: the band [s1] is put on top of [s0]. *)
Definition stack_on (s0 s1 : Point) : Point :=
  let base := if y1 s0 is Some b then Some b else y0 s0 in
  mkPoint base
    (match y1 s1, base with
     | Some v, Some b => Some (v + b)%Q
     | _, _ => None
     end)
    (datum s1).

Fixpoint offsetNone_from (s0 : list Point) (sz : list Series) : list Series :=
  match sz with
  | [] => []
  | s1 :: rest =>
      let pts := zip_with stack_on s0 (points s1) in
      mkSeries (key s1) (index s1) pts :: offsetNone_from pts rest
  end.

Definition apply_offset (o : StackOffset) (sz : list Series) : list Series :=
  match o, sz with
  | stackOffsetNone, s :: rest => s :: offsetNone_from (points s) rest
  | stackOffsetNone, [] => []
  end.

Definition stack (g : StackGen) (data : list Datum) : list Series :=
  match order g with
  | stackOrderNone => apply_offset (offset g) (imap (stackSeries data) (keys g))
  end.

End D3Shape.
Export D3Shape.

(** ** Page state and effects *)

Record Scale := mkScale { domain : Num * Num; range : Z * Z }.

Record Warning := mkWarning {
  w_message : string;
  w_period : option Date;
  w_partnerTrade : Q
}.

(** Arguments of one [getAllDataFor] call. *)
Record Request := mkRequest {
  q_HScode : string;
  q_partners : string + list Z;
  q_periods : string + list string
}.

(** What one completed [updateChart] call drew: the stacked series joined
    into [g#dataSpace], and the scales its area generator reads. *)
Record Render := mkRender {
  r_data : list TradeRecord;
  r_series : list Series;
  r_X : Scale;
  r_Y : Scale
}.

Record Page := mkPage {
  console : list Warning;
  requests : list Request;
  renders : list Render;
  loading : bool
}.

(** Computations that read and change the page and may throw; the page
    as it was when the exception was raised is kept. *)
Definition M (A : Type) : Type := Page → Result A * Page.

Definition throw {A} (e : Exn) : M A := λ pg, (Throw e, pg).

#[global] Instance M_ret : MRet M := λ A (a : A) pg, (Ok a, pg).
#[global] Instance M_bind : MBind M := λ A B (k : A → M B) (m : M A) pg,
  match m pg with
  | (Ok a, pg') => k a pg'
  | (Throw e, pg') => (Throw e, pg')
  end.

Fixpoint mapM_ {A B} (f : A → M B) (xs : list A) : M (list B) :=
  match xs with
  | [] => mret []
  | x :: rest => y ← f x; ys ← mapM_ f rest; mret (y :: ys)
  end.

Definition console_warn (w : Warning) : M () :=
  λ pg, (Ok (), mkPage (console pg ++ [w]) (requests pg) (renders pg) (loading pg)).
Definition draw (r : Render) : M () :=
  λ pg, (Ok (), mkPage (console pg) (requests pg) (renders pg ++ [r]) (loading pg)).
Definition set_loading (b : bool) : M () :=
  λ pg, (Ok (), mkPage (console pg) (requests pg) (renders pg) b).

(** [undefined.TradeValue] throws. *)
Definition get_TradeValue (r : option TradeRecord) : M Q :=
  match r with
  | Some r => mret (TradeValue r)
  | None => throw TypeError
  end.

(** ** [updateChart]

    [updateChart(svg, data, X, Y)]: the [svg] argument is the page. *)

Definition periodData (data : list TradeRecord) (p : option Date)
  : list TradeRecord :=
  filter (λ d, toString (period d) = date2period p) data.

Definition partnerTrade (pdata : list TradeRecord) : Q :=
  foldl (λ a b, (a + TradeValue b)%Q) 0%Q
    (filter (λ d, ptCode d ≠ world) pdata).

(** The callback of [periods.map] in [updateChart]. *)
Definition periodTrade (data : list TradeRecord) (partners : list string)
    (p : option Date) : M Datum :=
  let pdata := periodData data p in
  worldTrade ← get_TradeValue (find (λ d, bool_decide (ptCode d = world)) pdata);
  let pTrade := partnerTrade pdata in
  (if negb (Qle_bool pTrade worldTrade)
   then console_warn (mkWarning "world trade too small?" p pTrade)
   else mret ());;
  let trade : Datum :=
    <["Other" := VNum (worldTrade - pTrade)%Q]> (<["period" := VDate p]> ∅) in
  mret (foldl (λ (trade : Datum) partner,
                let record :=
                  find (λ d, bool_decide (ptTitle d = partner)) pdata in
                <[partner :=
                    VNum (if record is Some r then TradeValue r else 0%Q)]>
                  trade)
             trade partners).

Definition chartPartners (data : list TradeRecord) : list string :=
  Set_delete "World" (Set_new (ptTitle <$> data)).

Definition stackGen (partners : list string) : StackGen :=
  mkStack (Set_add partners "Other") stackOffsetNone stackOrderNone.

Definition allTrade (data : list TradeRecord) (partners : list string)
    (periods : list (option Date)) : M (list Datum) :=
  mapM_ (periodTrade data partners) periods.

Definition updateChart (data : list TradeRecord) (X Y : Scale) : M () :=
  let partners := chartPartners data in
  let periods := getPeriods data in
  allTrade ← allTrade data partners periods;
  let series := stack (stackGen partners) allTrade in
  draw (mkRender data series X Y).

(** ** The axis scales of [addComtradeData] *)

Definition dateRange (periods : list (option Date)) : Num * Num :=
  let times := (λ p, inject_Z (valueOf p)) <$> periods in
  (newDate_value (Math_min times), newDate_value (Math_max times)).

Definition maxTradeValue (sourceData : list TradeRecord) : Num :=
  Math_max (TradeValue <$> filter (λ d, ptCode d = world) sourceData).

(** ** The ranking pass *)

(** [.filter(d => d)] on an array of partner codes and [undefined]: the
    number [0] is falsy as well. *)
Definition filter_truthy (xs : list (option Z)) : list Z :=
  omap (λ x, match x with
             | Some c => if bool_decide (c = 0) then None else Some c
             | None => None
             end) xs.

Definition unqueriedPartners (worldTrade : Q) (newData : list TradeRecord)
  : list Z :=
  filter_truthy
    ((λ d, if Qle_bool (worldTrade / 20) (TradeValue d)
              && bool_decide (ptCode d ≠ world)
           then Some (ptCode d) else None) <$> newData).

(** Lines 83-88 of [addComtradeData]: world trade of the latest period, then
    the partners to backfill. *)
Definition rankingPass (newData : list TradeRecord) : M (list Z) :=
  worldTrade ← get_TradeValue (find (λ d, bool_decide (ptCode d = world)) newData);
  mret (unqueriedPartners worldTrade newData).

(** ** Fetching and the orchestration *)

(** The query string built by [getAllDataFor]. *)
Record URLSearchParams := mkParams {
  p_r : Z; p_rg : Z; p_p : string; p_freq : string;
  p_ps : string; p_px : string; p_cc : string
}.

Definition params_of (q : Request) : URLSearchParams :=
  mkParams 392 1
    (match q_partners q with
     | inl s => s
     | inr codes => join "," (toString <$> codes)
     end)
    "A"
    (match q_periods q with
     | inl s => s
     | inr ps => join "," ps
     end)
    "HS" (q_HScode q).

Section Orchestration.

(** The remote service: the [dataset] of the response to the [n]-th request
    of the session, or [None] when the request fails. *)
Variable json : nat → URLSearchParams → option (list TradeRecord).

Definition getAllDataFor (HScode : string) (partners : string + list Z)
    (periods : string + list string) : M (list TradeRecord) :=
  λ pg,
    let q := mkRequest HScode partners periods in
    let pg' := mkPage (console pg) (requests pg ++ [q]) (renders pg) (loading pg) in
    match json (length (requests pg)) (params_of q) with
    | Some dataset => (Ok dataset, pg')
    | None => (Throw NetworkError, pg')
    end.

(** The [while] loop of [addComtradeData], as a function of its two
    loop variables [unqueriedPartners] and [sourceData]. *)
Equations? backfill (HScode : string) (X Y : Scale)
    (st : list Z * list TradeRecord) : M (list Z * list TradeRecord)
    by wf (length st.1) lt :=
  backfill HScode X Y (unqueried, sourceData) with
      decide (0 < length unqueried)%nat => {
    | left _ =>
        let queryPartners := slice_last 5 unqueried in
        let unqueried' := slice_init 5 unqueried in
        newData ← getAllDataFor HScode (inr queryPartners) (inl "all");
        let sourceData' := uniqueData (sourceData ++ newData) in
        updateChart sourceData' X Y;;
        backfill HScode X Y (unqueried', sourceData')
    | right _ => mret (unqueried, sourceData) }.
Proof.
  subst unqueried'. unfold slice_init. rewrite length_take. lia.
Qed.

(** The entry point.  Showing and removing the "Loading..." paragraph is
    [set_loading]; removing an earlier svg, [setupSVG] and drawing the two
    axes from [X] and [Y] leave the data flow untouched and are not
    represented. *)
Definition addComtradeData (HScode : string) : M () :=
  set_loading true;;
  let tradePartners := [world; canada] in
  sourceData ← getAllDataFor HScode (inr tradePartners) (inl "all");
  let sourceData := uniqueData sourceData in
  let periods := getPeriods sourceData in
  let X := mkScale (dateRange periods)
                   (0 + Margin.left margin, width - Margin.right margin) in
  let Y := mkScale (Fin 0, maxTradeValue sourceData)
                   (height - Margin.bottom margin, 0 + Margin.top margin) in
  updateChart sourceData X Y;;
  newData ← getAllDataFor HScode (inl "all")
              (inr (slice_last 1 (date2period <$> periods)));
  unqueried ← rankingPass newData;
  _ ← backfill HScode X Y (unqueried, sourceData);
  set_loading false.

End Orchestration.

(** ** Band colours and the path join of [updateChart]

    What [updateChart] does with the stacked series in [g#dataSpace]: the
    keyed data join, the [fill] attribute and the [title] child.  The
    constant stroke attributes and the path geometry are left out. *)

(** [schemeAccent] of d3-scale-chromatic. *)
Definition schemeAccent : list string :=
  ["#7fc97f"; "#beaed4"; "#fdc086"; "#ffff99";
   "#386cb0"; "#f0027f"; "#bf5b17"; "#666666"].

(** [colors = scaleOrdinal().range(schemeAccent)].  The domain of the scale
    is implicit: a value the scale has not seen is appended to the domain,
    and a value is mapped to the range entry at its position in the domain,
    modulo the length of the range.  The domain is the state of the scale;
    it lives as long as the module. *)
Definition colors (d : nat) (domain : list nat) : string * list nat :=
  match list_find (λ x, x = d) domain with
  | Some (i, _) => (schemeAccent !!! (i mod length schemeAccent)%nat, domain)
  | None =>
      (schemeAccent !!! (length domain mod length schemeAccent)%nat,
       domain ++ [d])
  end.

(** The callback of [.attr('fill', ...)]. *)
Definition fill (d : Series) (i : nat) (domain : list nat)
  : string * list nat :=
  if decide (key d = "Canada") then ("red", domain)
  else if decide (key d = "Other") then ("grey", domain)
  else colors i domain.

(** A [path] element of [g#dataSpace]: the series bound to it, its [fill]
    attribute, and the texts of its [title] children. *)
Record PathNode := mkPath {
  node_data : Series;
  node_fill : option string;
  node_titles : list string
}.

(** [.selectAll('path').data(series, d => d.key).join('path')]: a series
    is bound to the first path whose bound series has the same key and that
    is still unmatched, else to a new path; paths left over are removed, and
    the paths are put in the order of the series. *)
Fixpoint join_path (group : list PathNode) (series : list Series)
  : list PathNode :=
  match series with
  | [] => []
  | d :: rest =>
      match list_find (λ n, key (node_data n) = key d) group with
      | Some (_, n) =>
          mkPath d (node_fill n) (node_titles n)
          :: join_path (filter (λ n, key (node_data n) ≠ key d) group) rest
      | None => mkPath d None [] :: join_path group rest
      end
  end.

(** [.attr('fill', (d,i) => ...)] over the joined paths, from index [i]. *)
Fixpoint attr_fill (i : nat) (nodes : list PathNode) (domain : list nat)
  : list PathNode * list nat :=
  match nodes with
  | [] => ([], domain)
  | n :: rest =>
      let '(c, domain1) := fill (node_data n) i domain in
      let '(ns, domain2) := attr_fill (S i) rest domain1 in
      (mkPath (node_data n) (Some c) (node_titles n) :: ns, domain2)
  end.

(** [.append('title').text(d => d.key)] *)
Definition append_title (nodes : list PathNode) : list PathNode :=
  (λ n, mkPath (node_data n) (node_fill n)
               (node_titles n ++ [key (node_data n)])) <$> nodes.

(** The paths of [g#dataSpace] and the colour scale after [updateChart]
    has drawn [series] over the paths [group]. *)
Definition drawPaths (group : list PathNode) (series : list Series)
    (domain : list nat) : list PathNode * list nat :=
  let '(nodes, domain') := attr_fill 0 (join_path group series) domain in
  (append_title nodes, domain').

(** * Specification vocabulary *)

(** Notions used to state the properties below. *)

(** No character of [s] is a blank. *)
Fixpoint no_space (s : string) : bool :=
  match s with
  | String c rest => negb (bool_decide (c = " "%char)) && no_space rest
  | EmptyString => true
  end.

(** The record [d] is about partner code [c] in period [p]. *)
Definition same_pair (c p : Z) (d : TradeRecord) : Prop :=
  ptCode d = c ∧ period d = p.
#[global] Instance same_pair_dec c p d : Decision (same_pair c p d).
Proof. unfold same_pair. apply _. Defined.

(** Decimal digits: [ndigits k n] says that [n] is written with [k] digits
    (none for zero). *)
Definition ndigits (k : nat) (n : N) : Prop :=
  match k with
  | O => n = 0%N
  | S k' => (10 ^ N.of_nat k' ≤ n < 10 ^ N.of_nat (S k'))%N
  end.

(** The date of 1 January of year [y]. *)
Definition yearDate (y : Z) : option Date := Some (mkDate (TimeFromYear y)).

(** Every period is a calendar year between [lo] and 9999. *)
Definition valid_years (lo : Z) (data : list TradeRecord) : Prop :=
  ∀ d, d ∈ data → lo ≤ period d ≤ 9999.

(** A partner record holding at least 5% of world trade. *)
Definition significant (worldTrade : Q) (d : TradeRecord) : Prop :=
  ((5 # 100) * worldTrade <= TradeValue d)%Q ∧ ptCode d ≠ world.

(** [data.find( d => d.ptCode == world )] *)
Definition world_record (data : list TradeRecord) : option TradeRecord :=
  JS.find (λ d, bool_decide (ptCode d = world)) data.

(** The page after [ws] have been written to the console. *)
Definition logged (ws : list Warning) (pg : Page) : Page :=
  mkPage (console pg ++ ws) (requests pg) (renders pg) (loading pg).
(** The page after [r] has been drawn. *)
Definition drawn (r : Render) (pg : Page) : Page :=
  mkPage (console pg) (requests pg) (renders pg ++ [r]) (loading pg).

(** The value a period's object gets for [partner]. *)
Definition partnerValue (pdata : list TradeRecord) (partner : string) : Q :=
  if JS.find (λ d, bool_decide (ptTitle d = partner)) pdata is Some r
  then TradeValue r else 0%Q.

(** The per-period object, given the world trade value [w]. *)
Definition tradeObject (pdata : list TradeRecord) (partners : list string)
    (p : option Date) (w : Q) : Datum :=
  foldl (λ (trade : Datum) partner,
           <[partner := VNum (partnerValue pdata partner)]> trade)
        (<["Other" := VNum (w - partnerTrade pdata)%Q]>
           (<["period" := VDate p]> ∅))
        partners.

(** What the period writes to the console. *)
Definition periodWarnings (pdata : list TradeRecord) (p : option Date) (w : Q)
  : list Warning :=
  if negb (Qle_bool (partnerTrade pdata) w)
  then [mkWarning "world trade too small?" p (partnerTrade pdata)]
  else [].

(** World trade, object and warnings of a period that has a world record. *)
Definition worldTradeOf (data : list TradeRecord) (p : option Date) : Q :=
  from_option TradeValue 0%Q (world_record (periodData data p)).
Definition tradeEntry (data : list TradeRecord) (partners : list string)
    (p : option Date) : Datum :=
  tradeObject (periodData data p) partners p (worldTradeOf data p).
Definition tradeWarnings (data : list TradeRecord) (p : option Date)
  : list Warning :=
  periodWarnings (periodData data p) p (worldTradeOf data p).

(** Each period of the data comes with a world-aggregate record. *)
Definition every_period_has_world (data : list TradeRecord) : Prop :=
  ∀ d, d ∈ data → ∃ w, w ∈ data ∧ period w = period d ∧ ptCode w = world.

(** The sum of a list of rationals. *)
Definition Qsum (xs : list Q) : Q := foldr Qplus 0%Q xs.

(** The response invariants of the trade API that the chart relies on: the
    world aggregate is the record titled "World", and a title names one
    partner code. *)
Definition titles_identify_partners (data : list TradeRecord) : Prop :=
  (∀ d, d ∈ data → ptCode d = world ↔ ptTitle d = "World")
  ∧ (∀ d1 d2, d1 ∈ data → d2 ∈ data →
       ptTitle d1 = ptTitle d2 → ptCode d1 = ptCode d2).

(** What [uniqueData] establishes before every [updateChart] call. *)
Definition deduplicated (data : list TradeRecord) : Prop :=
  NoDup (uid <$> data).

(** The distinct elements of a list, in order of first appearance. *)
Fixpoint first_occurrences {A} `{EqDecision A} (xs : list A) : list A :=
  match xs with
  | [] => []
  | x :: rest => x :: filter (λ y, y ≠ x) (first_occurrences rest)
  end.

(** Unnormalised bands laid in key order: every band starts where the one
    before it ends and is as high as its value. *)
Definition numeric (d : Datum) (k : string) : Q := default 0%Q (value d k).

Fixpoint cumulative (base : Datum → Q) (i : nat) (ks : list string)
    (data : list Datum) : list Series :=
  match ks with
  | [] => []
  | k :: rest =>
      mkSeries k i
        ((λ d, mkPoint (Some (base d)) (Some (numeric d k + base d)%Q) d) <$> data)
      :: cumulative (λ d, (numeric d k + base d)%Q) (S i) rest data
  end.

Definition stacked (ks : list string) (data : list Datum) : list Series :=
  match ks with
  | [] => []
  | k :: rest =>
      mkSeries k 0 ((λ d, mkPoint (Some 0%Q) (Some (numeric d k)) d) <$> data)
      :: cumulative (λ d, numeric d k) 1 rest data
  end.

(** The [i]-th batch taken from the end of a queue of length [n]. *)
Definition batch (queue : list Z) (i : nat) : list Z :=
  let n := length queue in
  drop (n - 5 * S i) (take (n - 5 * i) queue).

(** The number of batches: [n] divided by five, rounded up. *)
Definition batch_count (n : nat) : nat := ((n + 4) / 5)%nat.

(** The request the loop sends for the [i]-th batch. *)
Definition batch_request (HScode : string) (queue : list Z) (i : nat) : Request :=
  mkRequest HScode (inr (batch queue i)) (inl "all").

(** A service that answers every request with the same two records. *)
Definition sample_service (n : nat) (q : URLSearchParams)
  : option (list TradeRecord) :=
  Some [mkRecord 0 "World" 2020 100; mkRecord 36 "Australia" 2020 30].

(** A session in which the backfilled partner brings a later year and a
    larger world total than the first response had. *)
Definition growing_service (n : nat) (q : URLSearchParams)
  : option (list TradeRecord) :=
  match n with
  | 0%nat => Some [mkRecord 0 "World" 2019 90; mkRecord 124 "Canada" 2019 20;
                   mkRecord 0 "World" 2020 100; mkRecord 124 "Canada" 2020 30]
  | 1%nat => Some [mkRecord 0 "World" 2020 100; mkRecord 124 "Canada" 2020 30;
                   mkRecord 36 "Australia" 2020 40]
  | _ => Some [mkRecord 36 "Australia" 2019 35; mkRecord 36 "Australia" 2020 40;
               mkRecord 0 "World" 2021 500; mkRecord 36 "Australia" 2021 70]
  end.

(** The (partner code, period) pair a record is about. *)
Definition pairOf (d : TradeRecord) : Z * Z := (ptCode d, period d).

(** How a computation started on page [pg] with outcome [r] treats the
    network: [new] are the requests it sent; a request that got no answer is
    the last one sent and ends the run with [NetworkError], and a
    [NetworkError] comes from nowhere else. *)
Definition aborts_on_failure {A}
    (json : nat → URLSearchParams → option (list TradeRecord))
    (pg : Page) (r : Result A * Page) : Prop :=
  ∃ new,
    requests r.2 = requests pg ++ new
    ∧ (∀ i q, new !! i = Some q →
         json (length (requests pg) + i)%nat (params_of q) = None →
         r.1 = Throw NetworkError ∧ length new = S i)
    ∧ (r.1 = Throw NetworkError →
       ∃ q, last new = Some q
            ∧ json (length (requests pg) + length new - 1)%nat (params_of q)
              = None).

(** The series of a chart are the stack of its own records. *)
Definition chart_of (r : Render) : Prop :=
  ∃ entries,
    r_series r = stack (stackGen (chartPartners (r_data r))) entries.

(** Successive charts, each drawn from deduplicated data that extends the
    data of the chart before it; [data] is what was held before the first
    of them. *)
Fixpoint growing (data : list TradeRecord) (rs : list Render) : Prop :=
  match rs with
  | [] => True
  | r :: rest =>
      data `prefix_of` r_data r ∧ deduplicated (r_data r) ∧ chart_of r
      ∧ growing (r_data r) rest
  end.

(** A series that is neither Canada's nor the residual: its fill comes from
    the colour scale. *)
Definition ordinary (s : Series) : Prop := key s ≠ "Canada" ∧ key s ≠ "Other".

(** The colour the scale with domain [domain] has assigned to [d]. *)
Definition assigned (domain : list nat) (d : nat) : option string :=
  (λ p, schemeAccent !!! (p.1 mod length schemeAccent)%nat)
    <$> list_find (λ x, x = d) domain.

(** The successive contents of [g#dataSpace] as the charts [charts] are
    drawn one after the other, and the colour scale at the end. *)
Fixpoint dataSpace (charts : list Render) (group : list PathNode)
    (domain : list nat) : list (list PathNode) * list nat :=
  match charts with
  | [] => ([], domain)
  | r :: rest =>
      let '(paths, domain1) := drawPaths group (r_series r) domain in
      let '(states, domain2) := dataSpace rest paths domain1 in
      (paths :: states, domain2)
  end.

(** The number of charts among [charts] that have a series with key [k]. *)
Definition charts_with (k : string) (charts : list Render) : nat :=
  length (filter (λ r, k ∈ key <$> r_series r) charts).

#[global] Instance ordinary_dec s : Decision (ordinary s).
Proof. unfold ordinary. apply _. Defined.

(** Successive charts with distinct series keys, each having all the keys
    of the one before it; [ks] are the keys present before the first. *)
Fixpoint nested (ks : list string) (charts : list Render) : Prop :=
  match charts with
  | [] => True
  | r :: rest =>
      ks ⊆ key <$> r_series r ∧ NoDup (key <$> r_series r)
      ∧ nested (key <$> r_series r) rest
  end.

(** The node that the join finds for key [k]. *)
Definition find_node (k : string) (group : list PathNode) : option PathNode :=
  snd <$> list_find (λ n, key (node_data n) = k) group.

(** A service the script runs to completion on.  Every request is answered;
    the periods are four-digit years; the answer to a request for all
    partners has a world record; and every period of an answer has a world
    record in that answer or in the answer [first] to the first request. *)
Definition complete_service
    (json : nat → URLSearchParams → option (list TradeRecord))
    (first : list TradeRecord) : Prop :=
  (∀ n q, is_Some (json n q))
  ∧ (∀ n q resp, json n q = Some resp →
       valid_years 1000 resp
       ∧ (p_p q = "all" → ∃ w, w ∈ resp ∧ ptCode w = world)
       ∧ ∀ d, d ∈ resp →
           ∃ w, w ∈ first ++ resp ∧ ptCode w = world ∧ period w = period d).

(** Strings made of the characters of a decimal numeral: digits and the
    minus sign. *)
Fixpoint numeral (s : string) : bool :=
  match s with
  | String c rest => (is_digit c || bool_decide (c = "-"%char)) && numeral rest
  | EmptyString => true
  end.

(** The record [d] was received in answer to one of the requests [reqs]
    from the [n0]-th on, and that request asked for all periods. *)
Definition received
    (json : nat → URLSearchParams → option (list TradeRecord))
    (n0 : nat) (reqs : list Request) (d : TradeRecord) : Prop :=
  ∃ i q resp,
    (n0 ≤ i)%nat ∧ reqs !! i = Some q ∧ q_periods q = inl "all"
    ∧ json i (params_of q) = Some resp ∧ d ∈ resp.

(** * Properties *)

(** ** Worked examples *)

Example uniqueData_keeps_first :
  uniqueData [mkRecord 124 "Canada" 2020 30; mkRecord 0 "World" 2020 100;
              mkRecord 124 "Canada" 2020 31; mkRecord 124 "Canada" 2019 20]
  = [mkRecord 124 "Canada" 2020 30; mkRecord 0 "World" 2020 100;
     mkRecord 124 "Canada" 2019 20].
Proof. by vm_compute. Qed.

Example getPeriods_sorts_years :
  date2period <$> getPeriods [mkRecord 0 "World" 2020 100;
                              mkRecord 0 "World" 2018 80;
                              mkRecord 124 "Canada" 2020 30;
                              mkRecord 0 "World" 2019 90]
  = ["2018"; "2019"; "2020"].
Proof. by vm_compute. Qed.

(** The scenario of the specification: coffee ("0901"), world and Canada in
    2019 and 2020, world trade 1000 in 2020.  With Canada at 40 (4%) the queue
    stays empty and one chart is drawn; with Canada at 60 (6%) Canada is
    fetched again and a second chart is drawn. *)
Example canada_at_four_and_six_percent :
  let service (canada2020 : Q) (n : nat) (q : URLSearchParams) :=
    match n with
    | 0%nat =>
        Some [mkRecord 0 "World" 2019 900; mkRecord 124 "Canada" 2019 50;
              mkRecord 0 "World" 2020 1000;
              mkRecord 124 "Canada" 2020 canada2020]
    | 1%nat =>
        Some [mkRecord 0 "World" 2020 1000;
              mkRecord 124 "Canada" 2020 canada2020]
    | _ =>
        Some [mkRecord 124 "Canada" 2019 50;
              mkRecord 124 "Canada" 2020 canada2020]
    end in
  let run canada2020 :=
    addComtradeData (service canada2020) "0901" (mkPage [] [] [] false) in
  (q_partners <$> requests (run 40%Q).2 = [inr [0; 124]; inl "all"]
   ∧ length (renders (run 40%Q).2) = 1%nat)
  ∧ (q_partners <$> requests (run 60%Q).2
     = [inr [0; 124]; inl "all"; inr [124]]
     ∧ length (renders (run 60%Q).2) = 2%nat
     ∧ key <$> (r_series <$> renders (run 60%Q).2) !!! 1%nat
       = ["Canada"; "Other"]).
Proof. by vm_compute. Qed.

(** ** Printing integers *)

Lemma pretty_N_char_no_space (x : N) : pretty_N_char x ≠ " "%char.
Proof. unfold pretty_N_char. repeat case_match; discriminate. Qed.

Lemma pretty_N_go_no_space (x : N) (s : string) :
  no_space s = true → no_space (pretty_N_go x s) = true.
Proof.
  revert s. induction (N.lt_wf_0 x) as [x _ IH]; intros s Hs.
  destruct (decide (x = 0)%N) as [->|Hx].
  - by rewrite pretty_N_go_0.
  - rewrite pretty_N_go_step by lia. apply IH.
    + apply N.div_lt; lia.
    + simpl. rewrite Hs, andb_true_r.
      apply negb_true_iff, bool_decide_eq_false, pretty_N_char_no_space.
Qed.

Lemma pretty_N_no_space (x : N) : no_space (pretty x) = true.
Proof.
  unfold pretty, pretty_N. case_decide; [done|].
  by apply pretty_N_go_no_space.
Qed.

Lemma toString_no_space (z : Z) : no_space (toString z) = true.
Proof.
  unfold toString, pretty, pretty_Z.
  destruct z as [|x|x]; [done| |]; simpl; apply (pretty_N_no_space (Npos x)).
Qed.

Lemma toString_inj (a b : Z) : toString a = toString b → a = b.
Proof. apply pretty_Z_inj. Qed.

Lemma no_space_split (s1 s2 t1 t2 : string) :
  no_space s1 = true → no_space s2 = true →
  s1 +:+ String " " t1 = s2 +:+ String " " t2 → s1 = s2 ∧ t1 = t2.
Proof.
  revert s2. induction s1 as [|c s1 IH]; intros [|c2 s2] H1 H2 Heq;
    simpl in *.
  - by inversion Heq.
  - inversion Heq; subst. by rewrite bool_decide_eq_true_2 in H2.
  - inversion Heq; subst. by rewrite bool_decide_eq_true_2 in H1.
  - apply andb_true_iff in H1 as [_ H1]. apply andb_true_iff in H2 as [_ H2].
    inversion Heq; subst. destruct (IH s2 H1 H2) as [-> ->]; auto.
Qed.

(** The deduplication key identifies the (partner code, period) pair. *)
Lemma uid_inj (d1 d2 : TradeRecord) :
  uid d1 = uid d2 ↔ ptCode d1 = ptCode d2 ∧ period d1 = period d2.
Proof.
  unfold uid. split.
  - intros Heq.
    apply no_space_split in Heq as [Hc Hp]; auto using toString_no_space.
    split; [by apply toString_inj|].
    simpl in Hp. inversion Hp as [Hp']. by apply toString_inj.
  - by intros [-> ->].
Qed.

(** ** Deduplication *)

Lemma same_pair_uid c p d :
  same_pair c p d ↔ uid d = uid (mkRecord c "" p 0%Q).
Proof. rewrite uid_inj. done. Qed.

Lemma uniqueData_map_pair (S : gset string) data c p :
  filter (same_pair c p) (filter_defined (uniqueData_map S data)) =
  if decide (uid (mkRecord c "" p 0%Q) ∈ S) then []
  else option_list (find (λ d, bool_decide (same_pair c p d)) data).
Proof.
  revert S. induction data as [|d rest IH]; intros S; simpl.
  { by destruct (decide _). }
  unfold filter_defined in *. destruct (decide (uid d ∈ S)) as [Hin|Hin]; simpl.
  - rewrite IH. case_decide; [done|].
    rewrite bool_decide_eq_false_2; [done|].
    rewrite same_pair_uid. congruence.
  - rewrite filter_cons. destruct (decide (same_pair c p d)) as [Hd|Hd].
    + rewrite bool_decide_eq_true_2 by done. rewrite IH.
      apply same_pair_uid in Hd. rewrite <- Hd.
      rewrite decide_True by set_solver. by rewrite decide_False.
    + rewrite bool_decide_eq_false_2 by done. rewrite IH.
      rewrite same_pair_uid in Hd.
      destruct (decide (_ ∈ S)) as [HS|HS].
      * rewrite decide_True by set_solver. done.
      * rewrite decide_False by set_solver. done.
Qed.

Lemma uniqueData_map_sublist (S : gset string) data :
  sublist (filter_defined (uniqueData_map S data)) data.
Proof.
  revert S. induction data as [|d rest IH]; intros S; simpl; [done|].
  unfold filter_defined in *. case_decide; simpl.
  - by apply sublist_cons.
  - by apply sublist_skip.
Qed.

Lemma uniqueData_map_fresh (S : gset string) data d :
  d ∈ filter_defined (uniqueData_map S data) → uid d ∉ S.
Proof.
  revert S. induction data as [|x rest IH]; intros S; simpl.
  { by intros ?%elem_of_nil. }
  unfold filter_defined in *. case_decide; simpl.
  - apply IH.
  - intros [->|Hin]%elem_of_cons; [done|]. apply IH in Hin. set_solver.
Qed.

Lemma uniqueData_map_NoDup (S : gset string) data :
  NoDup (uid <$> filter_defined (uniqueData_map S data)).
Proof.
  revert S. induction data as [|x rest IH]; intros S; simpl.
  { constructor. }
  unfold filter_defined in *. case_decide; simpl; [apply IH|].
  constructor; [|apply IH].
  intros (d & Hd & Hin)%list_elem_of_fmap.
  apply uniqueData_map_fresh in Hin. set_solver.
Qed.

Lemma uniqueData_map_fixed (S : gset string) data :
  NoDup (uid <$> data) → (∀ d, d ∈ data → uid d ∉ S) →
  filter_defined (uniqueData_map S data) = data.
Proof.
  revert S. induction data as [|x rest IH]; intros S Hnd HS; simpl; [done|].
  unfold filter_defined in *.
  rewrite decide_False by (apply HS; left). simpl. f_equal.
  inversion Hnd as [|?? Hx Hnd']; subst. apply IH; [done|].
  intros d Hd. assert (uid d ∉ S) by (apply HS; by right).
  assert (uid d ≠ uid x); [|set_solver].
  intros Heq. apply Hx. rewrite <- Heq. by apply list_elem_of_fmap_2.
Qed.

(** C1: for every input and every (partner code, period) pair, the records
    of [uniqueData data] carrying that pair are exactly the first record of
    [data] carrying it, when there is one, and none otherwise; and every
    record returned is a record of the input. *)
Theorem uniqueData_first_per_pair (data : list TradeRecord) :
  (∀ d, d ∈ uniqueData data → d ∈ data) ∧
  ∀ c p : Z,
    filter (same_pair c p) (uniqueData data)
    = option_list (find (λ d, bool_decide (same_pair c p d)) data).
Proof.
  split.
  - intros d Hd. eapply elem_of_sublist; [done|apply uniqueData_map_sublist].
  - intros c p. unfold uniqueData. rewrite uniqueData_map_pair.
    by rewrite decide_False by set_solver.
Qed.

(** C10: [uniqueData] keeps a subsequence of its input, and is idempotent. *)
Theorem uniqueData_sublist_idempotent (data : list TradeRecord) :
  sublist (uniqueData data) data ∧
  uniqueData (uniqueData data) = uniqueData data.
Proof.
  split; [apply uniqueData_map_sublist|].
  unfold uniqueData at 1. apply uniqueData_map_fixed.
  - apply uniqueData_map_NoDup.
  - set_solver.
Qed.

(** ** Calendar arithmetic and the [%Y] round trip *)

Lemma DayFromYear_mono (a b : Z) : a < b → DayFromYear a < DayFromYear b.
Proof. unfold DayFromYear. intros. Z.div_mod_to_equations. lia. Qed.

Lemma TimeFromYear_mono (a b : Z) : a < b → TimeFromYear a < TimeFromYear b.
Proof.
  intros H%DayFromYear_mono. unfold TimeFromYear, msPerDay. lia.
Qed.

Lemma TimeFromYear_inj (a b : Z) : TimeFromYear a = TimeFromYear b → a = b.
Proof.
  intros Heq. destruct (Z.lt_trichotomy a b) as [H|[H|H]]; [|done|];
    apply TimeFromYear_mono in H; lia.
Qed.

Lemma YearFromTime_TimeFromYear (y : Z) : YearFromTime (TimeFromYear y) = y.
Proof.
  unfold YearFromTime, TimeFromYear, msPerDay.
  rewrite Z.mul_comm, Z.div_mul by done.
  assert (Hest : y - 1 ≤ 1970 + (400 * DayFromYear y) `div` 146097 ≤ y + 1).
  { unfold DayFromYear. Z.div_mod_to_equations. lia. }
  set (e := 1970 + (400 * DayFromYear y) `div` 146097) in *.
  pose proof (DayFromYear_mono (y - 1) y ltac:(lia)).
  pose proof (DayFromYear_mono y (y + 1) ltac:(lia)).
  pose proof (DayFromYear_mono (y + 1) (y + 2) ltac:(lia)).
  assert (e = y - 1 ∨ e = y ∨ e = y + 1) as [-> | [-> | ->]] by lia.
  - rewrite (proj2 (Z.ltb_ge _ _)) by lia.
    replace (y - 1 + 1) with y by lia.
    rewrite (proj2 (Z.leb_le _ _)) by lia. lia.
  - rewrite (proj2 (Z.ltb_ge _ _)) by lia.
    rewrite (proj2 (Z.leb_gt _ _)) by lia. done.
  - rewrite (proj2 (Z.ltb_lt _ _)) by lia. lia.
Qed.

Lemma ndigits_div (k : nat) (n : N) :
  ndigits (S k) n → ndigits k (n `div` 10)%N.
Proof.
  destruct k as [|k]; simpl.
  - intros [_ H]. apply N.div_small. by change (10 ^ N.of_nat 1)%N with 10%N in H.
  - rewrite !Nat2N.inj_succ, !N.pow_succ_r'. intros [H1 H2]. split.
    + apply N.div_le_lower_bound; lia.
    + apply N.Div0.div_lt_upper_bound; lia.
Qed.

Lemma ndigits_pos (k : nat) (n : N) : ndigits (S k) n → (0 < n)%N.
Proof.
  simpl. intros [H _].
  pose proof (N.pow_nonzero 10 (N.of_nat k) ltac:(done)). lia.
Qed.

Lemma ndigits_small (n : N) :
  (0 < n < 10000)%N → ∃ k, (1 ≤ k ≤ 4)%nat ∧ ndigits k n.
Proof.
  intros Hn.
  destruct (decide (n < 10)%N); [exists 1%nat; simpl; lia|].
  destruct (decide (n < 100)%N); [exists 2%nat; simpl; lia|].
  destruct (decide (n < 1000)%N); [exists 3%nat; simpl; lia|].
  exists 4%nat; simpl; lia.
Qed.

Lemma pretty_N_char_digit (d : N) :
  (d < 10)%N →
  is_digit (pretty_N_char d) = true ∧
  Z.of_nat (nat_of_ascii (pretty_N_char d)) - 48 = Z.of_N d.
Proof.
  intros Hd.
  assert (d = 0 ∨ d = 1 ∨ d = 2 ∨ d = 3 ∨ d = 4 ∨ d = 5
          ∨ d = 6 ∨ d = 7 ∨ d = 8 ∨ d = 9)%N as Hcases by lia.
  repeat (destruct Hcases as [->|Hcases]; [by vm_compute|]).
  subst. by vm_compute.
Qed.

Lemma pretty_N_go_all_digits (x : N) (s : string) :
  all_digits s = true → all_digits (pretty_N_go x s) = true.
Proof.
  revert s. induction (N.lt_wf_0 x) as [x _ IH]; intros s Hs.
  destruct (decide (x = 0)%N) as [->|Hx].
  - by rewrite pretty_N_go_0.
  - rewrite pretty_N_go_step by lia. apply IH.
    + apply N.div_lt; lia.
    + simpl. rewrite Hs, andb_true_r.
      apply pretty_N_char_digit, N.mod_lt. done.
Qed.

Lemma pretty_N_go_length (k : nat) (n : N) (s : string) :
  ndigits k n →
  String.length (pretty_N_go n s) = (k + String.length s)%nat.
Proof.
  revert n s. induction k as [|k IH]; intros n s Hk.
  - simpl in Hk. subst. by rewrite pretty_N_go_0.
  - rewrite pretty_N_go_step by (by eapply ndigits_pos).
    rewrite (IH _ _ (ndigits_div _ _ Hk)). simpl. lia.
Qed.

Lemma pretty_N_go_value (k : nat) (n : N) (s : string) (acc : Z) :
  ndigits k n →
  digits_value acc (pretty_N_go n s)
  = digits_value (acc * 10 ^ Z.of_nat k + Z.of_N n) s.
Proof.
  revert n s acc. induction k as [|k IH]; intros n s acc Hk.
  - simpl in Hk. subst. rewrite pretty_N_go_0. f_equal. simpl. lia.
  - rewrite pretty_N_go_step by (by eapply ndigits_pos).
    rewrite (IH _ _ _ (ndigits_div _ _ Hk)). simpl. f_equal.
    destruct (pretty_N_char_digit (n `mod` 10)%N) as [_ ->].
    { by apply N.mod_lt. }
    rewrite Nat2Z.inj_succ, Z.pow_succ_r by lia.
    rewrite (N.div_mod n 10) at 3 by done. lia.
Qed.

Lemma all_digits_skip_spaces (s : string) :
  all_digits s = true → skip_spaces s = s.
Proof.
  destruct s as [|c s]; simpl; [done|].
  intros [Hc _]%andb_true_iff.
  assert (is_space c = false) as ->; [|done].
  unfold is_digit in Hc. unfold is_space. apply bool_decide_eq_false.
  apply andb_true_iff in Hc as [H1%Nat.leb_le H2%Nat.leb_le].
  rewrite !elem_of_cons, elem_of_nil. lia.
Qed.

Lemma toString_nonneg (y : Z) : 0 ≤ y → toString y = pretty (Z.to_N y).
Proof. by destruct y. Qed.

Lemma period2date_toString (y : Z) :
  0 ≤ y ≤ 9999 → period2date (toString y) = Some (mkDate (TimeFromYear y)).
Proof.
  intros Hy. rewrite toString_nonneg by lia.
  destruct (decide (y = 0)) as [->|Hy0]; [done|].
  unfold pretty, pretty_N. rewrite decide_False by lia.
  destruct (ndigits_small (Z.to_N y)) as (k & Hk4 & Hk); [lia|].
  unfold period2date.
  rewrite all_digits_skip_spaces by (by apply pretty_N_go_all_digits).
  rewrite (pretty_N_go_length k), (pretty_N_go_value k) by done.
  rewrite pretty_N_go_all_digits by done. simpl.
  rewrite (proj2 (Nat.leb_le _ _)) by lia.
  rewrite bool_decide_eq_false_2.
  - simpl. do 3 f_equal. lia.
  - intros Heq. apply (f_equal String.length) in Heq.
    rewrite (pretty_N_go_length k) in Heq by done. simpl in Heq. lia.
Qed.

Lemma pad4_toString (y : Z) :
  1000 ≤ y ≤ 9999 → pad4 (Z.rem y 10000) = toString y.
Proof.
  intros Hy. rewrite Z.rem_small by lia. unfold pad4.
  rewrite Z.abs_eq by lia. rewrite (proj2 (Z.ltb_ge _ _)) by lia.
  assert (String.length (toString y) = 4%nat) as ->; [|done].
  rewrite toString_nonneg by lia. unfold pretty, pretty_N.
  rewrite decide_False by lia.
  rewrite (pretty_N_go_length 4); [done|]. simpl. lia.
Qed.

Lemma date2period_period2date (y : Z) :
  1000 ≤ y ≤ 9999 → date2period (period2date (toString y)) = toString y.
Proof.
  intros Hy. rewrite period2date_toString by lia.
  unfold date2period. simpl. rewrite YearFromTime_TimeFromYear.
  by apply pad4_toString.
Qed.

(** ** Insertion-ordered sets *)

Section SetNew.
Context {A : Type} `{EqDecision A}.
Implicit Types (s xs : list A) (x y : A).

Lemma elem_of_Set_add s x y : y ∈ Set_add s x ↔ y ∈ s ∨ y = x.
Proof.
  unfold Set_add. case_decide.
  - naive_solver.
  - rewrite elem_of_app, list_elem_of_singleton. done.
Qed.

Lemma NoDup_Set_add s x : NoDup s → NoDup (Set_add s x).
Proof.
  unfold Set_add. intros Hs. case_decide; [done|].
  apply NoDup_app. split_and!; [done| |apply NoDup_singleton].
  intros y Hy ->%list_elem_of_singleton. done.
Qed.

Lemma elem_of_foldl_Set_add xs s y :
  y ∈ foldl Set_add s xs ↔ y ∈ s ∨ y ∈ xs.
Proof.
  revert s. induction xs as [|x xs IH]; intros s; simpl.
  - rewrite elem_of_nil. naive_solver.
  - rewrite IH, elem_of_Set_add, elem_of_cons. naive_solver.
Qed.

Lemma NoDup_foldl_Set_add xs s : NoDup s → NoDup (foldl Set_add s xs).
Proof.
  revert s. induction xs as [|x xs IH]; intros s Hs; simpl; [done|].
  by apply IH, NoDup_Set_add.
Qed.

Lemma elem_of_Set_new xs y : y ∈ Set_new xs ↔ y ∈ xs.
Proof.
  unfold Set_new. rewrite elem_of_foldl_Set_add, elem_of_nil. naive_solver.
Qed.

Lemma NoDup_Set_new xs : NoDup (Set_new xs).
Proof. apply NoDup_foldl_Set_add. constructor. Qed.

Lemma elem_of_Set_delete s x y : y ∈ Set_delete x s ↔ y ∈ s ∧ y ≠ x.
Proof. unfold Set_delete. rewrite list_elem_of_filter. naive_solver. Qed.

Lemma NoDup_Set_delete s x : NoDup s → NoDup (Set_delete x s).
Proof. apply NoDup_filter. Qed.
End SetNew.

(** ** The period axis *)

#[global] Instance date_cmp_le_total : Total date_cmp_le.
Proof. intros a b. unfold date_cmp_le. lia. Qed.
#[global] Instance date_cmp_le_trans : Transitive date_cmp_le.
Proof. intros a b c. unfold date_cmp_le. lia. Qed.

Lemma yearDate_inj (a b : Z) : yearDate a = yearDate b → a = b.
Proof. intros [= H]. by apply TimeFromYear_inj. Qed.

Lemma getPeriods_Permutation (data : list TradeRecord) :
  valid_years 0 data →
  getPeriods data ≡ₚ yearDate <$> Set_new (period <$> data).
Proof.
  intros Hv. unfold getPeriods. rewrite merge_sort_Permutation.
  assert ((λ p, period2date (toString p)) <$> Set_new (period <$> data)
          = yearDate <$> Set_new (period <$> data)) as ->; [|done].
  apply Forall_fmap_ext, Forall_forall.
  intros y (d & -> & Hd)%elem_of_Set_new%list_elem_of_fmap.
  apply period2date_toString, Hv, Hd.
Qed.

Lemma elem_of_getPeriods (data : list TradeRecord) (x : option Date) :
  valid_years 0 data →
  x ∈ getPeriods data ↔ ∃ d, d ∈ data ∧ x = yearDate (period d).
Proof.
  intros Hv. rewrite (getPeriods_Permutation _ Hv), list_elem_of_fmap.
  setoid_rewrite elem_of_Set_new. setoid_rewrite list_elem_of_fmap.
  naive_solver.
Qed.

Lemma NoDup_getPeriods (data : list TradeRecord) :
  valid_years 0 data → NoDup (getPeriods data).
Proof.
  intros Hv. rewrite (getPeriods_Permutation _ Hv).
  apply NoDup_fmap_2_strong; [|apply NoDup_Set_new].
  intros a b _ _. apply yearDate_inj.
Qed.

Lemma StronglySorted_strict (l : list (option Date)) :
  StronglySorted date_cmp_le l → NoDup (valueOf <$> l) →
  StronglySorted (λ a b, valueOf a < valueOf b) l.
Proof.
  induction 1 as [|x l Hl IH Hx]; intros Hnd; [constructor|].
  simpl in Hnd. apply NoDup_cons in Hnd as [Hx' Hnd].
  constructor; [by apply IH|].
  apply Forall_forall. intros y Hy.
  rewrite Forall_forall in Hx. specialize (Hx y Hy). unfold date_cmp_le in Hx.
  assert (valueOf x ≠ valueOf y); [|lia].
  intros Heq. apply Hx'. rewrite Heq. by apply list_elem_of_fmap_2.
Qed.

(** C4: on records whose periods are calendar years that [%Y] reads (0 to
    9999), [getPeriods] returns dates in strictly ascending order, without
    duplicates, each the 1 January of a period of the input, and their years
    are exactly the distinct periods of the input. *)
Theorem getPeriods_ascending_distinct (data : list TradeRecord) :
  valid_years 0 data →
  StronglySorted (λ a b, valueOf a < valueOf b) (getPeriods data)
  ∧ NoDup (getPeriods data)
  ∧ (∀ x, x ∈ getPeriods data ↔ ∃ d, d ∈ data ∧ x = yearDate (period d))
  ∧ (λ x, YearFromTime (valueOf x)) <$> getPeriods data
    ≡ₚ remove_dups (period <$> data).
Proof.
  intros Hv. split_and!.
  - apply StronglySorted_strict.
    + apply StronglySorted_merge_sort; apply _.
    + rewrite (getPeriods_Permutation _ Hv), <- list_fmap_compose.
      apply NoDup_fmap_2_strong; [|apply NoDup_Set_new].
      intros a b _ _. simpl. apply TimeFromYear_inj.
  - by apply NoDup_getPeriods.
  - intros x. by apply elem_of_getPeriods.
  - rewrite (getPeriods_Permutation _ Hv), <- list_fmap_compose.
    rewrite (list_fmap_ext _ id).
    + rewrite list_fmap_id. apply NoDup_Permutation.
      * apply NoDup_Set_new.
      * apply NoDup_remove_dups.
      * intros y. by rewrite elem_of_Set_new, elem_of_remove_dups.
    + intros i y _. simpl. apply YearFromTime_TimeFromYear.
Qed.

Lemma getPeriods_ascending_distinct_witness :
  let data := [mkRecord 0 "World" 2020 100; mkRecord 124 "Canada" 2019 20;
               mkRecord 0 "World" 2019 90; mkRecord 124 "Canada" 2020 30] in
  getPeriods data = [yearDate 2019; yearDate 2020]
  ∧ StronglySorted (λ a b, valueOf a < valueOf b) (getPeriods data).
Proof.
  split; [by vm_compute|].
  apply (getPeriods_ascending_distinct
           [mkRecord 0 "World" 2020 100; mkRecord 124 "Canada" 2019 20;
            mkRecord 0 "World" 2019 90; mkRecord 124 "Canada" 2020 30]).
  intros d Hd. repeat (apply elem_of_cons in Hd as [->|Hd]; [simpl; lia|]).
  by apply elem_of_nil in Hd.
Defined.

(** ** The ranking pass *)

#[global] Instance Qle_decision (x y : Q) : Decision (x <= y)%Q.
Proof.
  destruct (Qlt_le_dec y x) as [H|H]; [right|left]; [|done].
  by apply Qlt_not_le.
Defined.

Lemma Qle_bool_decide (x y : Q) : Qle_bool x y = bool_decide (x <= y)%Q.
Proof.
  destruct (decide (x <= y)%Q) as [H|H].
  - rewrite bool_decide_eq_true_2 by done. by apply Qle_bool_iff.
  - rewrite bool_decide_eq_false_2 by done.
    apply not_true_is_false. by rewrite Qle_bool_iff.
Qed.

Lemma twentieth_is_five_percent (w : Q) : (w / 20 == (5 # 100) * w)%Q.
Proof.
  unfold Qdiv. rewrite Qmult_comm. apply Qmult_comp; reflexivity.
Qed.

Lemma unqueriedPartners_filter (worldTrade : Q) (newData : list TradeRecord) :
  unqueriedPartners worldTrade newData
  = ptCode <$> filter (significant worldTrade) newData.
Proof.
  unfold unqueriedPartners, filter_truthy.
  induction newData as [|d rest IH]; [done|].
  rewrite filter_cons, fmap_cons. cbn [omap list_omap]. rewrite IH.
  rewrite Qle_bool_decide.
  destruct (decide (significant worldTrade d)) as [[H1 H2]|Hn].
  - rewrite (bool_decide_eq_true_2 (_ <= _)%Q)
      by (by rewrite twentieth_is_five_percent).
    rewrite bool_decide_eq_true_2 by done. simpl.
    by rewrite bool_decide_eq_false_2.
  - destruct (bool_decide _ && bool_decide _) eqn:Hb; [|done].
    apply andb_true_iff in Hb as [H1%bool_decide_eq_true H2%bool_decide_eq_true].
    rewrite twentieth_is_five_percent in H1. by destruct Hn.
Qed.

Lemma rankingPass_run (newData : list TradeRecord) (pg : Page) :
  rankingPass newData pg
  = match world_record newData with
    | Some w => (Ok (unqueriedPartners (TradeValue w) newData), pg)
    | None => (Throw TypeError, pg)
    end.
Proof.
  unfold rankingPass, world_record, mbind, M_bind.
  by destruct (JS.find _ newData).
Qed.

(** C2: the backfill queue holds, in response order, the partner codes of
    exactly the records whose trade value is at least 5% of the world trade
    value and whose code is not the world aggregate; the world trade value is
    that of the first world record of the response.  With world trade 200, a
    partner at 10 is queued and a partner at 9.99 is not. *)
Theorem ranking_inclusive_threshold :
  (∀ worldTrade newData,
     unqueriedPartners worldTrade newData
     = ptCode <$> filter (significant worldTrade) newData)
  ∧ (∀ newData pg,
       rankingPass newData pg
       = match world_record newData with
         | Some w => (Ok (unqueriedPartners (TradeValue w) newData), pg)
         | None => (Throw TypeError, pg)
         end)
  ∧ (∀ pg,
       rankingPass [mkRecord 0 "World" 2020 200; mkRecord 36 "Australia" 2020 10;
                    mkRecord 76 "Brazil" 2020 (999 # 100)] pg
       = (Ok [36], pg)).
Proof.
  split_and!.
  - apply unqueriedPartners_filter.
  - apply rankingPass_run.
  - done.
Qed.

(** ** Running [updateChart] *)

Lemma logged_nil pg : logged [] pg = pg.
Proof. destruct pg. unfold logged. simpl. by rewrite app_nil_r. Qed.
Lemma logged_app ws1 ws2 pg : logged ws2 (logged ws1 pg) = logged (ws1 ++ ws2) pg.
Proof. unfold logged. simpl. by rewrite app_assoc. Qed.

Lemma periodTrade_run data partners p pg :
  periodTrade data partners p pg
  = match world_record (periodData data p) with
    | Some r =>
        (Ok (tradeObject (periodData data p) partners p (TradeValue r)),
         logged (periodWarnings (periodData data p) p (TradeValue r)) pg)
    | None => (Throw TypeError, pg)
    end.
Proof.
  unfold periodTrade, world_record, mbind, M_bind.
  destruct (JS.find _ (periodData data p)) as [r|]; simpl; [|done].
  unfold periodWarnings.
  destruct (negb _); simpl; [done|]. by rewrite logged_nil.
Qed.

Lemma allTrade_run_Ok data partners periods pg :
  Forall (λ p, is_Some (world_record (periodData data p))) periods →
  allTrade data partners periods pg
  = (Ok (tradeEntry data partners <$> periods),
     logged (periods ≫= tradeWarnings data) pg).
Proof.
  unfold allTrade. intros Hall. revert pg.
  induction Hall as [|p periods [r Hr] _ IH]; intros pg; simpl.
  { by rewrite logged_nil. }
  unfold mbind at 1, M_bind at 1. rewrite periodTrade_run, Hr.
  unfold mbind at 1, M_bind at 1. rewrite IH. simpl.
  unfold tradeEntry, tradeWarnings, worldTradeOf. rewrite Hr. simpl.
  by rewrite logged_app.
Qed.

Lemma allTrade_run_Throw data partners periods p pg :
  p ∈ periods → world_record (periodData data p) = None →
  ∃ ws, allTrade data partners periods pg = (Throw TypeError, logged ws pg).
Proof.
  unfold allTrade. intros Hin Hp. revert pg.
  induction periods as [|q periods IH]; intros pg; [by apply elem_of_nil in Hin|].
  simpl. unfold mbind at 1, M_bind at 1. rewrite periodTrade_run.
  destruct (world_record (periodData data q)) as [r|] eqn:Hq.
  - apply elem_of_cons in Hin as [->|Hin]; [congruence|].
    destruct (IH Hin (logged (periodWarnings (periodData data q) q (TradeValue r)) pg))
      as [ws Hws].
    unfold mbind at 1, M_bind at 1. rewrite Hws, logged_app. eauto.
  - exists []. by rewrite logged_nil.
Qed.

Lemma updateChart_run_Ok data X Y pg :
  Forall (λ p, is_Some (world_record (periodData data p))) (getPeriods data) →
  updateChart data X Y pg
  = (Ok (),
     drawn (mkRender data
              (stack (stackGen (chartPartners data))
                 (tradeEntry data (chartPartners data) <$> getPeriods data))
              X Y)
           (logged (getPeriods data ≫= tradeWarnings data) pg)).
Proof.
  intros Hall. unfold updateChart, mbind, M_bind.
  by rewrite allTrade_run_Ok.
Qed.

Lemma updateChart_run_Throw data X Y p pg :
  p ∈ getPeriods data → world_record (periodData data p) = None →
  ∃ ws, updateChart data X Y pg = (Throw TypeError, logged ws pg).
Proof.
  intros Hin Hp. unfold updateChart, mbind, M_bind.
  destruct (allTrade_run_Throw data (chartPartners data) _ _ pg Hin Hp) as [ws ->].
  eauto.
Qed.

(** For a four-digit year the period filter selects the records of that
    year. *)
Lemma periodData_year data (y : Z) :
  1000 ≤ y ≤ 9999 →
  periodData data (yearDate y) = filter (λ d, period d = y) data.
Proof.
  intros Hy. unfold periodData. apply list_filter_iff. intros d.
  unfold yearDate. rewrite <- (period2date_toString y) by lia.
  rewrite date2period_period2date by done.
  split; [apply toString_inj|by intros ->].
Qed.

Lemma world_record_None data :
  world_record data = None ↔ ∀ d, d ∈ data → ptCode d ≠ world.
Proof.
  unfold world_record, JS.find. split.
  - intros Hnone d Hd%list_elem_of_In.
    eapply find_none in Hnone; [|done]. by apply bool_decide_eq_false in Hnone.
  - intros Hall. destruct (List.find _ data) as [r|] eqn:Hr; [|done].
    apply find_some in Hr as [Hin%list_elem_of_In Hw%bool_decide_eq_true].
    by apply Hall in Hin.
Qed.

Lemma world_record_Some data r :
  world_record data = Some r → r ∈ data ∧ ptCode r = world.
Proof.
  unfold world_record, JS.find.
  intros [Hin%list_elem_of_In Hw%bool_decide_eq_true]%find_some. done.
Qed.

Lemma yearDate_in_getPeriods data (y : Z) :
  y ∈ period <$> data → 0 ≤ y ≤ 9999 → yearDate y ∈ getPeriods data.
Proof.
  intros Hin Hy. unfold getPeriods. rewrite merge_sort_Permutation.
  unfold yearDate. rewrite <- (period2date_toString y) by done.
  apply (list_elem_of_fmap_2 (λ p, period2date (toString p))).
  by apply elem_of_Set_new.
Qed.

Ltac each_record H :=
  repeat (apply elem_of_cons in H as [->|H]; [simpl|]);
  [..|by apply elem_of_nil in H].

(** ** The per-period object *)

Lemma tradeObject_lookup pdata partners p w (k : string) :
  tradeObject pdata partners p w !! k
  = if decide (k ∈ partners) then Some (VNum (partnerValue pdata k))
    else if decide (k = "Other") then Some (VNum (w - partnerTrade pdata)%Q)
    else if decide (k = "period") then Some (VDate p)
    else None.
Proof.
  unfold tradeObject.
  assert (Hgen : ∀ (m : Datum),
    foldl (λ (trade : Datum) partner,
             <[partner := VNum (partnerValue pdata partner)]> trade) m partners !! k
    = if decide (k ∈ partners) then Some (VNum (partnerValue pdata k)) else m !! k).
  { induction partners as [|x rest IH]; intros m'; simpl.
    - destruct (decide (k ∈ [])) as [Hin|]; [|done]. by apply elem_of_nil in Hin.
    - rewrite IH. destruct (decide (k ∈ rest)) as [Hin|Hnin].
      + destruct (decide (k ∈ x :: rest)) as [|Hn]; [done|].
        destruct Hn. by right.
      + destruct (decide (k = x)) as [->|Hne].
        * rewrite lookup_insert_eq.
          destruct (decide (x ∈ x :: rest)) as [|Hn]; [done|].
          destruct Hn. by left.
        * rewrite lookup_insert_ne by done.
          destruct (decide (k ∈ x :: rest)) as [Hin|]; [|done].
          apply elem_of_cons in Hin. tauto. }
  rewrite Hgen. clear Hgen.
  destruct (decide (k ∈ partners)); [done|].
  destruct (decide (k = "Other")) as [->|?]; [by rewrite lookup_insert_eq|].
  rewrite lookup_insert_ne by done.
  destruct (decide (k = "period")) as [->|?]; [by rewrite lookup_insert_eq|].
  rewrite lookup_insert_ne by done. apply lookup_empty.
Qed.

Lemma Other_not_partner data :
  "Other" ∉ ptTitle <$> data → "Other" ∉ chartPartners data.
Proof.
  intros Hno Hin. apply Hno. unfold chartPartners in Hin.
  apply elem_of_Set_delete in Hin as [Hin _]. by rewrite elem_of_Set_new in Hin.
Qed.

Lemma getPeriods_world data :
  valid_years 1000 data → every_period_has_world data →
  Forall (λ p, ∃ y w, p = yearDate y ∧ 1000 ≤ y ≤ 9999 ∧ y ∈ period <$> data
                      ∧ world_record (periodData data p) = Some w)
         (getPeriods data).
Proof.
  intros Hv Hw. apply Forall_forall. intros p Hp.
  apply elem_of_getPeriods in Hp as (d & Hd & ->).
  2:{ intros x Hx. specialize (Hv x Hx). lia. }
  specialize (Hv d Hd). exists (period d).
  destruct (world_record (periodData data (yearDate (period d)))) as [w|] eqn:Hwr.
  - exists w. split_and!; try done; try lia. by apply list_elem_of_fmap_2.
  - exfalso. rewrite periodData_year in Hwr by done.
    destruct (Hw d Hd) as (w & Hwin & Hwp & Hwc).
    rewrite world_record_None in Hwr. apply (Hwr w); [|done].
    by apply list_elem_of_filter.
Qed.

Lemma Qlt_residual (w s : Q) : (w < s)%Q → (w - s < 0)%Q.
Proof.
  intros H. apply (Qplus_lt_l _ _ s).
  assert (w - s + s == w)%Q as -> by ring.
  assert (0 + s == s)%Q as -> by ring. done.
Qed.

(** C6: when every period of the data has a world record, [updateChart]
    completes and draws one entry per period; for a period whose partner
    trade exceeds world trade a warning is written to the console and the
    entry keeps the negative residual as its "Other" value. *)
Theorem excess_partner_trade_warns_and_continues data X Y pg :
  valid_years 1000 data →
  every_period_has_world data →
  "Other" ∉ ptTitle <$> data →
  ∃ allTrade warnings,
    updateChart data X Y pg
    = (Ok (),
       drawn (mkRender data (stack (stackGen (chartPartners data)) allTrade) X Y)
             (logged warnings pg))
    ∧ Forall2
        (λ p entry, ∃ (y : Z) w,
           let pdata := filter (λ d, period d = y) data in
           let residual := (TradeValue w - partnerTrade pdata)%Q in
           p = yearDate y
           ∧ world_record pdata = Some w
           ∧ entry !! "Other" = Some (VNum residual)
           ∧ ((TradeValue w < partnerTrade pdata)%Q →
              (residual < 0)%Q
              ∧ mkWarning "world trade too small?" p (partnerTrade pdata)
                ∈ warnings))
        (getPeriods data) allTrade.
Proof.
  intros Hv Hw Hother.
  pose proof (getPeriods_world data Hv Hw) as Hall.
  exists (tradeEntry data (chartPartners data) <$> getPeriods data),
         (getPeriods data ≫= tradeWarnings data).
  split.
  - apply updateChart_run_Ok. eapply Forall_impl; [exact Hall|].
    intros p (y & w & _ & _ & _ & ->). eauto.
  - apply Forall2_fmap_r, Forall_Forall2_diag, Forall_forall.
    intros p Hp. rewrite Forall_forall in Hall.
    destruct (Hall p Hp) as (y & w & -> & Hy & Hin & Hwr).
    exists y, w. simpl. rewrite <- periodData_year by done.
    split_and!; [done|done| |].
    + unfold tradeEntry, worldTradeOf. rewrite Hwr. simpl.
      rewrite tradeObject_lookup.
      rewrite decide_False by (by apply Other_not_partner).
      by rewrite decide_True.
    + intros Hlt. split; [by apply Qlt_residual|].
      apply list_elem_of_bind. exists (yearDate y). split; [|done].
      unfold tradeWarnings, periodWarnings, worldTradeOf. rewrite Hwr. simpl.
      assert (Qle_bool (partnerTrade (periodData data (yearDate y))) (TradeValue w)
              = false) as ->.
      { apply not_true_is_false. rewrite Qle_bool_iff. by apply Qlt_not_le. }
      simpl. apply list_elem_of_singleton. done.
Qed.

Lemma excess_partner_trade_warns_and_continues_witness :
  let data := [mkRecord 0 "World" 2020 100; mkRecord 36 "Australia" 2020 70;
               mkRecord 76 "Brazil" 2020 50] in
  let pg := mkPage [] [] [] true in
  let X := mkScale (Fin 0, Fin 1) (40, 595) in
  let Y := mkScale (Fin 0, Fin 100) (230, 5) in
  (updateChart data X Y pg).1 = Ok ()
  ∧ console (updateChart data X Y pg).2
    = [mkWarning "world trade too small?" (yearDate 2020) 120]
  ∧ ∃ allTrade warnings,
      updateChart data X Y pg
      = (Ok (),
         drawn (mkRender data (stack (stackGen (chartPartners data)) allTrade) X Y)
               (logged warnings pg))
      ∧ length allTrade = length (getPeriods data).
Proof.
  intros data pg X Y. split; [by vm_compute|]. split; [by vm_compute|].
  destruct (excess_partner_trade_warns_and_continues data X Y pg)
    as (allTrade & warnings & Hrun & Hall).
  - intros d Hd. each_record Hd; lia.
  - intros d Hd. exists (mkRecord 0 "World" 2020 100).
    split; [apply list_elem_of_here|]. each_record Hd; done.
  - simpl. rewrite !elem_of_cons, elem_of_nil.
    intros [?|[?|[?|[]]]]; discriminate.
  - exists allTrade, warnings. split; [done|].
    symmetry. by eapply Forall2_length.
Defined.

(** ** Sums of trade values *)

Lemma Qsum_cons x xs : Qsum (x :: xs) = (x + Qsum xs)%Q.
Proof. done. Qed.

Lemma Qsum_app xs ys : (Qsum (xs ++ ys) == Qsum xs + Qsum ys)%Q.
Proof.
  induction xs as [|x xs IH].
  - change (Qsum ys == 0 + Qsum ys)%Q. ring.
  - rewrite <- app_comm_cons, !Qsum_cons, IH. ring.
Qed.

Lemma foldl_Qsum (l : list TradeRecord) (a : Q) :
  (foldl (λ a b, a + TradeValue b) a l == a + Qsum (TradeValue <$> l))%Q.
Proof.
  revert a. induction l as [|d l IH]; intros a.
  - change (a == a + 0)%Q. ring.
  - rewrite fmap_cons, Qsum_cons. cbn [foldl]. rewrite IH. ring.
Qed.

Lemma partnerTrade_Qsum (pdata : list TradeRecord) :
  (partnerTrade pdata
   == Qsum (TradeValue <$> filter (λ d, ptCode d ≠ world) pdata))%Q.
Proof. unfold partnerTrade. rewrite foldl_Qsum. ring. Qed.

Lemma Qsum_pick {A} `{EqDecision A} (T : list A) (a : A) (x : Q) (f : A → Q) :
  NoDup T → a ∈ T → (f a == 0)%Q →
  (Qsum ((λ t, if bool_decide (a = t) then x else f t) <$> T)
   == x + Qsum (f <$> T))%Q.
Proof.
  intros Hnd Hin Hfa. induction Hnd as [|t T Ht Hnd IH]; [by apply elem_of_nil in Hin|].
  rewrite !fmap_cons, !Qsum_cons. destruct (decide (a = t)) as [->|Hne].
  - rewrite bool_decide_eq_true_2 by done. rewrite Hfa.
    assert ((λ t0, if bool_decide (t = t0) then x else f t0) <$> T = f <$> T) as ->.
    { apply Forall_fmap_ext, Forall_forall. intros t' Ht'.
      rewrite bool_decide_eq_false_2; [done|]. by intros <-. }
    ring.
  - rewrite bool_decide_eq_false_2 by done.
    apply elem_of_cons in Hin as [?|Hin]; [done|].
    rewrite (IH Hin). ring.
Qed.

Lemma partnerValue_cons d L t :
  partnerValue (d :: L) t
  = if bool_decide (ptTitle d = t) then TradeValue d else partnerValue L t.
Proof. unfold partnerValue. simpl. by destruct (bool_decide _). Qed.

Lemma partnerValue_absent L t : t ∉ ptTitle <$> L → partnerValue L t = 0%Q.
Proof.
  intros Hnin. unfold partnerValue, JS.find.
  destruct (List.find _ L) as [r|] eqn:Hr; [|done].
  apply find_some in Hr as [Hin%list_elem_of_In Ht%bool_decide_eq_true].
  destruct Hnin. rewrite <- Ht. by apply list_elem_of_fmap_2.
Qed.

Lemma Qsum_by_title (T : list string) (L : list TradeRecord) :
  NoDup T → NoDup (ptTitle <$> L) → (∀ d, d ∈ L → ptTitle d ∈ T) →
  (Qsum (partnerValue L <$> T) == Qsum (TradeValue <$> L))%Q.
Proof.
  intros HT. induction L as [|d L IH]; intros HL Hsub.
  - clear HT Hsub HL. induction T as [|t T IHT]; [reflexivity|].
    rewrite fmap_cons, Qsum_cons, IHT.
    change (0 + Qsum [] == Qsum [])%Q. ring.
  - simpl in HL. apply NoDup_cons in HL as [Hd HL].
    assert (partnerValue (d :: L) <$> T
            = (λ t, if bool_decide (ptTitle d = t) then TradeValue d
                    else partnerValue L t) <$> T) as ->.
    { apply Forall_fmap_ext, Forall_forall. intros t _. apply partnerValue_cons. }
    rewrite Qsum_pick.
    + rewrite fmap_cons, Qsum_cons, IH; [reflexivity|done|].
      intros d' Hd'. apply Hsub. by right.
    + done.
    + apply Hsub. by left.
    + by rewrite partnerValue_absent.
Qed.

(** ** The residual *)

Lemma uniqueData_deduplicated data : deduplicated (uniqueData data).
Proof. apply uniqueData_map_NoDup. Qed.

Lemma NoDup_fmap_transfer {A B C} (f : A → B) (g : A → C) (l : list A) :
  NoDup (f <$> l) →
  (∀ x y, x ∈ l → y ∈ l → g x = g y → f x = f y) →
  NoDup (g <$> l).
Proof.
  induction l as [|a l IH]; intros Hnd Hfg; [constructor|].
  rewrite fmap_cons in *. apply NoDup_cons in Hnd as [Ha Hnd].
  apply NoDup_cons. split.
  - intros (b & Hab & Hb)%list_elem_of_fmap. apply Ha.
    rewrite (Hfg a b); [by apply list_elem_of_fmap_2|by left|by right|done].
  - apply IH; [done|]. intros x y Hx Hy. apply Hfg; by right.
Qed.

Lemma partner_titles_NoDup data (y : Z) :
  titles_identify_partners data → deduplicated data →
  NoDup (ptTitle <$> filter (λ d, ptCode d ≠ world)
                       (filter (λ d, period d = y) data)).
Proof.
  intros [_ Hinj] Hdd.
  apply (NoDup_fmap_transfer uid).
  - apply (sublist_NoDup _ (uid <$> data)); [exact Hdd|]. apply fmap_sublist.
    etrans; apply sublist_filter.
  - intros d1 d2 [_ [Hp1 H1]%list_elem_of_filter]%list_elem_of_filter
                 [_ [Hp2 H2]%list_elem_of_filter]%list_elem_of_filter Ht.
    apply uid_inj. split; [by apply Hinj|congruence].
Qed.

Lemma partnerValue_nonworld data t :
  (∀ d, d ∈ data → ptCode d = world → ptTitle d ≠ t) →
  partnerValue data t = partnerValue (filter (λ d, ptCode d ≠ world) data) t.
Proof.
  intros Hw. induction data as [|d data IH]; [done|].
  rewrite filter_cons. destruct (decide (ptCode d ≠ world)) as [Hd|Hd].
  - rewrite !partnerValue_cons, IH; [done|]. intros d' Hd'. apply Hw. by right.
  - rewrite partnerValue_cons, bool_decide_eq_false_2.
    + apply IH. intros d' Hd'. apply Hw. by right.
    + apply Hw; [by left|]. by destruct (decide (ptCode d = world)).
Qed.

Lemma Set_add_fresh {A} `{EqDecision A} (s : list A) (x : A) :
  x ∉ s → Set_add s x = s ++ [x].
Proof. intros Hx. unfold Set_add. by rewrite decide_False. Qed.

(** C3: for a period (a four-digit year) with a world record, in data
    without a partner titled "Other", the object [updateChart] builds has
    "Other" equal to world trade minus the trade of all non-world records of
    the period; when moreover the data is deduplicated and its titles
    identify partners, the values of all stack keys (each tracked partner, 0
    when absent from the period, and "Other") add up to world trade. *)
Theorem other_is_residual_and_total_is_world data (y : Z) w pg :
  1000 ≤ y ≤ 9999 →
  "Other" ∉ ptTitle <$> data →
  world_record (filter (λ d, period d = y) data) = Some w →
  let pdata := filter (λ d, period d = y) data in
  let partnerSum :=
    Qsum (TradeValue <$> filter (λ d, ptCode d ≠ world) pdata) in
  yearDate y ∈ getPeriods data
  ∧ ∃ entry pg' other,
      periodTrade data (chartPartners data) (yearDate y) pg = (Ok entry, pg')
      ∧ entry !! "Other" = Some (VNum other)
      ∧ (other == TradeValue w - partnerSum)%Q
      ∧ (titles_identify_partners data → deduplicated data →
         ∃ values,
           Forall2 (λ k v, value entry k = Some v)
                   (keys (stackGen (chartPartners data))) values
           ∧ (Qsum values == TradeValue w)%Q).
Proof.
  intros Hy Hother Hw pdata partnerSum.
  assert (Hno : "Other" ∉ chartPartners data) by (by apply Other_not_partner).
  split.
  { apply yearDate_in_getPeriods; [|lia].
    apply world_record_Some in Hw as [[<- Hin]%list_elem_of_filter _].
    by apply list_elem_of_fmap_2. }
  rewrite periodTrade_run, periodData_year, Hw by done. fold pdata.
  eexists _, _, (TradeValue w - partnerTrade pdata)%Q.
  split; [done|]. split_and!.
  - rewrite tradeObject_lookup, decide_False by done. by rewrite decide_True.
  - by rewrite partnerTrade_Qsum.
  - intros Htitles Hdd.
    exists ((partnerValue pdata <$> chartPartners data)
            ++ [(TradeValue w - partnerTrade pdata)%Q]).
    split.
    + simpl. rewrite Set_add_fresh by done. apply Forall2_app.
      * apply Forall2_fmap_r, Forall_Forall2_diag, Forall_forall. intros k Hk.
        unfold value. rewrite tradeObject_lookup. by rewrite decide_True.
      * repeat constructor. unfold value.
        rewrite tradeObject_lookup, decide_False by done.
        by rewrite decide_True.
    + rewrite Qsum_app, Qsum_cons.
      assert (Qsum (partnerValue pdata <$> chartPartners data)
              == partnerTrade pdata)%Q as ->.
      2:{ change (Qsum []) with 0%Q. ring. }
      rewrite partnerTrade_Qsum. destruct Htitles as [Hworld Hinj].
      assert (partnerValue pdata <$> chartPartners data
              = partnerValue (filter (λ d, ptCode d ≠ world) pdata)
                  <$> chartPartners data) as ->.
      { apply Forall_fmap_ext, Forall_forall. intros t Ht.
        apply partnerValue_nonworld.
        intros d [_ Hd]%list_elem_of_filter Hc <-.
        apply elem_of_Set_delete in Ht as [_ Ht]. apply Ht. by apply Hworld. }
      apply Qsum_by_title.
      * apply NoDup_Set_delete, NoDup_Set_new.
      * by apply partner_titles_NoDup.
      * intros d [Hc [_ Hd]%list_elem_of_filter]%list_elem_of_filter.
        apply elem_of_Set_delete. split.
        -- apply elem_of_Set_new. by apply list_elem_of_fmap_2.
        -- intros Ht. apply Hc. by apply Hworld.
Qed.

Lemma other_is_residual_and_total_is_world_witness :
  let data := [mkRecord 0 "World" 2020 100; mkRecord 36 "Australia" 2020 30;
               mkRecord 76 "Brazil" 2020 20] in
  let pg := mkPage [] [] [] true in
  match periodTrade data (chartPartners data) (yearDate 2020) pg with
  | (Ok entry, _) =>
      entry !! "Other" = Some (VNum 50)
      ∧ entry !! "Australia" = Some (VNum 30)
      ∧ entry !! "Brazil" = Some (VNum 20)
  | _ => False
  end
  ∧ ∃ entry pg' other values,
      periodTrade data (chartPartners data) (yearDate 2020) pg = (Ok entry, pg')
      ∧ entry !! "Other" = Some (VNum other)
      ∧ (other == 100 - Qsum [30; 20])%Q
      ∧ Forall2 (λ k v, value entry k = Some v)
                ["Australia"; "Brazil"; "Other"] values
      ∧ (Qsum values == 100)%Q.
Proof.
  intros data pg. split.
  { by vm_compute. }
  destruct (other_is_residual_and_total_is_world data 2020
              (mkRecord 0 "World" 2020 100) pg)
    as (_ & entry & pg' & other & Hrun & Hother & Hres & Htotal).
  - lia.
  - simpl. rewrite !elem_of_cons, elem_of_nil.
    intros [?|[?|[?|[]]]]; discriminate.
  - done.
  - destruct Htotal as (values & Hvalues & Hsum).
    + split.
      * intros d Hd. each_record Hd; done.
      * intros d1 d2 Hd1 Hd2. each_record Hd1; each_record Hd2; done.
    + by vm_compute; repeat constructor; rewrite ?elem_of_cons, ?elem_of_nil;
        intuition discriminate.
    + exists entry, pg', other, values. done.
Defined.

(** ** Stack keys and bands *)

Lemma foldl_Set_add_first_occurrences {A} `{EqDecision A} (xs s : list A) :
  foldl Set_add s xs = s ++ filter (λ y, y ∉ s) (first_occurrences xs).
Proof.
  revert s. induction xs as [|x xs IH]; intros s; simpl.
  { by rewrite app_nil_r. }
  rewrite IH. unfold Set_add. rewrite filter_cons.
  destruct (decide (x ∈ s)) as [Hin|Hnin].
  - rewrite decide_False by tauto. f_equal.
    rewrite list_filter_filter. apply list_filter_iff. intros y.
    split; [|tauto]. intros Hy. split; [done|]. by intros ->.
  - rewrite decide_True by done. rewrite <- app_assoc. simpl. do 2 f_equal.
    rewrite list_filter_filter. apply list_filter_iff. intros y.
    rewrite elem_of_app, list_elem_of_singleton. tauto.
Qed.

Lemma filter_all {A} (P : A → Prop) `{∀ x, Decision (P x)} (l : list A) :
  (∀ x, x ∈ l → P x) → filter P l = l.
Proof.
  induction l as [|x l IH]; intros HP; [done|].
  rewrite filter_cons, decide_True by (apply HP; by left).
  f_equal. apply IH. intros y Hy. apply HP. by right.
Qed.

Lemma Set_new_first_occurrences {A} `{EqDecision A} (xs : list A) :
  Set_new xs = first_occurrences xs.
Proof.
  unfold Set_new. rewrite foldl_Set_add_first_occurrences. simpl.
  apply filter_all. intros y _. apply not_elem_of_nil.
Qed.

Lemma cumulative_keys base i ks data :
  key <$> cumulative base i ks data = ks
  ∧ index <$> cumulative base i ks data = seq i (length ks).
Proof.
  revert base i. induction ks as [|k ks IH]; intros base i; [done|].
  cbn [cumulative]. rewrite !fmap_cons. cbn [key index length seq].
  destruct (IH (λ d, (numeric d k + base d)%Q) (S i)) as [-> ->]. done.
Qed.

Lemma stacked_keys ks data :
  key <$> stacked ks data = ks
  ∧ index <$> stacked ks data = seq 0 (length ks).
Proof.
  destruct ks as [|k ks]; [done|].
  cbn [stacked]. rewrite !fmap_cons. cbn [key index length seq].
  destruct (cumulative_keys (λ d, numeric d k) 1 ks data) as [-> ->]. done.
Qed.

Lemma value_numeric (d : Datum) (k : string) :
  is_Some (value d k) → value d k = Some (numeric d k).
Proof. intros [q Hq]. unfold numeric. by rewrite Hq. Qed.

Lemma offsetNone_from_cumulative (base : Datum → Q) (y : Datum → option Q)
    (f : nat → nat) (i : nat) (ks : list string) (data : list Datum) :
  (∀ d k, d ∈ data → k ∈ ks → is_Some (value d k)) →
  (∀ j, f j = (i + j)%nat) →
  offsetNone_from ((λ d, mkPoint (y d) (Some (base d)) d) <$> data)
                  (imap (λ j, stackSeries data (f j)) ks)
  = cumulative base i ks data.
Proof.
  revert base y f i. induction ks as [|k ks IH]; intros base y f i Hnum Hf; [done|].
  cbn [imap offsetNone_from cumulative].
  change (points (stackSeries data (f 0%nat) k))
    with ((λ d, mkPoint (Some 0%Q) (value d k) d) <$> data).
  cbn [points key index stackSeries].
  assert (zip_with stack_on ((λ d, mkPoint (y d) (Some (base d)) d) <$> data)
            ((λ d, mkPoint (Some 0%Q) (value d k) d) <$> data)
          = (λ d, mkPoint (Some (base d)) (Some (numeric d k + base d)%Q) d)
              <$> data) as Hpts.
  { clear IH Hf. induction data as [|d data IHd]; [done|].
    rewrite !fmap_cons. cbn [zip_with]. f_equal.
    - unfold stack_on. simpl. rewrite value_numeric; [done|].
      apply Hnum; by left.
    - apply IHd. intros d' k' Hd' Hk'. apply Hnum; [by right|done]. }
  rewrite Hpts. f_equal.
  - f_equal. rewrite Hf. lia.
  - rewrite <- (IH _ (λ d, Some (base d)) (f ∘ S) (S i)).
    + done.
    + intros d k' Hd Hk'. apply Hnum; [done|by right].
    + intros j. simpl. rewrite Hf. lia.
Qed.

Lemma stack_stacked (g : StackGen) (data : list Datum) :
  (∀ d k, d ∈ data → k ∈ keys g → is_Some (value d k)) →
  stack g data = stacked (keys g) data.
Proof.
  intros Hnum. unfold stack, apply_offset.
  destruct (D3Shape.order g), (D3Shape.offset g).
  destruct (keys g) as [|k ks]; [done|].
  simpl. unfold stackSeries at 1. simpl.
  assert ((λ d, mkPoint (Some 0%Q) (value d k) d) <$> data
          = (λ d, mkPoint (Some 0%Q) (Some (numeric d k)) d) <$> data) as ->.
  { apply Forall_fmap_ext, Forall_forall. intros d Hd.
    rewrite value_numeric; [done|]. apply Hnum; [done|by left]. }
  f_equal.
  apply (offsetNone_from_cumulative _ (λ _, Some 0%Q) _ 1).
  - intros d k' Hd Hk'. apply Hnum; [done|by right].
  - done.
Qed.

Lemma allTrade_inv data partners periods pg entries pg1 :
  allTrade data partners periods pg = (Ok entries, pg1) →
  (∃ ws, pg1 = logged ws pg)
  ∧ Forall (λ e, ∃ pdata p w, e = tradeObject pdata partners p w) entries.
Proof.
  unfold allTrade. revert pg entries pg1.
  induction periods as [|p periods IH]; intros pg entries pg1; simpl.
  { intros [= <- <-]. split; [exists []; by rewrite logged_nil|constructor]. }
  unfold mbind at 1, M_bind at 1. rewrite periodTrade_run.
  destruct (world_record (periodData data p)) as [r|]; [|done].
  unfold mbind at 1, M_bind at 1.
  destruct (mapM_ _ periods _) as [[rest|e] pg2] eqn:Hrest; [|done].
  intros [= <- <-]. apply IH in Hrest as [[ws ->] Hall]. split.
  - rewrite logged_app. eauto.
  - constructor; [eauto|done].
Qed.

Lemma updateChart_inv data X Y pg pg' :
  updateChart data X Y pg = (Ok (), pg') →
  ∃ entries ws,
    pg' = drawn (mkRender data (stack (stackGen (chartPartners data)) entries) X Y)
                (logged ws pg)
    ∧ Forall (λ e, ∃ pdata p w, e = tradeObject pdata (chartPartners data) p w)
             entries.
Proof.
  unfold updateChart, mbind, M_bind.
  destruct (allTrade _ _ _ pg) as [[entries|e] pg1] eqn:Hall; [|done].
  intros [= <-]. apply allTrade_inv in Hall as [[ws ->] Hall]. eauto.
Qed.

Lemma chart_keys data :
  "Other" ∉ ptTitle <$> data →
  keys (stackGen (chartPartners data))
  = filter (λ t, t ≠ "World") (first_occurrences (ptTitle <$> data)) ++ ["Other"].
Proof.
  intros Hother. simpl. rewrite Set_add_fresh by (by apply Other_not_partner).
  unfold chartPartners, Set_delete. by rewrite Set_new_first_occurrences.
Qed.

(** C8: when no record is titled "Other", the keys given to the stack are
    the distinct titles in order of first appearance, without "World", and
    then "Other"; the stack is built with [stackOffsetNone] and
    [stackOrderNone], so that a completed [updateChart] draws one series per
    key, in key order, as unnormalised cumulative bands. *)
Theorem stack_keys_in_insertion_order data X Y pg pg' :
  "Other" ∉ ptTitle <$> data →
  updateChart data X Y pg = (Ok (), pg') →
  let ks := filter (λ t, t ≠ "World") (first_occurrences (ptTitle <$> data))
            ++ ["Other"] in
  stackGen (chartPartners data) = mkStack ks stackOffsetNone stackOrderNone
  ∧ ∃ r entries,
      renders pg' = renders pg ++ [r]
      ∧ r_series r = stack (stackGen (chartPartners data)) entries
      ∧ r_series r = stacked ks entries
      ∧ key <$> r_series r = ks
      ∧ index <$> r_series r = seq 0 (length ks).
Proof.
  intros Hother Hrun ks.
  pose proof (chart_keys data Hother) as Hks. fold ks in Hks.
  split.
  { unfold stackGen in *. simpl in Hks. by rewrite Hks. }
  apply updateChart_inv in Hrun as (entries & ws & -> & Hall).
  eexists _, entries. split; [done|]. simpl. split; [done|].
  assert (stack (stackGen (chartPartners data)) entries = stacked ks entries)
    as ->.
  { rewrite stack_stacked, Hks; [done|].
    intros e k He Hk. rewrite Forall_forall in Hall.
    destruct (Hall e He) as (pdata & p & w & ->).
    unfold value. rewrite tradeObject_lookup.
    destruct (decide (k ∈ chartPartners data)); [done|].
    rewrite Hks in Hk. apply elem_of_app in Hk as [Hk|Hk%list_elem_of_singleton].
    - exfalso. unfold chartPartners, Set_delete in *.
      by rewrite Set_new_first_occurrences in *.
    - by rewrite decide_True. }
  split; [done|]. apply stacked_keys.
Qed.

Lemma stack_keys_in_insertion_order_witness :
  let data := [mkRecord 0 "World" 2019 90; mkRecord 124 "Canada" 2019 20;
               mkRecord 0 "World" 2020 100; mkRecord 36 "Australia" 2020 30;
               mkRecord 124 "Canada" 2020 25] in
  let pg := mkPage [] [] [] true in
  let X := mkScale (Fin 0, Fin 1) (40, 595) in
  let Y := mkScale (Fin 0, Fin 100) (230, 5) in
  (key <$> (r_series <$> renders (updateChart data X Y pg).2) !!! 0%nat)
  = ["Canada"; "Australia"; "Other"]
  ∧ ∃ r entries,
      renders (updateChart data X Y pg).2 = renders pg ++ [r]
      ∧ r_series r = stack (stackGen (chartPartners data)) entries
      ∧ r_series r = stacked ["Canada"; "Australia"; "Other"] entries
      ∧ key <$> r_series r = ["Canada"; "Australia"; "Other"]
      ∧ index <$> r_series r = [0; 1; 2]%nat.
Proof.
  intros data pg X Y. split; [by vm_compute|].
  apply (stack_keys_in_insertion_order data X Y pg (updateChart data X Y pg).2).
  - simpl. rewrite !elem_of_cons, elem_of_nil.
    intros [?|[?|[?|[?|[?|[]]]]]]; discriminate.
  - assert ((updateChart data X Y pg).1 = Ok ()) as Hok by (by vm_compute).
    destruct (updateChart data X Y pg) as [res pg1]. simpl in *. by subst.
Defined.

(** ** The backfill loop *)

Section Backfill.
Variable json : nat → URLSearchParams → option (list TradeRecord).

Lemma backfill_step HScode X Y unqueried sourceData :
  backfill json HScode X Y (unqueried, sourceData)
  = if decide (0 < length unqueried)%nat
    then
      newData ← getAllDataFor json HScode (inr (slice_last 5 unqueried)) (inl "all");
      updateChart (uniqueData (sourceData ++ newData)) X Y;;
      backfill json HScode X Y
        (slice_init 5 unqueried, uniqueData (sourceData ++ newData))
    else mret (unqueried, sourceData).
Proof.
  simp backfill. destruct (decide (0 < length unqueried)%nat); reflexivity.
Qed.

Lemma batch_count_spec (n : nat) :
  (n ≤ 5 * batch_count n < n + 5)%nat.
Proof.
  unfold batch_count.
  pose proof (Nat.div_mod_eq (n + 4) 5).
  pose proof (Nat.mod_upper_bound (n + 4) 5). lia.
Qed.

Lemma batch_count_unique (n k : nat) :
  (n ≤ 5 * k < n + 5)%nat → k = batch_count n.
Proof. pose proof (batch_count_spec n). lia. Qed.

Lemma batch_slice_init (queue : list Z) (i : nat) :
  batch (slice_init 5 queue) i = batch queue (S i).
Proof.
  unfold batch, slice_init. rewrite length_take, take_take. f_equal; [lia|].
  f_equal. lia.
Qed.

Lemma batch_0 (queue : list Z) : batch queue 0 = slice_last 5 queue.
Proof.
  unfold batch, slice_last. rewrite Nat.mul_0_r, Nat.sub_0_r, firstn_all.
  f_equal.
Qed.

Lemma getAllDataFor_run HScode partners periods pg :
  getAllDataFor json HScode partners periods pg
  = let q := mkRequest HScode partners periods in
    let pg' := mkPage (console pg) (requests pg ++ [q]) (renders pg) (loading pg) in
    (match json (length (requests pg)) (params_of q) with
     | Some dataset => Ok dataset
     | None => Throw NetworkError
     end, pg').
Proof. unfold getAllDataFor. simpl. by destruct (json _ _). Qed.

Lemma batch_request_0 HScode queue :
  batch_request HScode queue 0 = mkRequest HScode (inr (slice_last 5 queue)) (inl "all").
Proof. unfold batch_request. by rewrite batch_0. Qed.

(** What [updateChart] leaves untouched, and what it may add. *)
Lemma updateChart_frame data X Y pg :
  requests (updateChart data X Y pg).2 = requests pg
  ∧ loading (updateChart data X Y pg).2 = loading pg
  ∧ ∃ new, renders (updateChart data X Y pg).2 = renders pg ++ new
           ∧ Forall (λ r, r_data r = data ∧ r_X r = X ∧ r_Y r = Y) new
           ∧ (new = [] ↔ (updateChart data X Y pg).1 ≠ Ok ()).
Proof.
  destruct (updateChart data X Y pg) as [[[]|e] pg'] eqn:Hrun.
  - apply updateChart_inv in Hrun as (entries & ws & -> & _). simpl.
    split_and!; [done|done|]. eexists [_]. split_and!; [done| |done].
    by repeat constructor.
  - unfold updateChart, mbind, M_bind in Hrun.
    destruct (allTrade _ _ _ pg) as [[entries|e'] pg1] eqn:Hall; [done|].
    injection Hrun as <- <-.
    assert (∃ ws, pg1 = logged ws pg) as [ws ->].
    { clear -Hall. unfold allTrade in Hall. revert pg Hall.
      induction (getPeriods data) as [|p periods IH]; intros pg; [done|].
      simpl. unfold mbind at 1, M_bind at 1. rewrite periodTrade_run.
      destruct (world_record _) as [r|].
      - unfold mbind at 1, M_bind at 1.
        destruct (mapM_ _ periods _) as [[rest|e2] pg2] eqn:Hrest; [done|].
        intros [= <- <-]. apply IH in Hrest as [ws ->].
        rewrite logged_app. eauto.
      - intros [= <- <-]. exists []. by rewrite logged_nil. }
    simpl. split_and!; [done|done|]. exists []. rewrite app_nil_r.
    split_and!; [done|constructor|done].
Qed.

(** Every run of the loop issues, in order, requests for the first [k]
    batches counted from the end of the queue, and nothing else. *)
Lemma backfill_trace HScode X Y (queue : list Z) sourceData pg :
  ∃ k : nat,
    (k ≤ batch_count (length queue))%nat
    ∧ (queue ≠ [] → 0 < k)%nat
    ∧ requests (backfill json HScode X Y (queue, sourceData) pg).2
      = requests pg ++ (batch_request HScode queue <$> seq 0 k)
    ∧ ∀ st, (backfill json HScode X Y (queue, sourceData) pg).1 = Ok st →
            st.1 = [] ∧ k = batch_count (length queue).
Proof.
  remember (length queue) as n eqn:Hn.
  revert queue sourceData pg Hn.
  induction (lt_wf n) as [n _ IH]; intros queue sourceData pg ->.
  rewrite backfill_step.
  destruct (decide (0 < length queue)%nat) as [Hpos|Hzero].
  2:{ exists 0%nat. assert (queue = []) as -> by (destruct queue; simpl in *; [done|lia]).
      simpl. rewrite app_nil_r. split_and!; try done.
      intros st [= <-]. done. }
  pose proof (batch_count_spec (length queue)) as Hcount.
  unfold mbind, M_bind. rewrite getAllDataFor_run. cbv zeta.
  set (pg1 := mkPage _ _ _ _).
  destruct (json _ _) as [newData|].
  2:{ exists 1%nat. cbn [seq fmap list_fmap fst snd]. rewrite batch_request_0.
      split_and!; try done; try lia. }
  set (sourceData' := uniqueData (sourceData ++ newData)).
  destruct (updateChart_frame sourceData' X Y pg1) as (Hreq & _ & _).
  destruct (updateChart sourceData' X Y pg1) as [[[]|e] pg2] eqn:Hrun;
    cbn [fst snd] in *.
  2:{ exists 1%nat. cbn [seq fmap list_fmap]. rewrite batch_request_0, Hreq.
      split_and!; try done; try lia. }
  destruct (IH (length (slice_init 5 queue))
              ltac:(unfold slice_init; rewrite length_take; lia)
              (slice_init 5 queue) sourceData' pg2 eq_refl)
    as (k & Hk & _ & Hreqs & Hok).
  pose proof (batch_count_spec (length (slice_init 5 queue))) as Hcount'.
  assert (Hlen : length (slice_init 5 queue) = (length queue - 5)%nat).
  { unfold slice_init. rewrite length_take. lia. }
  exists (S k). split_and!.
  - rewrite Hlen in *. lia.
  - lia.
  - rewrite Hreqs, Hreq. subst pg1. cbn [requests]. rewrite <- app_assoc. f_equal.
    cbn [seq fmap list_fmap app]. rewrite batch_request_0. f_equal.
    change (list_fmap nat Request (batch_request HScode queue) (seq 1 k))
      with (batch_request HScode queue <$> seq 1 k).
    rewrite <- fmap_S_seq, <- list_fmap_compose.
    apply list_fmap_ext. intros i j _. simpl. unfold batch_request.
    by rewrite batch_slice_init.
  - intros st Hst. destruct (Hok st Hst) as [-> Hk']. split; [done|].
    apply batch_count_unique. rewrite Hlen in *. lia.
Qed.

Lemma batch_iter (queue : list Z) (i : nat) :
  batch queue i = slice_last 5 (Nat.iter i (slice_init 5) queue).
Proof.
  revert queue. induction i as [|i IH]; intros queue; [apply batch_0|].
  by rewrite <- batch_slice_init, IH, Nat.iter_succ_r.
Qed.

Lemma batch_length (queue : list Z) (i : nat) :
  length (batch queue i)
  = (length queue - 5 * i - (length queue - 5 * S i))%nat.
Proof. unfold batch. rewrite length_drop, length_take. lia. Qed.

Lemma batches_concat (queue : list Z) (k : nat) :
  concat (reverse (batch queue <$> seq 0 k))
  = drop (length queue - 5 * k) queue.
Proof.
  induction k as [|k IH].
  - simpl. rewrite Nat.sub_0_r. by rewrite drop_all.
  - rewrite seq_S, fmap_app, reverse_app, concat_app, IH.
    change (concat (reverse (batch queue <$> [(0 + k)%nat])))
      with (batch queue k ++ []).
    rewrite app_nil_r. unfold batch.
    trans (drop (length queue - 5 * S k)
             (take (length queue - 5 * k) queue
              ++ drop (length queue - 5 * k) queue)).
    + rewrite drop_app_le; [done|]. rewrite length_take. lia.
    + by rewrite take_drop.
Qed.

(** C7: the loop is a total function of its state; it requests the batches
    of five counted from the end of the queue, one per iteration and in that
    order, stops early only on an exception, and otherwise ends with an empty
    queue after [batch_count] iterations.  Each batch is what [slice(-5)]
    takes after the earlier batches have been removed: five partners, or the
    remaining ones for the final batch, and together the batches are the
    queue. *)
Theorem backfill_drains_queue_from_the_end HScode X Y queue sourceData pg :
  let n := length queue in
  let run := backfill json HScode X Y (queue, sourceData) pg in
  (∃ k : nat,
     (k ≤ batch_count n)%nat
     ∧ (queue ≠ [] → 0 < k)%nat
     ∧ requests run.2 = requests pg ++ (batch_request HScode queue <$> seq 0 k)
     ∧ ∀ st, run.1 = Ok st → st.1 = [] ∧ k = batch_count n)
  ∧ (∀ i : nat, (i < batch_count n)%nat →
       batch queue i = slice_last 5 (Nat.iter i (slice_init 5) queue)
       ∧ (0 < length (batch queue i) ≤ 5)%nat
       ∧ ((S i < batch_count n)%nat → length (batch queue i) = 5%nat))
  ∧ concat (reverse (batch queue <$> seq 0 (batch_count n))) = queue
  ∧ (queue ≠ [] → length (slice_init 5 queue) < length queue)%nat.
Proof.
  intros n run. pose proof (batch_count_spec n) as Hcount. split_and!.
  - apply backfill_trace.
  - intros i Hi. rewrite batch_length. fold n.
    split_and!; [apply batch_iter|lia|lia|lia].
  - rewrite batches_concat. fold n.
    replace (n - 5 * batch_count n)%nat with 0%nat by lia. done.
  - intros Hne. unfold slice_init. rewrite length_take.
    destruct queue; [done|]. simpl. lia.
Qed.

(** Every chart the loop draws uses the scales it was given. *)
Lemma backfill_renders HScode X Y (queue : list Z) sourceData pg :
  ∃ new,
    renders (backfill json HScode X Y (queue, sourceData) pg).2
    = renders pg ++ new
    ∧ Forall (λ r, r_X r = X ∧ r_Y r = Y) new.
Proof.
  remember (length queue) as n eqn:Hn.
  revert queue sourceData pg Hn.
  induction (lt_wf n) as [n _ IH]; intros queue sourceData pg ->.
  rewrite backfill_step.
  destruct (decide (0 < length queue)%nat) as [Hpos|Hzero].
  2:{ exists []. simpl. by rewrite app_nil_r. }
  unfold mbind, M_bind. rewrite getAllDataFor_run. cbv zeta.
  set (pg1 := mkPage _ _ _ _).
  destruct (json _ _) as [newData|].
  2:{ exists []. simpl. by rewrite app_nil_r. }
  set (sourceData' := uniqueData (sourceData ++ newData)).
  destruct (updateChart_frame sourceData' X Y pg1)
    as (_ & _ & new1 & Hnew1 & Hall1 & _).
  assert (Hall1' : Forall (λ r, r_X r = X ∧ r_Y r = Y) new1).
  { eapply Forall_impl; [exact Hall1|]. naive_solver. }
  destruct (updateChart sourceData' X Y pg1) as [[[]|e] pg2] eqn:Hrun;
    cbn [fst snd] in *.
  2:{ exists new1. by rewrite Hnew1. }
  destruct (IH (length (slice_init 5 queue))
              ltac:(unfold slice_init; rewrite length_take; lia)
              (slice_init 5 queue) sourceData' pg2 eq_refl)
    as (new2 & Hnew2 & Hall2).
  exists (new1 ++ new2). rewrite Hnew2, Hnew1. subst pg1. cbn [renders].
  rewrite app_assoc. split; [done|]. by apply Forall_app.
Qed.

End Backfill.

Lemma backfill_drains_queue_from_the_end_witness :
  let queue := [4; 8; 12; 36; 40; 76; 124] in
  let pg := mkPage [] [] [] true in
  let X := mkScale (Fin 0, Fin 1) (40, 595) in
  let Y := mkScale (Fin 0, Fin 100) (230, 5) in
  let run := backfill sample_service "0901" X Y (queue, []) pg in
  q_partners <$> requests run.2 = [inr [12; 36; 40; 76; 124]; inr [4; 8]]
  ∧ run.1 = Ok ([], [mkRecord 0 "World" 2020 100; mkRecord 36 "Australia" 2020 30])
  ∧ concat (reverse (batch queue <$> seq 0 (batch_count 7))) = queue.
Proof.
  intros queue pg X Y run. split; [by vm_compute|]. split; [by vm_compute|].
  apply (backfill_drains_queue_from_the_end sample_service "0901" X Y queue [] pg).
Defined.

(** ** The axis scales *)

Lemma foldl_select (test : Q → Q → bool) (R : Q → Q → Prop)
    (x : Q) (rest : list Q) :
  (∀ a, R a a) → (∀ a b c, R a b → R b c → R a c) →
  (∀ m y, test m y = true → R m y) → (∀ m y, test m y = false → R y m) →
  let best := foldl (λ m y, if test m y then y else m) x rest in
  best ∈ x :: rest ∧ ∀ z, z ∈ x :: rest → R z best.
Proof.
  intros Hrefl Htrans Ht Hf. revert x.
  induction rest as [|y rest IH]; intros x.
  - simpl. split; [by left|]. by intros z ->%list_elem_of_singleton.
  - cbn [foldl]. destruct (IH (if test x y then y else x)) as [Hin Hle].
    split.
    + apply elem_of_cons in Hin as [->|Hin]; [|by do 2 right].
      destruct (test x y); [right|]; by left.
    + intros z Hz. destruct (test x y) eqn:Hxy.
      * apply elem_of_cons in Hz as [->|Hz]; [|by apply Hle].
        eapply Htrans; [by apply Ht|]. apply Hle. by left.
      * apply elem_of_cons in Hz as [->|Hz]; [apply Hle; by left|].
        apply elem_of_cons in Hz as [->|Hz]; [|apply Hle; by right].
        eapply Htrans; [by apply Hf|]. apply Hle. by left.
Qed.

Lemma Qle_bool_false (a b : Q) : Qle_bool a b = false → (b <= a)%Q.
Proof.
  intros Hf. destruct (Qlt_le_dec a b) as [Hlt|]; [|done].
  apply Qlt_le_weak, Qle_bool_iff in Hlt. congruence.
Qed.

Lemma Math_max_spec (x : Q) (rest : list Q) :
  ∃ m, Math_max (x :: rest) = Fin m ∧ m ∈ x :: rest
       ∧ ∀ y, y ∈ x :: rest → (y <= m)%Q.
Proof.
  eexists. split; [done|].
  apply (foldl_select Qle_bool Qle).
  - apply Qle_refl.
  - apply Qle_trans.
  - intros m y. apply Qle_bool_iff.
  - intros m y. apply Qle_bool_false.
Qed.

Lemma Math_min_spec (x : Q) (rest : list Q) :
  ∃ m, Math_min (x :: rest) = Fin m ∧ m ∈ x :: rest
       ∧ ∀ y, y ∈ x :: rest → (m <= y)%Q.
Proof.
  eexists. split; [done|].
  apply (foldl_select (λ m y, Qle_bool y m) (λ a b, b <= a)%Q).
  - apply Qle_refl.
  - intros a b c ??. by apply (Qle_trans c b a).
  - intros m y. apply Qle_bool_iff.
  - intros m y. apply Qle_bool_false.
Qed.

Lemma TimeFromYear_range (y : Z) :
  0 ≤ y ≤ 9999 → Z.abs (TimeFromYear y) ≤ 8640000000000000.
Proof.
  intros Hy.
  assert (TimeFromYear 0 ≤ TimeFromYear y ≤ TimeFromYear 9999) as Hb.
  { split.
    - destruct (decide (y = 0)) as [->|]; [done|].
      apply Z.lt_le_incl, TimeFromYear_mono. lia.
    - destruct (decide (y = 9999)) as [->|]; [done|].
      apply Z.lt_le_incl, TimeFromYear_mono. lia. }
  change (TimeFromYear 0) with (-62167219200000) in Hb.
  change (TimeFromYear 9999) with 253370764800000 in Hb. lia.
Qed.

Lemma newDate_value_year (y : Z) :
  0 ≤ y ≤ 9999 →
  newDate_value (Fin (inject_Z (TimeFromYear y))) = Fin (inject_Z (TimeFromYear y)).
Proof.
  intros Hy%TimeFromYear_range. unfold newDate_value. simpl.
  rewrite Z.quot_1_r. by rewrite (proj2 (Z.leb_le _ _)).
Qed.

Lemma valueOf_yearDate (y : Z) : valueOf (yearDate y) = TimeFromYear y.
Proof. done. Qed.

(** The earliest and latest period of a non-empty data set. *)
Lemma dateRange_getPeriods (data : list TradeRecord) :
  valid_years 0 data → data ≠ [] →
  ∃ lo hi : Z,
    lo ∈ period <$> data ∧ hi ∈ period <$> data
    ∧ (∀ d, d ∈ data → lo ≤ period d ≤ hi)
    ∧ dateRange (getPeriods data)
      = (Fin (inject_Z (TimeFromYear lo)), Fin (inject_Z (TimeFromYear hi))).
Proof.
  intros Hv Hne. unfold dateRange.
  pose proof (elem_of_getPeriods data) as Hmem.
  destruct (getPeriods data) as [|p ps] eqn:Hps.
  { destruct data as [|d data]; [done|]. exfalso.
    eapply elem_of_nil, Hmem; [done|]. exists d. split; [by left|done]. }
  rewrite fmap_cons.
  destruct (Math_min_spec (inject_Z (valueOf p)) ((λ p, inject_Z (valueOf p)) <$> ps))
    as (tmin & -> & Hmin_in & Hmin).
  destruct (Math_max_spec (inject_Z (valueOf p)) ((λ p, inject_Z (valueOf p)) <$> ps))
    as (tmax & -> & Hmax_in & Hmax).
  change (inject_Z (valueOf p) :: ((λ p, inject_Z (valueOf p)) <$> ps))
    with ((λ p, inject_Z (valueOf p)) <$> p :: ps) in *.
  apply list_elem_of_fmap in Hmin_in as (pmin & -> & Hpmin).
  apply list_elem_of_fmap in Hmax_in as (pmax & -> & Hpmax).
  apply Hmem in Hpmin as (dlo & Hdlo & ->); [|done].
  apply Hmem in Hpmax as (dhi & Hdhi & ->); [|done].
  exists (period dlo), (period dhi). rewrite !valueOf_yearDate.
  split_and!; try (by apply list_elem_of_fmap_2).
  - intros d Hd.
    assert (yearDate (period d) ∈ p :: ps) as Hin by (apply Hmem; eauto).
    pose proof (Hmin _ (list_elem_of_fmap_2 (λ p, inject_Z (valueOf p)) _ _ Hin)) as H1.
    pose proof (Hmax _ (list_elem_of_fmap_2 (λ p, inject_Z (valueOf p)) _ _ Hin)) as H2.
    rewrite !valueOf_yearDate, <- Zle_Qle in H1, H2.
    split.
    + destruct (decide (period dlo ≤ period d)); [done|].
      pose proof (TimeFromYear_mono (period d) (period dlo)). lia.
    + destruct (decide (period d ≤ period dhi)); [done|].
      pose proof (TimeFromYear_mono (period dhi) (period d)). lia.
  - rewrite !newDate_value_year; [done|by apply Hv|by apply Hv].
Qed.

Lemma maxTradeValue_spec (data : list TradeRecord) (d : TradeRecord) :
  d ∈ data → ptCode d = world →
  ∃ m top, maxTradeValue data = Fin m
           ∧ top ∈ data ∧ ptCode top = world ∧ TradeValue top = m
           ∧ ∀ w, w ∈ data → ptCode w = world → (TradeValue w <= m)%Q.
Proof.
  intros Hd Hw. unfold maxTradeValue.
  assert (Hin : d ∈ filter (λ d, ptCode d = world) data)
    by (by apply list_elem_of_filter).
  pose proof (λ w, list_elem_of_filter (λ d, ptCode d = world) data w) as Hf.
  destruct (filter _ data) as [|x rest]; [by apply elem_of_nil in Hin|].
  rewrite fmap_cons.
  destruct (Math_max_spec (TradeValue x) (TradeValue <$> rest))
    as (m & -> & Hm_in & Hm).
  change (TradeValue x :: (TradeValue <$> rest))
    with (TradeValue <$> x :: rest) in *.
  apply list_elem_of_fmap in Hm_in as (top & -> & Htop).
  apply Hf in Htop as [Htw Htop].
  exists (TradeValue top), top. split_and!; try done.
  intros w Hwin Hww. apply Hm. apply list_elem_of_fmap_2, Hf. done.
Qed.

Section Scales.
Variable json : nat → URLSearchParams → option (list TradeRecord).

(** C9: the two scales are built from the first response (after
    deduplication): the time domain spans its earliest and latest period, the
    value domain runs from zero to its largest world trade value; every chart
    drawn during the run, the first one and the one after each batch, uses
    exactly these scales. *)
Theorem scales_fixed_by_initial_data HScode pg resp :
  json (length (requests pg))
       (params_of (mkRequest HScode (inr [world; canada]) (inl "all")))
  = Some resp →
  let sourceData := uniqueData resp in
  let X := mkScale (dateRange (getPeriods sourceData)) (40, 595) in
  let Y := mkScale (Fin 0, maxTradeValue sourceData) (230, 5) in
  (∃ new,
     renders (addComtradeData json HScode pg).2 = renders pg ++ new
     ∧ Forall (λ r, r_X r = X ∧ r_Y r = Y) new)
  ∧ (valid_years 0 sourceData → sourceData ≠ [] →
     ∃ lo hi : Z,
       lo ∈ period <$> sourceData ∧ hi ∈ period <$> sourceData
       ∧ (∀ d, d ∈ sourceData → lo ≤ period d ≤ hi)
       ∧ domain X
         = (Fin (inject_Z (TimeFromYear lo)), Fin (inject_Z (TimeFromYear hi))))
  ∧ (∀ d, d ∈ sourceData → ptCode d = world →
     ∃ m top,
       domain Y = (Fin 0, Fin m)
       ∧ top ∈ sourceData ∧ ptCode top = world ∧ TradeValue top = m
       ∧ ∀ w, w ∈ sourceData → ptCode w = world → (TradeValue w <= m)%Q).
Proof.
  intros Hresp sourceData X Y. split_and!.
  - unfold addComtradeData, mbind, M_bind, set_loading. cbn [fst snd].
    rewrite getAllDataFor_run. cbv zeta.
    cbn [console requests renders loading]. rewrite Hresp.
    fold sourceData.
    change (mkScale (dateRange (getPeriods sourceData)) _) with X.
    change (mkScale (Fin 0, maxTradeValue sourceData) _) with Y.
    set (pg1 := mkPage _ (_ ++ _) _ _).
    destruct (updateChart_frame sourceData X Y pg1)
      as (_ & _ & new1 & Hnew1 & Hall1 & _).
    assert (Hall1' : Forall (λ r, r_X r = X ∧ r_Y r = Y) new1).
    { eapply Forall_impl; [exact Hall1|]. naive_solver. }
    destruct (updateChart sourceData X Y pg1) as [[[]|e] pg2] eqn:Hrun;
      cbn [fst snd] in *.
    2:{ exists new1. by rewrite Hnew1. }
    rewrite getAllDataFor_run. cbv zeta.
    destruct (json (length (requests pg2)) _) as [newData|];
      cbn [fst snd renders].
    2:{ exists new1. by rewrite Hnew1. }
    rewrite rankingPass_run.
    destruct (world_record newData) as [w|]; cbn [fst snd renders].
    2:{ exists new1. by rewrite Hnew1. }
    set (pg3 := mkPage _ _ _ _).
    destruct (backfill_renders json HScode X Y
                (unqueriedPartners (TradeValue w) newData) sourceData pg3)
      as (new2 & Hnew2 & Hall2).
    exists (new1 ++ new2). split; [|by apply Forall_app].
    destruct (backfill _ _ _ _ _ pg3) as [[st|e] pg4]; cbn [fst snd renders] in *;
      rewrite Hnew2; subst pg3; cbn [renders]; by rewrite Hnew1, app_assoc.
  - intros Hv Hne. by apply dateRange_getPeriods.
  - intros d Hd Hw.
    destruct (maxTradeValue_spec sourceData d Hd Hw) as (m & top & Hm & Htop).
    exists m, top. simpl. by rewrite Hm.
Qed.

End Scales.

Lemma scales_fixed_by_initial_data_witness :
  let pg := mkPage [] [] [] false in
  let X := mkScale (Fin (inject_Z (TimeFromYear 2019)),
                    Fin (inject_Z (TimeFromYear 2020))) (40, 595) in
  let Y := mkScale (Fin 0, Fin 100) (230, 5) in
  let run := addComtradeData growing_service "0901" pg in
  run.1 = Ok ()
  ∧ length (renders run.2) = 2%nat
  ∧ (length ∘ r_data <$> renders run.2) = [4; 8]%nat
  ∧ ∃ new, renders run.2 = renders pg ++ new
           ∧ Forall (λ r, r_X r = X ∧ r_Y r = Y) new.
Proof.
  intros pg X Y run.
  split; [by vm_compute|]. split; [by vm_compute|]. split; [by vm_compute|].
  pose proof (scales_fixed_by_initial_data growing_service "0901" pg _ eq_refl)
    as (Hfix & _ & _).
  exact Hfix.
Defined.

(** ** Missing world records *)

Lemma updateChart_missing_world data X Y pg (y : Z) :
  y ∈ period <$> data → 1000 ≤ y ≤ 9999 →
  (∀ d, d ∈ data → period d = y → ptCode d ≠ world) →
  ∃ pg', updateChart data X Y pg = (Throw TypeError, pg')
         ∧ renders pg' = renders pg.
Proof.
  intros Hin Hy Hnw.
  destruct (updateChart_run_Throw data X Y (yearDate y) pg) as [ws Hws].
  - apply yearDate_in_getPeriods; [done|lia].
  - rewrite periodData_year by done. apply world_record_None.
    intros d [Hd Hdin]%list_elem_of_filter. by apply Hnw.
  - eauto.
Qed.

Lemma rankingPass_missing_world newData pg :
  (∀ d, d ∈ newData → ptCode d ≠ world) →
  rankingPass newData pg = (Throw TypeError, pg).
Proof.
  intros Hnw. by rewrite rankingPass_run, (proj2 (world_record_None newData)).
Qed.

Lemma addComtradeData_missing_world json HScode pg resp (y : Z) :
  json (length (requests pg))
       (params_of (mkRequest HScode (inr [world; canada]) (inl "all")))
  = Some resp →
  y ∈ period <$> uniqueData resp → 1000 ≤ y ≤ 9999 →
  (∀ d, d ∈ uniqueData resp → period d = y → ptCode d ≠ world) →
  (addComtradeData json HScode pg).1 = Throw TypeError.
Proof.
  intros Hresp Hin Hy Hnw.
  unfold addComtradeData, mbind, M_bind, set_loading. cbn [fst snd].
  rewrite getAllDataFor_run. cbv zeta.
  cbn [console requests renders loading]. rewrite Hresp.
  edestruct updateChart_missing_world as (pg' & -> & _); done.
Qed.

(** C5: a period without a world-aggregate record makes the world-trade
    lookup dereference [undefined]: [updateChart] throws a [TypeError] and
    draws nothing, the ranking pass throws on a response without a world
    record, and [addComtradeData] does not catch the exception. *)
Theorem missing_world_record_throws :
  (∀ data X Y pg (y : Z),
     y ∈ period <$> data → 1000 ≤ y ≤ 9999 →
     (∀ d, d ∈ data → period d = y → ptCode d ≠ world) →
     ∃ pg', updateChart data X Y pg = (Throw TypeError, pg')
            ∧ renders pg' = renders pg)
  ∧ (∀ newData pg,
       (∀ d, d ∈ newData → ptCode d ≠ world) →
       rankingPass newData pg = (Throw TypeError, pg))
  ∧ (∀ json HScode pg resp (y : Z),
       json (length (requests pg))
            (params_of (mkRequest HScode (inr [world; canada]) (inl "all")))
       = Some resp →
       y ∈ period <$> uniqueData resp → 1000 ≤ y ≤ 9999 →
       (∀ d, d ∈ uniqueData resp → period d = y → ptCode d ≠ world) →
       (addComtradeData json HScode pg).1 = Throw TypeError).
Proof.
  split_and!.
  - apply updateChart_missing_world.
  - apply rankingPass_missing_world.
  - apply addComtradeData_missing_world.
Qed.

Lemma missing_world_record_throws_witness :
  let data := [mkRecord 0 "World" 2019 90; mkRecord 124 "Canada" 2019 20;
               mkRecord 124 "Canada" 2020 30] in
  let pg := mkPage [] [] [] true in
  let X := mkScale (Fin 0, Fin 1) (40, 595) in
  let Y := mkScale (Fin 0, Fin 90) (230, 5) in
  (∃ pg', updateChart data X Y pg = (Throw TypeError, pg')
          ∧ renders pg' = renders pg)
  ∧ rankingPass [mkRecord 124 "Canada" 2020 30] pg = (Throw TypeError, pg)
  ∧ (addComtradeData (λ _ _, Some data) "0901" pg).1 = Throw TypeError.
Proof.
  split_and!.
  - apply (proj1 missing_world_record_throws _ _ _ _ 2020).
    + simpl. rewrite !elem_of_cons. tauto.
    + lia.
    + intros d Hd. each_record Hd; intros; (lia || done).
  - apply (proj1 (proj2 missing_world_record_throws)).
    intros d Hd. each_record Hd; done.
  - apply (proj2 (proj2 missing_world_record_throws) _ _ _ _ 2020 eq_refl).
    + change (uniqueData _) with
        [mkRecord 0 "World" 2019 90; mkRecord 124 "Canada" 2019 20;
         mkRecord 124 "Canada" 2020 30].
      simpl. rewrite !elem_of_cons. tauto.
    + lia.
    + change (uniqueData _) with
        [mkRecord 0 "World" 2019 90; mkRecord 124 "Canada" 2019 20;
         mkRecord 124 "Canada" 2020 30].
      intros d Hd. each_record Hd; intros; (lia || done).
Defined.

(** * Further properties *)

(** ** Merging responses *)

Lemma pairOf_uid (d1 d2 : TradeRecord) : pairOf d1 = pairOf d2 ↔ uid d1 = uid d2.
Proof.
  rewrite uid_inj. unfold pairOf. split; [by intros [= -> ->]|by intros [-> ->]].
Qed.

Lemma pairOf_elem_of (d : TradeRecord) (data : list TradeRecord) :
  pairOf d ∈ pairOf <$> data ↔ uid d ∈ uid <$> data.
Proof.
  rewrite !list_elem_of_fmap. split; intros (x & Hx & Hin); exists x;
    (split; [|done]); by apply pairOf_uid.
Qed.

Lemma NoDup_pairOf (data : list TradeRecord) :
  NoDup (pairOf <$> data) ↔ deduplicated data.
Proof.
  unfold deduplicated. induction data as [|d data IH]; simpl.
  { split; constructor. }
  rewrite !NoDup_cons, IH, pairOf_elem_of. done.
Qed.

Lemma uniqueData_map_union (S T : gset string) (data : list TradeRecord) :
  filter_defined (uniqueData_map (S ∪ T) data)
  = filter (λ d, uid d ∉ S) (filter_defined (uniqueData_map T data)).
Proof.
  revert T. induction data as [|d data IH]; intros T; [done|].
  unfold filter_defined in *. cbn [uniqueData_map].
  destruct (decide (uid d ∈ T)) as [HT|HT].
  - rewrite decide_True by set_solver. cbn [omap list_omap]. apply IH.
  - cbn [omap list_omap]. simpl. rewrite filter_cons.
    destruct (decide (uid d ∈ S)) as [HS|HS].
    + rewrite decide_True by set_solver. rewrite decide_False by tauto.
      cbn [omap list_omap]. rewrite <- IH. do 2 f_equal. set_solver.
    + rewrite decide_False by set_solver. rewrite decide_True by done.
      cbn [omap list_omap]. simpl. f_equal. rewrite <- IH. do 2 f_equal.
      set_solver.
Qed.

Lemma uniqueData_map_app (S : gset string) (l1 l2 : list TradeRecord) :
  filter_defined (uniqueData_map S (l1 ++ l2))
  = filter_defined (uniqueData_map S l1)
    ++ filter_defined (uniqueData_map (list_to_set (uid <$> l1) ∪ S) l2).
Proof.
  revert S. induction l1 as [|d l1 IH]; intros S.
  { simpl. do 2 f_equal. set_solver. }
  unfold filter_defined in *. cbn [uniqueData_map app].
  destruct (decide (uid d ∈ S)) as [HS|HS]; cbn [omap list_omap]; simpl.
  - rewrite IH. do 3 f_equal. set_solver.
  - rewrite IH. do 4 f_equal. set_solver.
Qed.

Lemma uniqueData_deduplicated_id (data : list TradeRecord) :
  deduplicated data → uniqueData data = data.
Proof.
  intros Hdd. apply uniqueData_map_fixed; [done|set_solver].
Qed.

Lemma uniqueData_app_uid (src new : list TradeRecord) :
  uniqueData (src ++ new)
  = uniqueData src ++ filter (λ d, uid d ∉ uid <$> src) (uniqueData new).
Proof.
  unfold uniqueData. rewrite uniqueData_map_app. f_equal.
  rewrite uniqueData_map_union. apply list_filter_iff. intros d.
  by rewrite elem_of_list_to_set.
Qed.

(** X1: deduplicating the concatenation of two record lists gives the
    deduplicated first list followed by those records of the deduplicated
    second list whose (partner code, period) pair does not occur in the first
    list: a record already held always wins over a record fetched later. *)
Theorem uniqueData_merge (src new : list TradeRecord) :
  uniqueData (src ++ new)
  = uniqueData src
    ++ filter (λ d, pairOf d ∉ pairOf <$> src) (uniqueData new).
Proof.
  rewrite uniqueData_app_uid. f_equal.
  apply list_filter_iff. intros d. by rewrite pairOf_elem_of.
Qed.

(** X2: [uniqueData] returns its input unchanged exactly when no two records
    of the input are about the same (partner code, period) pair. *)
Theorem uniqueData_identity_iff_distinct_pairs (data : list TradeRecord) :
  uniqueData data = data ↔ NoDup (pairOf <$> data).
Proof.
  rewrite NoDup_pairOf. split.
  - intros <-. apply uniqueData_deduplicated.
  - apply uniqueData_deduplicated_id.
Qed.

(** ** Periods of deduplicated data *)

Lemma foldl_Set_add_periods (S : gset string) (s : list Z)
    (data : list TradeRecord) :
  (∀ d, uid d ∈ S → period d ∈ s) →
  foldl Set_add s (period <$> filter_defined (uniqueData_map S data))
  = foldl Set_add s (period <$> data).
Proof.
  revert S s. induction data as [|d data IH]; intros S s Hinv; [done|].
  unfold filter_defined in *. cbn [uniqueData_map].
  destruct (decide (uid d ∈ S)) as [HS|HS]; cbn [omap list_omap]; simpl.
  - unfold Set_add at 3. rewrite decide_True by by apply Hinv.
    by apply IH.
  - apply IH. intros d' [Hd'|Hd']%elem_of_union.
    + apply elem_of_singleton, uid_inj in Hd' as [_ ->].
      apply elem_of_Set_add. by right.
    + apply elem_of_Set_add. left. by apply Hinv.
Qed.

(** X3: deduplication does not change the period axis: [getPeriods] gives
    the same dates, in the same order, for a record list and for its
    deduplicated version. *)
Theorem getPeriods_uniqueData (data : list TradeRecord) :
  getPeriods (uniqueData data) = getPeriods data.
Proof.
  unfold getPeriods, Set_new, uniqueData.
  rewrite foldl_Set_add_periods; [done|set_solver].
Qed.

(** ** Runs of the whole script *)

Lemma allTrade_Throw data partners periods pg e pg1 :
  allTrade data partners periods pg = (Throw e, pg1) →
  e = TypeError ∧ ∃ ws, pg1 = logged ws pg.
Proof.
  unfold allTrade. revert pg.
  induction periods as [|p periods IH]; intros pg; [done|].
  simpl. unfold mbind at 1, M_bind at 1. rewrite periodTrade_run.
  destruct (world_record _) as [r|].
  - unfold mbind at 1, M_bind at 1.
    destruct (mapM_ _ periods _) as [[rest|e2] pg2] eqn:Hrest; [done|].
    intros [= <- <-]. apply IH in Hrest as [-> [ws ->]].
    rewrite logged_app. eauto.
  - intros [= <- <-]. split; [done|]. exists []. by rewrite logged_nil.
Qed.

Lemma updateChart_Throw data X Y pg e pg' :
  updateChart data X Y pg = (Throw e, pg') →
  e = TypeError ∧ ∃ ws, pg' = logged ws pg.
Proof.
  unfold updateChart, mbind, M_bind.
  destruct (allTrade _ _ _ pg) as [[entries|e'] pg1] eqn:Hall; [done|].
  intros [= <- <-]. by apply allTrade_Throw in Hall.
Qed.

Section Runs.
Variable json : nat → URLSearchParams → option (list TradeRecord).

(** Rule induction over the [while] loop. *)
Lemma backfill_rules HScode X Y
    (P : list Z → list TradeRecord → Page
         → Result (list Z * list TradeRecord) * Page → Prop) :
  (∀ src pg, P [] src pg (Ok ([], src), pg)) →
  (∀ queue src pg,
     queue ≠ [] →
     let q := mkRequest HScode (inr (slice_last 5 queue)) (inl "all") in
     json (length (requests pg)) (params_of q) = None →
     P queue src pg
       (Throw NetworkError,
        mkPage (console pg) (requests pg ++ [q]) (renders pg) (loading pg))) →
  (∀ queue src pg newData e pg2,
     queue ≠ [] →
     let q := mkRequest HScode (inr (slice_last 5 queue)) (inl "all") in
     json (length (requests pg)) (params_of q) = Some newData →
     updateChart (uniqueData (src ++ newData)) X Y
       (mkPage (console pg) (requests pg ++ [q]) (renders pg) (loading pg))
     = (Throw e, pg2) →
     P queue src pg (Throw e, pg2)) →
  (∀ queue src pg newData pg2 r,
     queue ≠ [] →
     let q := mkRequest HScode (inr (slice_last 5 queue)) (inl "all") in
     json (length (requests pg)) (params_of q) = Some newData →
     updateChart (uniqueData (src ++ newData)) X Y
       (mkPage (console pg) (requests pg ++ [q]) (renders pg) (loading pg))
     = (Ok (), pg2) →
     P (slice_init 5 queue) (uniqueData (src ++ newData)) pg2 r →
     P queue src pg r) →
  ∀ queue src pg, P queue src pg (backfill json HScode X Y (queue, src) pg).
Proof.
  intros Hdone Hfail Hthrow Hstep queue.
  remember (length queue) as n eqn:Hn. revert queue Hn.
  induction (lt_wf n) as [n _ IH]; intros queue -> src pg.
  rewrite backfill_step.
  destruct (decide (0 < length queue)%nat) as [Hpos|Hzero].
  2:{ assert (queue = []) as -> by (destruct queue; simpl in *; [done|lia]).
      apply Hdone. }
  assert (queue ≠ []) as Hne by (intros ->; simpl in *; lia).
  unfold mbind, M_bind. rewrite getAllDataFor_run. cbv zeta.
  destruct (json _ _) as [newData|] eqn:Hjson; [|by apply Hfail].
  destruct (updateChart _ X Y _) as [[[]|e] pg2] eqn:Hrun.
  - eapply Hstep; [done..|]. eapply IH; [|done].
    unfold slice_init. rewrite length_take. lia.
  - by eapply Hthrow.
Qed.

(** The run of [addComtradeData], stage by stage. *)
Lemma addComtradeData_stages HScode pg :
  let q1 := mkRequest HScode (inr [world; canada]) (inl "all") in
  let pg1 := mkPage (console pg) (requests pg ++ [q1]) (renders pg) true in
  match json (length (requests pg)) (params_of q1) with
  | None => addComtradeData json HScode pg = (Throw NetworkError, pg1)
  | Some resp =>
      let sourceData := uniqueData resp in
      let X := mkScale (dateRange (getPeriods sourceData)) (40, 595) in
      let Y := mkScale (Fin 0, maxTradeValue sourceData) (230, 5) in
      match updateChart sourceData X Y pg1 with
      | (Throw e, pg2) => addComtradeData json HScode pg = (Throw e, pg2)
      | (Ok _, pg2) =>
          let q2 := mkRequest HScode (inl "all")
                      (inr (slice_last 1 (date2period <$> getPeriods sourceData))) in
          let pg3 := mkPage (console pg2) (requests pg2 ++ [q2]) (renders pg2)
                            (loading pg2) in
          match json (length (requests pg2)) (params_of q2) with
          | None => addComtradeData json HScode pg = (Throw NetworkError, pg3)
          | Some newData =>
              match world_record newData with
              | None => addComtradeData json HScode pg = (Throw TypeError, pg3)
              | Some w =>
                  match backfill json HScode X Y
                          (unqueriedPartners (TradeValue w) newData, sourceData)
                          pg3 with
                  | (Throw e, pg4) =>
                      addComtradeData json HScode pg = (Throw e, pg4)
                  | (Ok _, pg4) =>
                      addComtradeData json HScode pg
                      = (Ok (), mkPage (console pg4) (requests pg4) (renders pg4)
                                       false)
                  end
              end
          end
      end
  end.
Proof.
  intros q1 pg1.
  unfold addComtradeData, mbind, M_bind, set_loading. cbn [fst snd].
  rewrite getAllDataFor_run. cbv zeta.
  cbn [console requests renders loading]. fold q1 pg1.
  destruct (json _ (params_of q1)) as [resp|]; [|done].
  cbv zeta.
  change (0 + Margin.left margin, width - Margin.right margin) with (40, 595).
  change (height - Margin.bottom margin, 0 + Margin.top margin) with (230, 5).
  destruct (updateChart _ _ _ pg1) as [[[]|e] pg2]; [|done].
  rewrite getAllDataFor_run. cbv zeta.
  destruct (json (length (requests pg2)) _) as [newData|]; [|done].
  rewrite rankingPass_run.
  destruct (world_record newData) as [w|]; [|done].
  by destruct (backfill _ _ _ _ _ _) as [[st|e] pg4].
Qed.

Lemma backfill_loading HScode X Y queue src pg :
  loading (backfill json HScode X Y (queue, src) pg).2 = loading pg.
Proof.
  revert queue src pg.
  apply (backfill_rules HScode X Y (λ _ _ pg r, loading r.2 = loading pg));
    try done.
  - intros queue src pg newData e pg2 _ q _ Hrun.
    destruct (updateChart_frame (uniqueData (src ++ newData)) X Y
                (mkPage (console pg) (requests pg ++ [q]) (renders pg) (loading pg)))
      as (_ & Hl & _).
    by rewrite Hrun in Hl.
  - intros queue src pg newData pg2 r _ q _ Hrun ->.
    destruct (updateChart_frame (uniqueData (src ++ newData)) X Y
                (mkPage (console pg) (requests pg ++ [q]) (renders pg) (loading pg)))
      as (_ & Hl & _).
    by rewrite Hrun in Hl.
Qed.

(** X4: the "Loading..." paragraph is removed exactly when the run
    completes: after an exception (a failed request or a missing world
    record) it stays on the page. *)
Theorem loading_removed_iff_run_completes HScode pg :
  loading (addComtradeData json HScode pg).2
  = match (addComtradeData json HScode pg).1 with
    | Ok _ => false
    | Throw _ => true
    end.
Proof.
  pose proof (addComtradeData_stages HScode pg) as Hst. cbv zeta in Hst.
  destruct (json _ _) as [resp|]; [|by rewrite Hst].
  set (pg1 := mkPage _ (_ ++ _) _ true) in Hst.
  match type of Hst with
  | context [updateChart ?d ?X ?Y pg1] =>
      destruct (updateChart_frame d X Y pg1) as (_ & Hl1 & _);
      destruct (updateChart d X Y pg1) as [[[]|e] pg2]
  end; cbn [fst snd] in *; [|by rewrite Hst].
  destruct (json (length (requests pg2)) _) as [newData|]; [|by rewrite Hst].
  destruct (world_record newData) as [w|]; [|by rewrite Hst].
  match type of Hst with
  | context [backfill json HScode ?X ?Y (?q, ?s) ?p] =>
      pose proof (backfill_loading HScode X Y q s p) as Hl2;
      destruct (backfill json HScode X Y (q, s) p) as [[st|e] pg4]
  end; rewrite Hst; cbn [fst snd loading] in *; [done|].
  by rewrite Hl2.
Qed.

(** *** Requests *)

Lemma aborts_quiet {A} pg (r : Result A * Page) :
  requests r.2 = requests pg → r.1 ≠ Throw NetworkError →
  aborts_on_failure json pg r.
Proof.
  intros Hreq Hne. exists []. rewrite app_nil_r. split_and!; [done|done|done].
Qed.

Lemma aborts_trans {A B} pg (a : A) pg1 (r : Result B * Page) :
  aborts_on_failure json pg (Ok a, pg1) →
  aborts_on_failure json pg1 r →
  aborts_on_failure json pg r.
Proof.
  intros (new1 & Hreq1 & Hfail1 & _) (new2 & Hreq2 & Hfail2 & Hnet2).
  cbn [fst snd] in *.
  assert (Hlen : length (requests pg1)
                 = (length (requests pg) + length new1)%nat)
    by (by rewrite Hreq1, length_app).
  exists (new1 ++ new2). split_and!.
  - by rewrite Hreq2, Hreq1, app_assoc.
  - intros i q Hi Hq. apply lookup_app_Some in Hi as [Hi|[Hge Hi]].
    { by destruct (Hfail1 i q Hi Hq). }
    destruct (Hfail2 _ q Hi) as [Hr Hl].
    { rewrite Hlen. rewrite <- Hq. f_equal. lia. }
    split; [done|]. rewrite length_app. lia.
  - intros Hr. destruct (Hnet2 Hr) as (q & Hlast & Hq). exists q. split.
    + destruct new2 as [|x new2 _] using rev_ind; [done|].
      rewrite last_snoc in Hlast. by rewrite app_assoc, last_snoc.
    + rewrite <- Hq, Hlen, length_app. f_equal. lia.
Qed.

Lemma aborts_Throw {A B} pg e pg' :
  aborts_on_failure (A:=A) json pg (Throw e, pg') →
  aborts_on_failure (A:=B) json pg (Throw e, pg').
Proof.
  intros (new & Hreq & Hfail & Hnet). exists new. cbn [fst snd] in *.
  split_and!; [done| |].
  - intros i q Hi Hq. destruct (Hfail i q Hi Hq) as [[= ->] Hl]. done.
  - intros [= ->]. by apply Hnet.
Qed.

Lemma aborts_getAllDataFor HScode partners periods pg :
  aborts_on_failure json pg (getAllDataFor json HScode partners periods pg).
Proof.
  rewrite getAllDataFor_run. cbv zeta.
  exists [mkRequest HScode partners periods]. cbn [fst snd requests].
  split_and!; [done| |].
  - intros [|i] q Hi Hq; [|done]. injection Hi as <-.
    rewrite Nat.add_0_r in Hq. by rewrite Hq.
  - intros Hr. eexists. split; [done|]. simpl.
    replace (length (requests pg) + 1 - 1)%nat with (length (requests pg)) by lia.
    by destruct (json _ _).
Qed.

Lemma aborts_updateChart data X Y pg :
  aborts_on_failure json pg (updateChart data X Y pg).
Proof.
  apply aborts_quiet; [apply updateChart_frame|].
  destruct (updateChart data X Y pg) as [[[]|e] pg'] eqn:Hrun; [done|].
  apply updateChart_Throw in Hrun as [-> _]. done.
Qed.

Lemma aborts_backfill HScode X Y queue src pg :
  aborts_on_failure json pg (backfill json HScode X Y (queue, src) pg).
Proof.
  revert queue src pg.
  apply (backfill_rules HScode X Y
           (λ _ _ pg r, aborts_on_failure json pg r)).
  - intros src pg. by apply aborts_quiet.
  - intros queue src pg _ q Hq.
    pose proof (aborts_getAllDataFor HScode (inr (slice_last 5 queue))
                  (inl "all") pg) as Hab.
    rewrite getAllDataFor_run in Hab. cbv zeta in Hab. fold q in Hab.
    rewrite Hq in Hab. by eapply aborts_Throw.
  - intros queue src pg newData e pg2 _ q Hq Hrun.
    pose proof (aborts_getAllDataFor HScode (inr (slice_last 5 queue))
                  (inl "all") pg) as Hab.
    rewrite getAllDataFor_run in Hab. cbv zeta in Hab. fold q in Hab.
    rewrite Hq in Hab. eapply aborts_trans; [exact Hab|].
    apply (aborts_Throw (A:=())). rewrite <- Hrun. apply aborts_updateChart.
  - intros queue src pg newData pg2 r _ q Hq Hrun IH.
    pose proof (aborts_getAllDataFor HScode (inr (slice_last 5 queue))
                  (inl "all") pg) as Hab.
    rewrite getAllDataFor_run in Hab. cbv zeta in Hab. fold q in Hab.
    rewrite Hq in Hab. eapply aborts_trans; [exact Hab|].
    eapply aborts_trans; [|exact IH].
    rewrite <- Hrun. apply aborts_updateChart.
Qed.

(** X5: the script does not catch a failed request.  Of the requests a run
    sends, one that gets no answer is the last: the run ends there with a
    [NetworkError]; and a run ends with [NetworkError] only when the last
    request it sent got no answer. *)
Theorem failed_request_ends_the_run HScode pg :
  let run := addComtradeData json HScode pg in
  let n := length (requests pg) in
  ∃ new,
    requests run.2 = requests pg ++ new
    ∧ (∀ i q, new !! i = Some q → json (n + i)%nat (params_of q) = None →
         run.1 = Throw NetworkError ∧ length new = S i)
    ∧ (run.1 = Throw NetworkError →
       ∃ q, last new = Some q
            ∧ json (n + length new - 1)%nat (params_of q) = None).
Proof.
  cbv zeta. change (aborts_on_failure json pg (addComtradeData json HScode pg)).
  pose proof (addComtradeData_stages HScode pg) as Hst. cbv zeta in Hst.
  set (q1 := mkRequest HScode (inr [world; canada]) (inl "all")) in *.
  set (pg0 := mkPage (console pg) (requests pg) (renders pg) true).
  assert (Hpg0 : ∀ B (r : Result B * Page),
            aborts_on_failure json pg0 r → aborts_on_failure json pg r)
    by done.
  pose proof (aborts_getAllDataFor HScode (inr [world; canada]) (inl "all") pg0)
    as Hab1.
  rewrite getAllDataFor_run in Hab1. cbv zeta in Hab1.
  cbn [console requests renders loading pg0] in Hab1. fold q1 in Hab1.
  destruct (json _ (params_of q1)) as [resp|].
  2:{ rewrite Hst. apply Hpg0. by eapply aborts_Throw. }
  set (pg1 := mkPage _ (_ ++ _) _ true) in *.
  match type of Hst with
  | context [updateChart ?d ?X ?Y pg1] =>
      pose proof (aborts_updateChart d X Y pg1) as Hab2;
      destruct (updateChart d X Y pg1) as [[[]|e] pg2]
  end.
  2:{ rewrite Hst. apply Hpg0. by eapply aborts_trans. }
  match type of Hst with
  | context [json (length (requests pg2)) (params_of ?q)] =>
      pose proof (aborts_getAllDataFor HScode (q_partners q) (q_periods q) pg2)
        as Hab3;
      rewrite getAllDataFor_run in Hab3; cbv zeta in Hab3;
      cbn [q_partners q_periods] in Hab3
  end.
  destruct (json (length (requests pg2)) _) as [newData|].
  2:{ rewrite Hst. apply Hpg0.
      eapply aborts_trans; [exact Hab1|]. eapply aborts_trans; [exact Hab2|].
      by eapply aborts_Throw. }
  set (pg3 := mkPage _ (requests pg2 ++ _) _ _) in *.
  assert (Hab3' : ∀ B (r : Result B * Page),
            aborts_on_failure json pg3 r → aborts_on_failure json pg r).
  { intros B r Hr. apply Hpg0. eapply aborts_trans; [exact Hab1|].
    eapply aborts_trans; [exact Hab2|]. by eapply aborts_trans. }
  destruct (world_record newData) as [w|].
  2:{ rewrite Hst. apply Hab3'. by apply aborts_quiet. }
  match type of Hst with
  | context [backfill json HScode ?X ?Y (?q, ?s) pg3] =>
      pose proof (aborts_backfill HScode X Y q s pg3) as Hab4;
      destruct (backfill json HScode X Y (q, s) pg3) as [[st|e] pg4]
  end; rewrite Hst.
  - apply Hab3'. eapply aborts_trans; [exact Hab4|]. by apply aborts_quiet.
  - apply Hab3'. by eapply aborts_Throw.
Qed.

End Runs.

(** *** Charts *)

Lemma updateChart_Ok data X Y pg pg' :
  updateChart data X Y pg = (Ok (), pg') →
  ∃ r, renders pg' = renders pg ++ [r] ∧ r_data r = data ∧ chart_of r.
Proof.
  intros (entries & ws & -> & _)%updateChart_inv.
  eexists. split; [done|]. split; [done|]. by exists entries.
Qed.

Lemma updateChart_Throw_renders data X Y pg e pg' :
  updateChart data X Y pg = (Throw e, pg') → renders pg' = renders pg.
Proof. by intros [_ [ws ->]]%updateChart_Throw. Qed.

Lemma batch_count_step (queue : list Z) :
  queue ≠ [] →
  batch_count (length queue) = S (batch_count (length (slice_init 5 queue))).
Proof.
  intros Hne. symmetry. apply batch_count_unique.
  pose proof (batch_count_spec (length (slice_init 5 queue))) as Hc.
  unfold slice_init in *. rewrite length_take in *.
  destruct queue; [done|]. simpl in *. lia.
Qed.

Section Completed.
Variable json : nat → URLSearchParams → option (list TradeRecord).

Lemma backfill_charts HScode X Y queue src pg st pg' :
  backfill json HScode X Y (queue, src) pg = (Ok st, pg') →
  length (renders pg')
  = (length (renders pg) + batch_count (length queue))%nat.
Proof.
  revert queue src pg st pg'.
  apply (backfill_rules json HScode X Y
           (λ queue _ pg r, ∀ st pg', r = (Ok st, pg') →
              length (renders pg')
              = (length (renders pg) + batch_count (length queue))%nat));
    try done.
  - intros src pg st pg' [= _ <-].
    change (batch_count (length (@nil Z))) with 0%nat. lia.
  - intros queue src pg newData pg2 r Hne q _ Hrun IH st pg' ->.
    rewrite (IH _ _ eq_refl), (batch_count_step queue Hne).
    apply updateChart_Ok in Hrun as (r & -> & _). rewrite length_app. simpl. lia.
Qed.

(** X6: a run that completes has sent the request for the world and
    Canada over all periods, then the ranking request for all partners in the
    last period of the first response, then one request per batch of the
    queue the ranking response gives, and nothing else; it has drawn one
    chart for the first response and one after each batch. *)
Theorem requests_and_charts_of_a_completed_run HScode pg :
  (addComtradeData json HScode pg).1 = Ok () →
  ∃ resp ranking w,
    let n := length (requests pg) in
    let q1 := mkRequest HScode (inr [world; canada]) (inl "all") in
    let q2 := mkRequest HScode (inl "all")
                (inr (slice_last 1
                        (date2period <$> getPeriods (uniqueData resp)))) in
    let queue := unqueriedPartners (TradeValue w) ranking in
    let batches := batch_count (length queue) in
    json n (params_of q1) = Some resp
    ∧ json (S n) (params_of q2) = Some ranking
    ∧ world_record ranking = Some w
    ∧ requests (addComtradeData json HScode pg).2
      = requests pg ++ [q1; q2] ++ (batch_request HScode queue <$> seq 0 batches)
    ∧ length (renders (addComtradeData json HScode pg).2)
      = (length (renders pg) + 1 + batches)%nat.
Proof.
  intros Hok.
  pose proof (addComtradeData_stages json HScode pg) as Hst. cbv zeta in Hst.
  destruct (json _ _) as [resp|] eqn:Hq1; [|by rewrite Hst in Hok].
  set (pg1 := mkPage _ (_ ++ _) _ true) in Hst.
  match type of Hst with
  | context [updateChart ?d ?X ?Y pg1] =>
      destruct (updateChart_frame d X Y pg1) as (Hreq1 & _);
      destruct (updateChart d X Y pg1) as [[[]|e] pg2] eqn:Hrun
  end; [|by rewrite Hst in Hok].
  cbn [fst snd] in Hreq1.
  apply updateChart_Ok in Hrun as (r1 & Hr1 & _).
  assert (Hlen : length (requests pg2) = S (length (requests pg)))
    by (rewrite Hreq1; subst pg1; cbn [requests]; rewrite length_app; simpl; lia).
  destruct (json (length (requests pg2)) _) as [ranking|] eqn:Hq2;
    [|by rewrite Hst in Hok].
  destruct (world_record ranking) as [w|] eqn:Hw; [|by rewrite Hst in Hok].
  exists resp, ranking, w. cbv zeta. rewrite <- Hlen.
  split; [done|]. split; [done|]. split; [done|].
  set (pg3 := mkPage _ (requests pg2 ++ _) _ _) in Hst.
  match type of Hst with
  | context [backfill json HScode ?X ?Y (?q, ?s) pg3] =>
      destruct (backfill_trace json HScode X Y q s pg3) as (k & _ & _ & Hreqs & Hk);
      pose proof (backfill_charts HScode X Y q s pg3) as Hcharts;
      destruct (backfill json HScode X Y (q, s) pg3) as [[st|e] pg4]
  end; rewrite Hst in Hok |- *; [|done].
  cbn [fst snd requests renders] in *.
  destruct (Hk st eq_refl) as [_ ->].
  rewrite (Hcharts _ _ eq_refl), Hreqs. subst pg3. cbn [requests renders].
  rewrite Hreq1, Hr1. subst pg1. cbn [requests renders].
  rewrite length_app, <- !app_assoc. done.
Qed.

End Completed.

Lemma requests_and_charts_of_a_completed_run_witness :
  let pg := mkPage [] [] [] false in
  let run := addComtradeData growing_service "0901" pg in
  requests run.2
  = [mkRequest "0901" (inr [0; 124]) (inl "all");
     mkRequest "0901" (inl "all") (inr ["2020"]);
     mkRequest "0901" (inr [124; 36]) (inl "all")]
  ∧ ∃ resp ranking w,
      growing_service 0 (params_of (mkRequest "0901" (inr [world; canada]) (inl "all")))
      = Some resp
      ∧ world_record ranking = Some w
      ∧ length (renders run.2)
        = (0 + 1 + batch_count (length (unqueriedPartners (TradeValue w) ranking)))%nat.
Proof.
  intros pg run. split; [vm_compute; reflexivity|].
  destruct (requests_and_charts_of_a_completed_run growing_service "0901" pg)
    as (resp & ranking & w & H1 & _ & Hw & _ & Hcharts);
    [vm_compute; reflexivity|].
  exists resp, ranking, w. split_and!; [exact H1|exact Hw|exact Hcharts].
Defined.

(** *** The ranking request *)

Lemma slice_last_1 {A} (l : list A) (x : A) :
  last l = Some x → slice_last 1 l = [x].
Proof.
  destruct l as [|y l _] using rev_ind; [done|].
  rewrite last_snoc. intros [= ->]. unfold slice_last.
  rewrite length_app. simpl.
  replace (length l + 1 - 1)%nat with (length l) by lia.
  by rewrite drop_app_length.
Qed.

Lemma StronglySorted_last {A} (R : relation A) `{!Reflexive R} (l : list A) x :
  StronglySorted R l → last l = Some x → ∀ y, y ∈ l → R y x.
Proof.
  induction 1 as [|z l Hl IH Hz]; [done|].
  intros Hlast y Hy. destruct l as [|z' l'].
  - injection Hlast as <-. by apply list_elem_of_singleton in Hy as ->.
  - change (last (z :: z' :: l')) with (last (z' :: l')) in Hlast.
    apply elem_of_cons in Hy as [->|Hy]; [|by apply IH].
    rewrite Forall_forall in Hz. apply Hz. by eapply last_Some_elem_of.
Qed.

#[global] Instance date_cmp_le_refl : Reflexive date_cmp_le.
Proof. intros a. unfold date_cmp_le. lia. Qed.

Lemma date2period_yearDate (y : Z) :
  1000 ≤ y ≤ 9999 → date2period (yearDate y) = toString y.
Proof.
  intros Hy. unfold yearDate. rewrite <- (period2date_toString y) by lia.
  by apply date2period_period2date.
Qed.

(** X7: for records with four-digit years, the period list of the ranking
    request is the single latest year of the data, printed in decimal. *)
Theorem ranking_request_names_latest_year HScode (data : list TradeRecord) :
  valid_years 1000 data → data ≠ [] →
  ∃ hi : Z,
    hi ∈ period <$> data
    ∧ (∀ d, d ∈ data → period d ≤ hi)
    ∧ p_ps (params_of
              (mkRequest HScode (inl "all")
                 (inr (slice_last 1 (date2period <$> getPeriods data)))))
      = toString hi.
Proof.
  intros Hv Hne.
  assert (Hv0 : valid_years 0 data).
  { intros d Hd. specialize (Hv d Hd). lia. }
  pose proof (elem_of_getPeriods data) as Hmem.
  destruct (last (getPeriods data)) as [p|] eqn:Hlast.
  2:{ apply last_None in Hlast. destruct data as [|d data]; [done|].
      exfalso. eapply elem_of_nil. rewrite <- Hlast. apply Hmem; [done|].
      exists d. split; [by left|done]. }
  pose proof (last_Some_elem_of _ _ Hlast) as Hp.
  apply Hmem in Hp as (dhi & Hdhi & ->); [|done].
  exists (period dhi). split_and!.
  - by apply list_elem_of_fmap_2.
  - intros d Hd.
    assert (date_cmp_le (yearDate (period d)) (yearDate (period dhi))) as Hle.
    { eapply (StronglySorted_last date_cmp_le); [|done|].
      - apply StronglySorted_merge_sort; apply _.
      - apply Hmem; eauto. }
    unfold date_cmp_le in Hle. rewrite !valueOf_yearDate in Hle.
    destruct (decide (period d ≤ period dhi)); [done|].
    pose proof (TimeFromYear_mono (period dhi) (period d)). lia.
  - cbn [params_of p_ps q_periods].
    rewrite (slice_last_1 _ (date2period (yearDate (period dhi)))).
    + simpl. apply date2period_yearDate, Hv, Hdhi.
    + by rewrite fmap_last, Hlast.
Qed.

Lemma ranking_request_names_latest_year_witness :
  ∃ hi : Z,
    hi ∈ [2020; 2019; 2021]
    ∧ p_ps (params_of
              (mkRequest "0901" (inl "all")
                 (inr (slice_last 1
                         (date2period <$>
                            getPeriods [mkRecord 0 "World" 2020 100;
                                        mkRecord 124 "Canada" 2019 20;
                                        mkRecord 0 "World" 2021 90])))))
      = toString hi.
Proof.
  destruct (ranking_request_names_latest_year "0901"
              [mkRecord 0 "World" 2020 100; mkRecord 124 "Canada" 2019 20;
               mkRecord 0 "World" 2021 90])
    as (hi & Hin & _ & Hps).
  - intros d Hd. each_record Hd; lia.
  - discriminate.
  - exists hi. split; [exact Hin|exact Hps].
Defined.

(** *** Growth of the data *)

Lemma uniqueData_extends (src new : list TradeRecord) :
  deduplicated src → src `prefix_of` uniqueData (src ++ new).
Proof.
  intros Hdd. rewrite uniqueData_app_uid, (uniqueData_deduplicated_id src Hdd).
  by eexists.
Qed.

Lemma growing_Forall data rs :
  growing data rs → Forall (λ r, deduplicated (r_data r) ∧ chart_of r) rs.
Proof.
  revert data. induction rs as [|r rs IH]; intros data; [constructor|].
  intros (_ & ? & ? & ?). constructor; [done|]. by eapply IH.
Qed.

Lemma growing_consecutive data rs i r1 r2 :
  growing data rs → rs !! i = Some r1 → rs !! S i = Some r2 →
  r_data r1 `prefix_of` r_data r2.
Proof.
  revert data i. induction rs as [|r rs IH]; intros data i; [done|].
  intros (_ & _ & _ & Hrest). destruct i as [|i].
  - intros [= <-]. destruct rs as [|r' rs]; [done|]. intros [= <-].
    by destruct Hrest.
  - intros H1 H2. by eapply IH.
Qed.

Section Growth.
Variable json : nat → URLSearchParams → option (list TradeRecord).

Lemma backfill_growing HScode X Y queue src pg :
  deduplicated src →
  ∃ new,
    renders (backfill json HScode X Y (queue, src) pg).2 = renders pg ++ new
    ∧ growing src new.
Proof.
  revert queue src pg.
  apply (backfill_rules json HScode X Y
           (λ _ src pg r, deduplicated src →
              ∃ new, renders r.2 = renders pg ++ new ∧ growing src new)).
  - intros src pg _. exists []. by rewrite app_nil_r.
  - intros queue src pg _ q _ _. exists []. by rewrite app_nil_r.
  - intros queue src pg newData e pg2 _ q _ Hrun _.
    apply updateChart_Throw_renders in Hrun. exists []. cbn [snd].
    by rewrite app_nil_r, Hrun.
  - intros queue src pg newData pg2 r _ q _ Hrun IH Hdd.
    apply updateChart_Ok in Hrun as (r1 & Hr1 & Hdata & Hchart).
    destruct IH as (new & Hnew & Hgrow); [apply uniqueData_deduplicated|].
    exists (r1 :: new). split.
    + rewrite Hnew, Hr1. cbn [renders]. by rewrite <- app_assoc.
    + cbn [growing]. rewrite Hdata. split_and!; try done.
      * by apply uniqueData_extends.
      * apply uniqueData_deduplicated.
Qed.

Lemma addComtradeData_growing HScode pg :
  ∃ new,
    renders (addComtradeData json HScode pg).2 = renders pg ++ new
    ∧ growing [] new.
Proof.
  pose proof (addComtradeData_stages json HScode pg) as Hst. cbv zeta in Hst.
  destruct (json _ _) as [resp|].
  2:{ rewrite Hst. exists []. by rewrite app_nil_r. }
  set (pg1 := mkPage _ (_ ++ _) _ true) in Hst.
  match type of Hst with
  | context [updateChart ?d ?X ?Y pg1] =>
      destruct (updateChart d X Y pg1) as [[[]|e] pg2] eqn:Hrun
  end.
  2:{ rewrite Hst. apply updateChart_Throw_renders in Hrun.
      exists []. cbn [snd]. by rewrite app_nil_r, Hrun. }
  apply updateChart_Ok in Hrun as (r1 & Hr1 & Hdata & Hchart).
  assert (Hone : growing [] [r1]).
  { cbn [growing]. rewrite Hdata. split_and!; try done.
    - apply prefix_nil.
    - apply uniqueData_deduplicated. }
  destruct (json (length (requests pg2)) _) as [newData|].
  2:{ rewrite Hst. by exists [r1]. }
  destruct (world_record newData) as [w|].
  2:{ rewrite Hst. by exists [r1]. }
  set (pg3 := mkPage _ (requests pg2 ++ _) _ _) in Hst.
  match type of Hst with
  | context [backfill json HScode ?X ?Y (?q, ?s) pg3] =>
      destruct (backfill_growing HScode X Y q s pg3) as (new & Hnew & Hgrow);
        [apply uniqueData_deduplicated|];
      destruct (backfill json HScode X Y (q, s) pg3) as [[st|e] pg4]
  end; rewrite Hst; cbn [fst snd renders] in *;
    (exists (r1 :: new); split;
     [rewrite Hnew; subst pg3; cbn [renders]; by rewrite Hr1, <- app_assoc|];
     cbn [growing] in *; rewrite Hdata in *; by destruct Hone as (? & ? & ? & _)).
Qed.

(** X8: during a run the data only grows.  Every chart is drawn from
    records with pairwise distinct (partner code, period) pairs, and the
    records of a chart are, unchanged and in the same order, the first
    records of the chart drawn after it. *)
Theorem redraws_extend_the_data HScode pg :
  ∃ new,
    renders (addComtradeData json HScode pg).2 = renders pg ++ new
    ∧ Forall (λ r, NoDup (pairOf <$> r_data r)) new
    ∧ ∀ i r1 r2, new !! i = Some r1 → new !! S i = Some r2 →
        r_data r1 `prefix_of` r_data r2.
Proof.
  destruct (addComtradeData_growing HScode pg) as (new & Hnew & Hgrow).
  exists new. split_and!; [done| |].
  - eapply Forall_impl; [by eapply growing_Forall|].
    intros r [Hdd _]. by apply NoDup_pairOf.
  - intros i r1 r2. by eapply growing_consecutive.
Qed.

End Growth.

(** *** Stack keys across redraws *)

Lemma offsetNone_from_keys (s0 : list Point) (sz : list Series) :
  key <$> offsetNone_from s0 sz = key <$> sz
  ∧ index <$> offsetNone_from s0 sz = index <$> sz.
Proof.
  revert s0. induction sz as [|s sz IH]; intros s0; [done|].
  cbn [offsetNone_from]. rewrite !fmap_cons. cbn [key index].
  by destruct (IH (zip_with stack_on s0 (points s))) as [-> ->].
Qed.

Lemma imap_stackSeries_keys (data : list Datum) (f : nat → nat) (ks : list string) :
  key <$> imap (λ j, stackSeries data (f j)) ks = ks
  ∧ index <$> imap (λ j, stackSeries data (f j)) ks = f <$> seq 0 (length ks).
Proof.
  revert f. induction ks as [|k ks IH]; intros f; [done|].
  cbn [imap length seq]. rewrite !fmap_cons. cbn [key index stackSeries].
  destruct (IH (f ∘ S)) as [Hk Hi]. split; f_equal; [done|].
  rewrite <- fmap_S_seq, <- list_fmap_compose. done.
Qed.

(** The stack returns one series per key, in key order, whatever the
    values are. *)
Lemma stack_keys (g : StackGen) (data : list Datum) :
  key <$> stack g data = keys g
  ∧ index <$> stack g data = seq 0 (length (keys g)).
Proof.
  unfold stack, apply_offset. destruct (D3Shape.order g), (D3Shape.offset g).
  destruct (imap_stackSeries_keys data id (keys g)) as [Hk Hi].
  rewrite list_fmap_id in Hi.
  change (imap (λ j, stackSeries data (id j)) (keys g))
    with (imap (stackSeries data) (keys g)) in *.
  destruct (imap (stackSeries data) (keys g)) as [|s sz]; [done|].
  rewrite !fmap_cons in *.
  destruct (offsetNone_from_keys (points s) sz) as [-> ->]. done.
Qed.

Lemma Set_new_app {A} `{EqDecision A} (xs ys : list A) :
  Set_new xs `prefix_of` Set_new (xs ++ ys).
Proof.
  unfold Set_new. rewrite foldl_app.
  rewrite (foldl_Set_add_first_occurrences ys). by eexists.
Qed.

Lemma chartPartners_prefix (data1 data2 : list TradeRecord) :
  data1 `prefix_of` data2 → chartPartners data1 `prefix_of` chartPartners data2.
Proof.
  intros [rest ->]. unfold chartPartners, Set_delete. rewrite fmap_app.
  destruct (Set_new_app (ptTitle <$> data1) (ptTitle <$> rest)) as [more ->].
  rewrite filter_app. by eexists.
Qed.

Lemma Set_add_lookup (s : list string) (x k : string) (j : nat) :
  k ≠ x → Set_add s x !! j = Some k ↔ s !! j = Some k.
Proof.
  intros Hne. unfold Set_add. case_decide; [done|]. split.
  - intros [Hj|[Hge Hj]]%lookup_app_Some; [done|].
    apply list_lookup_singleton_Some in Hj as [_ ->]. done.
  - intros Hj. by apply lookup_app_l_Some.
Qed.

Lemma chart_of_keys (r : Render) :
  chart_of r →
  key <$> r_series r = Set_add (chartPartners (r_data r)) "Other"
  ∧ index <$> r_series r = seq 0 (length (r_series r)).
Proof.
  intros [entries Hr].
  destruct (stack_keys (stackGen (chartPartners (r_data r))) entries) as [Hk Hi].
  rewrite <- Hr in Hk, Hi. split; [done|].
  rewrite Hi, <- Hk. by rewrite length_fmap.
Qed.

Lemma growing_keys_stable data rs i r1 r2 j (k : string) :
  growing data rs → rs !! i = Some r1 → rs !! S i = Some r2 → k ≠ "Other" →
  (key <$> r_series r1) !! j = Some k → (key <$> r_series r2) !! j = Some k.
Proof.
  intros Hgrow H1 H2 Hk Hj.
  pose proof (growing_Forall _ _ Hgrow) as Hall. rewrite Forall_forall in Hall.
  destruct (Hall r1 (list_elem_of_lookup_2 _ _ _ H1)) as [_ [Hk1 _]%chart_of_keys].
  destruct (Hall r2 (list_elem_of_lookup_2 _ _ _ H2)) as [_ [Hk2 _]%chart_of_keys].
  rewrite Hk1 in Hj. rewrite Hk2.
  apply Set_add_lookup in Hj; [|done]. apply Set_add_lookup; [done|].
  eapply prefix_lookup_Some; [exact Hj|].
  apply chartPartners_prefix. by eapply growing_consecutive.
Qed.

Section Keys.
Variable json : nat → URLSearchParams → option (list TradeRecord).

(** X9: every chart of a run has one series per partner title of its
    data, in order of first appearance and without "World", then "Other" (if
    no partner has that title), numbered from 0.  From one chart to the next
    a partner's series keeps its place in the stack: only "Other" moves, and
    new partners come after the ones already there. *)
Theorem partner_series_keep_their_place HScode pg :
  ∃ new,
    renders (addComtradeData json HScode pg).2 = renders pg ++ new
    ∧ Forall (λ r,
        key <$> r_series r = Set_add (chartPartners (r_data r)) "Other"
        ∧ index <$> r_series r = seq 0 (length (r_series r))) new
    ∧ ∀ i r1 r2 j k,
        new !! i = Some r1 → new !! S i = Some r2 → k ≠ "Other" →
        (key <$> r_series r1) !! j = Some k →
        (key <$> r_series r2) !! j = Some k.
Proof.
  destruct (addComtradeData_growing json HScode pg) as (new & Hnew & Hgrow).
  pose proof (growing_Forall _ _ Hgrow) as Hall.
  exists new. split_and!; [done| |].
  - eapply Forall_impl; [exact Hall|]. intros r [_ Hc]. by apply chart_of_keys.
  - intros i r1 r2 j k. by eapply growing_keys_stable.
Qed.

End Keys.

(** ** Band colours *)

Lemma assigned_prefix (dom dom' : list nat) (d : nat) (c : string) :
  assigned dom d = Some c → dom `prefix_of` dom' → assigned dom' d = Some c.
Proof.
  unfold assigned. intros Ha [more ->].
  destruct (list_find _ dom) as [[i x]|] eqn:Hfind; [|done].
  assert (list_find (λ x, x = d) (dom ++ more) = Some (i, x)) as ->; [|done].
  apply list_find_app_Some. by left.
Qed.

Lemma colors_spec (d : nat) (dom : list nat) :
  dom `prefix_of` (colors d dom).2
  ∧ assigned (colors d dom).2 d = Some (colors d dom).1
  ∧ (colors d dom).1 ∈ schemeAccent.
Proof.
  assert (Hpal : ∀ n, schemeAccent !!! (n mod length schemeAccent)%nat
                      ∈ schemeAccent).
  { intros n. apply list_elem_of_lookup_total_2, Nat.mod_upper_bound. done. }
  unfold colors, assigned.
  destruct (list_find _ dom) as [[i x]|] eqn:Hfind; cbn [fst snd].
  - rewrite Hfind. done.
  - split; [by eexists|]. split; [|done].
    assert (list_find (λ x, x = d) (dom ++ [d]) = Some (length dom, d)) as ->;
      [|done].
    apply list_find_app_Some. right. split; [done|]. split; [done|].
    rewrite Nat.sub_diag. simpl. by rewrite decide_True.
Qed.

Lemma fill_spec (s : Series) (i : nat) (dom : list nat) :
  dom `prefix_of` (fill s i dom).2
  ∧ (key s = "Canada" → (fill s i dom).1 = "red")
  ∧ (key s = "Other" → (fill s i dom).1 = "grey")
  ∧ (ordinary s → assigned (fill s i dom).2 i = Some (fill s i dom).1
                  ∧ (fill s i dom).1 ∈ schemeAccent).
Proof.
  unfold fill, ordinary.
  destruct (decide (key s = "Canada")) as [Hc|Hc].
  { cbn [fst snd]. split_and!; try done; [by rewrite Hc|tauto]. }
  destruct (decide (key s = "Other")) as [Ho|Ho].
  { cbn [fst snd]. split_and!; try done. tauto. }
  destruct (colors_spec i dom) as (? & ? & ?). split_and!; done.
Qed.

Lemma attr_fill_spec (i : nat) (nodes : list PathNode) (dom : list nat) :
  dom `prefix_of` (attr_fill i nodes dom).2
  ∧ Forall2 (λ n n',
       node_data n' = node_data n ∧ node_titles n' = node_titles n)
      nodes (attr_fill i nodes dom).1
  ∧ ∀ j n', (attr_fill i nodes dom).1 !! j = Some n' →
      ∃ c, node_fill n' = Some c
           ∧ (key (node_data n') = "Canada" → c = "red")
           ∧ (key (node_data n') = "Other" → c = "grey")
           ∧ (ordinary (node_data n') →
              assigned (attr_fill i nodes dom).2 (i + j) = Some c
              ∧ c ∈ schemeAccent).
Proof.
  revert i dom. induction nodes as [|n nodes IH]; intros i dom.
  { cbn [attr_fill fst snd]. split_and!; [done|constructor|done]. }
  cbn [attr_fill].
  destruct (fill_spec (node_data n) i dom) as (Hp1 & Hcan & Hoth & Hord).
  destruct (fill (node_data n) i dom) as [c dom1]. cbn [fst snd] in *.
  destruct (IH (S i) dom1) as (Hp2 & Hall & Hfill).
  destruct (attr_fill (S i) nodes dom1) as [ns dom2]. cbn [fst snd] in *.
  split_and!.
  - by etrans.
  - by constructor.
  - intros [|j] n' Hn'.
    + injection Hn' as <-. cbn [node_data node_fill]. exists c.
      split_and!; try done. intros Ho. destruct (Hord Ho) as [Ha Hin].
      split; [|done]. rewrite Nat.add_0_r. by eapply assigned_prefix.
    + destruct (Hfill j n' Hn') as (c' & ? & ? & ? & Ho). exists c'.
      split_and!; try done. by rewrite <- Nat.add_succ_comm.
Qed.

(** ** The path join *)

Lemma join_path_data (group : list PathNode) (series : list Series) :
  node_data <$> join_path group series = series.
Proof.
  revert group. induction series as [|d series IH]; intros group; [done|].
  cbn [join_path]. destruct (list_find _ group) as [[i n]|];
    rewrite fmap_cons; cbn [node_data]; by rewrite IH.
Qed.

(** What one redraw leaves in [g#dataSpace]. *)
Lemma drawPaths_spec (group : list PathNode) (series : list Series)
    (dom : list nat) :
  dom `prefix_of` (drawPaths group series dom).2
  ∧ node_data <$> (drawPaths group series dom).1 = series
  ∧ ∀ j n, (drawPaths group series dom).1 !! j = Some n →
      ∃ c, node_fill n = Some c
           ∧ (key (node_data n) = "Canada" → c = "red")
           ∧ (key (node_data n) = "Other" → c = "grey")
           ∧ (ordinary (node_data n) →
              assigned (drawPaths group series dom).2 j = Some c
              ∧ c ∈ schemeAccent).
Proof.
  unfold drawPaths.
  destruct (attr_fill_spec 0 (join_path group series) dom)
    as (Hp & Hall & Hfill).
  destruct (attr_fill 0 (join_path group series) dom) as [nodes dom'].
  cbn [fst snd] in *. split_and!; [done| |].
  - rewrite <- (join_path_data group series). unfold append_title.
    rewrite <- list_fmap_compose. symmetry.
    apply list_eq_Forall2, Forall2_fmap.
    eapply Forall2_impl; [exact Hall|]. intros n n' [Hd _]. simpl. by rewrite Hd.
  - intros j n Hn. unfold append_title in Hn.
    rewrite list_lookup_fmap in Hn.
    destruct (nodes !! j) as [n0|] eqn:Hn0; [|done]. injection Hn as <-.
    cbn [node_data node_fill]. by apply Hfill.
Qed.

(** ** The paths of a run *)

Lemma dataSpace_spec (charts : list Render) (group : list PathNode)
    (dom : list nat) :
  dom `prefix_of` (dataSpace charts group dom).2
  ∧ Forall2 (λ r paths,
       node_data <$> paths = r_series r
       ∧ ∀ j n, paths !! j = Some n →
           ∃ c, node_fill n = Some c
                ∧ (key (node_data n) = "Canada" → c = "red")
                ∧ (key (node_data n) = "Other" → c = "grey")
                ∧ (ordinary (node_data n) →
                   assigned (dataSpace charts group dom).2 j = Some c
                   ∧ c ∈ schemeAccent))
      charts (dataSpace charts group dom).1.
Proof.
  revert group dom. induction charts as [|r charts IH]; intros group dom.
  { cbn [dataSpace fst snd]. split; [done|constructor]. }
  cbn [dataSpace].
  destruct (drawPaths_spec group (r_series r) dom) as (Hp1 & Hdata & Hfill).
  destruct (drawPaths group (r_series r) dom) as [paths dom1].
  cbn [fst snd] in *.
  destruct (IH paths dom1) as (Hp2 & Hall).
  destruct (dataSpace charts paths dom1) as [states dom2]. cbn [fst snd] in *.
  split; [by etrans|]. constructor; [|done]. split; [done|].
  intros j n Hn. destruct (Hfill j n Hn) as (c & ? & ? & ? & Ho).
  exists c. split_and!; try done. intros Hord. destruct (Ho Hord) as [Ha ?].
  split; [|done]. by eapply assigned_prefix.
Qed.

Lemma paths_key_lookup (paths : list PathNode) (series : list Series) j :
  node_data <$> paths = series →
  (key <$> series) !! j = (λ n, key (node_data n)) <$> paths !! j.
Proof.
  intros <-. rewrite <- list_fmap_compose. by rewrite list_lookup_fmap.
Qed.

Section Paths.
Variable json : nat → URLSearchParams → option (list TradeRecord).

(** X10: the paths of a run.  After every redraw [g#dataSpace] holds one
    path per series, in series order; Canada's path is red, the residual's
    grey, and any other path has a colour of the Accent scheme.  From one
    redraw to the next a partner's path keeps its place and its fill,
    whatever the colour scale had been used for before the run. *)
Theorem partner_path_keeps_its_fill HScode pg domain :
  ∃ new,
    renders (addComtradeData json HScode pg).2 = renders pg ++ new
    ∧ let states := (dataSpace new [] domain).1 in
      Forall2 (λ r paths,
          node_data <$> paths = r_series r
          ∧ ∀ n, n ∈ paths →
              ∃ c, node_fill n = Some c
                   ∧ (key (node_data n) = "Canada" → c = "red")
                   ∧ (key (node_data n) = "Other" → c = "grey")
                   ∧ (ordinary (node_data n) → c ∈ schemeAccent))
        new states
      ∧ ∀ i paths1 paths2 j n1,
          states !! i = Some paths1 → states !! S i = Some paths2 →
          paths1 !! j = Some n1 → key (node_data n1) ≠ "Other" →
          ∃ n2, paths2 !! j = Some n2
                ∧ key (node_data n2) = key (node_data n1)
                ∧ node_fill n2 = node_fill n1.
Proof.
  destruct (addComtradeData_growing json HScode pg) as (new & Hnew & Hgrow).
  exists new. split; [done|]. cbv zeta.
  destruct (dataSpace_spec new [] domain) as (_ & Hall). split.
  - eapply Forall2_impl; [exact Hall|]. intros r paths [Hdata Hfill].
    split; [done|]. intros n (j & Hj)%list_elem_of_lookup_1.
    destruct (Hfill j n Hj) as (c & ? & ? & ? & Ho). exists c.
    split_and!; try done. intros Hord. by destruct (Ho Hord).
  - intros i paths1 paths2 j n1 Hs1 Hs2 Hj Hk.
    destruct (Forall2_lookup_r _ _ _ _ _ Hall Hs1) as (r1 & Hr1 & Hd1 & Hf1).
    destruct (Forall2_lookup_r _ _ _ _ _ Hall Hs2) as (r2 & Hr2 & Hd2 & Hf2).
    assert ((key <$> r_series r2) !! j = Some (key (node_data n1))) as Hk2.
    { apply (growing_keys_stable [] new i r1 r2 j _ Hgrow Hr1 Hr2 Hk).
      by rewrite (paths_key_lookup paths1 _ j Hd1), Hj. }
    rewrite (paths_key_lookup paths2 _ j Hd2) in Hk2.
    destruct (paths2 !! j) as [n2|] eqn:Hj2; [|done]. injection Hk2 as Hk2.
    exists n2. split; [done|]. split; [done|].
    destruct (Hf1 j n1 Hj) as (c1 & -> & Hcan1 & _ & Hord1).
    destruct (Hf2 j n2 Hj2) as (c2 & -> & Hcan2 & _ & Hord2).
    rewrite Hk2 in *.
    destruct (decide (key (node_data n1) = "Canada")) as [Hc|Hc].
    + by rewrite Hcan1, Hcan2.
    + destruct Hord1 as [Ha1 _]; [done|].
      destruct Hord2 as [Ha2 _]; [unfold ordinary; by rewrite Hk2|].
      congruence.
Qed.

End Paths.

(** ** Titles *)

Lemma find_node_cons (k : string) (n : PathNode) (group : list PathNode) :
  find_node k (n :: group)
  = if decide (key (node_data n) = k) then Some n else find_node k group.
Proof.
  unfold find_node. simpl. case_decide; [done|].
  by destruct (list_find _ group) as [[i x]|].
Qed.

Lemma find_node_filter (k k0 : string) (group : list PathNode) :
  k ≠ k0 →
  find_node k (filter (λ n, key (node_data n) ≠ k0) group) = find_node k group.
Proof.
  intros Hne. induction group as [|n group IH]; [done|].
  rewrite filter_cons, find_node_cons.
  destruct (decide (key (node_data n) ≠ k0)) as [Hn|Hn].
  - by rewrite find_node_cons, IH.
  - rewrite IH. apply dec_stable in Hn. by rewrite decide_False by congruence.
Qed.

Lemma find_node_Some (k : string) (group : list PathNode) (n : PathNode) :
  find_node k group = Some n → n ∈ group ∧ key (node_data n) = k.
Proof.
  induction group as [|x group IH]; [done|]. rewrite find_node_cons.
  case_decide.
  - intros [= <-]. split; [by left|done].
  - intros [Hin Hk]%IH. split; [by right|done].
Qed.

Lemma find_node_None (k : string) (group : list PathNode) :
  find_node k group = None ↔ k ∉ (λ n, key (node_data n)) <$> group.
Proof.
  induction group as [|x group IH].
  { split; [|done]. intros _. apply not_elem_of_nil. }
  rewrite find_node_cons, fmap_cons, not_elem_of_cons. case_decide.
  - split; [done|]. by intros [? _].
  - rewrite IH. split; [by intros ?; split|by intros [_ ?]].
Qed.

Lemma join_path_titles (group : list PathNode) (series : list Series) :
  NoDup (key <$> series) →
  Forall (λ n, node_titles n
               = from_option node_titles [] (find_node (key (node_data n)) group))
         (join_path group series).
Proof.
  revert group. induction series as [|d series IH]; intros group Hnd.
  { constructor. }
  rewrite fmap_cons in Hnd. apply NoDup_cons in Hnd as [Hd Hnd].
  assert (Hrest : ∀ g,
    Forall (λ n, node_titles n
                 = from_option node_titles [] (find_node (key (node_data n)) g))
           (join_path g series) →
    Forall (λ n, node_titles n
                 = from_option node_titles []
                     (find_node (key (node_data n))
                        (filter (λ n, key (node_data n) ≠ key d) g)))
           (join_path g series)).
  { intros g Hg. pose proof (join_path_data g series) as Hdata.
    apply Forall_forall. intros n Hn. rewrite Forall_forall in Hg.
    rewrite (Hg n Hn), find_node_filter; [done|].
    intros Heq. apply Hd. rewrite <- Heq, <- Hdata, <- list_fmap_compose.
    by apply (list_elem_of_fmap_2 (key ∘ node_data)). }
  cbn [join_path].
  destruct (list_find _ group) as [[i n]|] eqn:Hfind.
  - constructor.
    + cbn [node_data node_titles]. unfold find_node. by rewrite Hfind.
    + pose proof (IH (filter (λ n, key (node_data n) ≠ key d) group) Hnd) as Hg.
      apply Forall_forall. intros n' Hn'. rewrite Forall_forall in Hg.
      rewrite (Hg n' Hn'), find_node_filter; [done|].
      intros Heq. apply Hd.
      rewrite <- Heq,
        <- (join_path_data (filter (λ n, key (node_data n) ≠ key d) group) series),
        <- list_fmap_compose.
      by apply (list_elem_of_fmap_2 (key ∘ node_data)).
  - constructor; [|by apply IH].
    cbn [node_data node_titles]. unfold find_node. by rewrite Hfind.
Qed.

(** One redraw: a path that was there keeps its titles and gets one more,
    a new path has one title. *)
Lemma drawPaths_titles (group : list PathNode) (series : list Series)
    (dom : list nat) :
  NoDup (key <$> series) →
  Forall (λ n, node_titles n
               = from_option node_titles [] (find_node (key (node_data n)) group)
                 ++ [key (node_data n)])
         (drawPaths group series dom).1.
Proof.
  intros Hnd. unfold drawPaths.
  destruct (attr_fill_spec 0 (join_path group series) dom) as (_ & Hall & _).
  destruct (attr_fill 0 (join_path group series) dom) as [nodes dom'].
  cbn [fst snd] in *. unfold append_title. apply Forall_fmap, Forall_forall.
  intros n' Hn'. unfold compose. cbn [node_data node_titles]. f_equal.
  pose proof (join_path_titles group series Hnd) as Hj.
  apply list_elem_of_lookup_1 in Hn' as [j Hn'].
  destruct (Forall2_lookup_r _ _ _ _ _ Hall Hn') as (n & Hn & -> & ->).
  rewrite Forall_forall in Hj. apply Hj. by eapply list_elem_of_lookup_2.
Qed.

Lemma charts_with_cons (k : string) (r : Render) (charts : list Render) :
  charts_with k (r :: charts)
  = ((if decide (k ∈ key <$> r_series r) then 1 else 0)
     + charts_with k charts)%nat.
Proof. unfold charts_with. rewrite filter_cons. by case_decide. Qed.

Lemma dataSpace_titles (charts : list Render) (group : list PathNode)
    (dom : list nat) (count : string → nat) :
  nested ((λ n, key (node_data n)) <$> group) charts →
  (∀ n, n ∈ group →
     node_titles n = replicate (count (key (node_data n))) (key (node_data n))) →
  (∀ k, k ∉ (λ n, key (node_data n)) <$> group → count k = 0%nat) →
  ∀ i paths n,
    (dataSpace charts group dom).1 !! i = Some paths → n ∈ paths →
    node_titles n
    = replicate (count (key (node_data n))
                 + charts_with (key (node_data n)) (take (S i) charts))
                (key (node_data n)).
Proof.
  revert group dom count.
  induction charts as [|r charts IH]; intros group dom count Hnest Hgroup Hcount;
    [done|].
  destruct Hnest as (Hsub & Hnd & Hnest).
  cbn [dataSpace].
  pose proof (drawPaths_titles group (r_series r) dom Hnd) as Htitles.
  destruct (drawPaths_spec group (r_series r) dom) as (_ & Hdata & _).
  destruct (drawPaths group (r_series r) dom) as [paths1 dom1].
  cbn [fst snd] in *.
  assert (Hkeys : (λ n, key (node_data n)) <$> paths1 = key <$> r_series r).
  { rewrite <- Hdata. by rewrite <- list_fmap_compose. }
  set (count' := λ k, (count k
                       + if decide (k ∈ key <$> r_series r) then 1 else 0)%nat).
  assert (Hpaths1 : ∀ n, n ∈ paths1 →
            node_titles n
            = replicate (count' (key (node_data n))) (key (node_data n))).
  { intros n Hn. rewrite Forall_forall in Htitles. rewrite (Htitles n Hn).
    unfold count'. rewrite decide_True.
    2:{ rewrite <- Hkeys. by apply (list_elem_of_fmap_2 (λ n, key (node_data n))). }
    rewrite Nat.add_1_r, replicate_S_end. f_equal.
    destruct (find_node _ group) as [n0|] eqn:Hfind.
    - apply find_node_Some in Hfind as [Hin Hk]. simpl.
      by rewrite (Hgroup n0 Hin), Hk.
    - apply find_node_None in Hfind. by rewrite (Hcount _ Hfind). }
  specialize (IH paths1 dom1 count').
  destruct (dataSpace charts paths1 dom1) as [states dom2]. cbn [fst snd] in *.
  intros [|i] paths n Hi Hn.
  - injection Hi as <-. rewrite (Hpaths1 n Hn). unfold count'.
    cbn [take]. rewrite charts_with_cons. f_equal.
    rewrite take_0. change (charts_with _ []) with 0%nat. case_decide; lia.
  - cbn [lookup list_lookup] in Hi. rewrite (IH) with (i := i) (paths := paths);
      try done.
    + unfold count'. rewrite firstn_cons, charts_with_cons. f_equal.
      case_decide; lia.
    + by rewrite Hkeys.
    + intros k Hk. unfold count'. rewrite Hkeys in Hk.
      rewrite decide_False by done. rewrite Hcount; [done|].
      intros Hin. apply Hk. by apply Hsub.
Qed.

Lemma growing_nested (data : list TradeRecord) (charts : list Render)
    (ks : list string) :
  growing data charts → ks ⊆ Set_add (chartPartners data) "Other" →
  nested ks charts.
Proof.
  revert data ks. induction charts as [|r charts IH]; intros data ks; [done|].
  intros (Hpre & _ & Hchart & Hgrow) Hsub.
  destruct (chart_of_keys r Hchart) as [Hk _].
  cbn [nested]. rewrite Hk. split_and!.
  - intros k Hin%Hsub. apply elem_of_Set_add in Hin as [Hin|Hin];
      apply elem_of_Set_add; [left|by right].
    eapply elem_of_prefix; [exact Hin|]. by apply chartPartners_prefix.
  - apply NoDup_Set_add, NoDup_Set_delete, NoDup_Set_new.
  - by eapply IH.
Qed.

Lemma charts_with_Other (data : list TradeRecord) (charts : list Render) :
  growing data charts → charts_with "Other" charts = length charts.
Proof.
  revert data. induction charts as [|r charts IH]; intros data; [done|].
  intros (_ & _ & Hchart & Hgrow). rewrite charts_with_cons, (IH _ Hgrow).
  destruct (chart_of_keys r Hchart) as [Hk _].
  rewrite decide_True; [done|]. rewrite Hk. apply elem_of_Set_add. by right.
Qed.

Lemma growing_take data charts n : growing data charts → growing data (take n charts).
Proof.
  revert data n. induction charts as [|r charts IH]; intros data [|n]; try done.
  intros (? & ? & ? & ?). cbn [take growing]. split_and!; try done. by apply IH.
Qed.

Section Titles.
Variable json : nat → URLSearchParams → option (list TradeRecord).

(** X11: every redraw appends a further [title] to each path it keeps.
    After the [i]-th redraw of a run (counted from 0) the titles of a path
    are as many copies of its key as there were charts with that key so far;
    the path of the residual has [i + 1] of them. *)
Theorem every_redraw_appends_a_title HScode pg domain :
  ∃ new,
    renders (addComtradeData json HScode pg).2 = renders pg ++ new
    ∧ ∀ i paths n,
        (dataSpace new [] domain).1 !! i = Some paths → n ∈ paths →
        let k := key (node_data n) in
        node_titles n = replicate (charts_with k (take (S i) new)) k
        ∧ (k = "Other" → length (node_titles n) = S i).
Proof.
  destruct (addComtradeData_growing json HScode pg) as (new & Hnew & Hgrow).
  exists new. split; [done|]. intros i paths n Hi Hn k.
  pose proof (dataSpace_titles new [] domain (λ _, 0%nat)) as Ht.
  rewrite (Ht (growing_nested [] new [] Hgrow ltac:(set_solver))
              ltac:(by intros ? ?%elem_of_nil) ltac:(done) i paths n Hi Hn).
  fold k. split; [done|]. intros ->.
  rewrite length_replicate. simpl.
  rewrite (charts_with_Other [] _ (growing_take _ _ (S i) Hgrow)).
  destruct (dataSpace_spec new [] domain) as (_ & Hall).
  apply Forall2_length in Hall. apply lookup_lt_Some in Hi.
  rewrite length_take. lia.
Qed.

End Titles.

(** ** A scale that has not been used *)

Lemma colors_fresh (d : nat) (dom : list nat) :
  d ∉ dom →
  colors d dom
  = (schemeAccent !!! (length dom mod length schemeAccent)%nat, dom ++ [d]).
Proof.
  intros Hd. unfold colors.
  destruct (list_find _ dom) as [[i x]|] eqn:Hfind; [|done].
  apply list_find_Some in Hfind as (Hi & -> & _).
  destruct Hd. by eapply list_elem_of_lookup_2.
Qed.

Lemma filter_fmap_length {A B} (f : A → B) (P : B → Prop)
    `{∀ y, Decision (P y)} (l : list A) :
  length (filter P (f <$> l)) = length (filter (λ x, P (f x)) l).
Proof.
  induction l as [|x l IH]; [done|].
  rewrite fmap_cons, !filter_cons. case_decide; simpl; by rewrite IH.
Qed.

Lemma attr_fill_fresh (i : nat) (nodes : list PathNode) (dom : list nat) :
  (∀ x, x ∈ dom → (x < i)%nat) →
  ∀ j n, nodes !! j = Some n →
    ∃ n', (attr_fill i nodes dom).1 !! j = Some n'
      ∧ node_data n' = node_data n
      ∧ node_fill n'
        = Some (if decide (key (node_data n) = "Canada") then "red"
                else if decide (key (node_data n) = "Other") then "grey"
                else schemeAccent !!!
                       ((length dom
                         + length (filter (λ m, ordinary (node_data m))
                                     (take j nodes)))
                        mod length schemeAccent)%nat).
Proof.
  revert i dom. induction nodes as [|m nodes IH]; intros i dom Hdom j n; [done|].
  cbn [attr_fill].
  assert (Hfill : fill (node_data m) i dom
                  = if decide (ordinary (node_data m))
                    then (schemeAccent !!! (length dom mod length schemeAccent)%nat,
                          dom ++ [i])
                    else (if decide (key (node_data m) = "Canada") then "red"
                          else "grey", dom)).
  { unfold fill, ordinary.
    destruct (decide (key (node_data m) = "Canada")) as [Hc|Hc].
    { rewrite decide_False by tauto. done. }
    destruct (decide (key (node_data m) = "Other")) as [Ho|Ho].
    { rewrite decide_False by tauto. done. }
    rewrite decide_True by done. apply colors_fresh.
    intros Hin%Hdom. lia. }
  destruct (fill (node_data m) i dom) as [c dom1].
  specialize (IH (S i) dom1).
  destruct (attr_fill (S i) nodes dom1) as [ns dom2]. cbn [fst snd] in *.
  destruct j as [|j].
  - intros [= <-]. eexists. split; [done|]. split; [done|].
    cbn [node_fill]. f_equal. rewrite take_0, filter_nil. simpl length.
    rewrite Nat.add_0_r. unfold ordinary in Hfill.
    destruct (decide (key (node_data m) = "Canada")) as [Hc|Hc].
    { rewrite decide_False in Hfill by tauto. congruence. }
    destruct (decide (key (node_data m) = "Other")) as [Ho|Ho].
    { rewrite decide_False in Hfill by tauto. congruence. }
    rewrite decide_True in Hfill by done. by injection Hfill as -> _.
  - intros Hn. cbn [lookup list_lookup] in Hn |- *.
    destruct (IH) with (j := j) (n := n) as (n' & Hn' & Hd' & Hf'); [|done|].
    + destruct (decide (ordinary (node_data m))); injection Hfill as _ ->.
      * intros x [Hx| ->%list_elem_of_singleton]%elem_of_app; [|lia].
        apply Hdom in Hx. lia.
      * intros x Hx%Hdom. lia.
    + exists n'. split; [done|]. split; [done|]. rewrite Hf'.
      rewrite firstn_cons, filter_cons.
      destruct (decide (ordinary (node_data m))); injection Hfill as _ ->.
      * rewrite length_app. simpl length.
        by replace (length dom + 1 + length (filter (λ m, ordinary (node_data m)) (take j nodes)))%nat
          with (length dom + S (length (filter (λ m, ordinary (node_data m)) (take j nodes))))%nat
          by lia.
      * done.
Qed.

(** X12: the fills on a colour scale that has not been used.  Whatever
    paths were there, after a redraw the path of the [j]-th series is red for
    Canada and grey for the residual; any other series gets the colours of
    the Accent scheme in turn, counting only such series, and the ninth gets
    the colour of the first again. *)
Theorem fills_on_a_fresh_scale (group : list PathNode) (series : list Series)
    (j : nat) (s : Series) :
  series !! j = Some s →
  ∃ n,
    (drawPaths group series []).1 !! j = Some n
    ∧ node_data n = s
    ∧ node_fill n
      = Some (if decide (key s = "Canada") then "red"
              else if decide (key s = "Other") then "grey"
              else schemeAccent !!!
                     (length (filter ordinary (take j series)) mod 8)%nat).
Proof.
  intros Hj. pose proof (join_path_data group series) as Hdata.
  assert (∃ n, join_path group series !! j = Some n ∧ node_data n = s)
    as (n & Hn & Hs).
  { rewrite <- Hdata, list_lookup_fmap in Hj.
    destruct (join_path group series !! j) as [n|]; [|done].
    injection Hj as Hj. eauto. }
  destruct (attr_fill_fresh 0 (join_path group series) [] ltac:(by intros ? ?%elem_of_nil)
              j n Hn) as (n' & Hn' & Hd' & Hf').
  unfold drawPaths.
  destruct (attr_fill 0 (join_path group series) []) as [nodes dom'].
  cbn [fst snd] in *. unfold append_title. rewrite list_lookup_fmap, Hn'.
  eexists. split; [done|]. cbn [node_data node_fill]. split; [congruence|].
  rewrite Hf', Hs. simpl length at 1. rewrite Nat.add_0_l.
  change (length schemeAccent) with 8%nat.
  assert (length (filter ordinary (take j series))
          = length (filter (λ m, ordinary (node_data m))
                      (take j (join_path group series)))) as ->; [|done].
  rewrite <- Hdata at 1. by rewrite <- fmap_take, filter_fmap_length.
Qed.

Lemma fills_on_a_fresh_scale_witness :
  let series := (λ k, mkSeries k 0 []) <$>
                  ["Canada"; "A"; "B"; "C"; "D"; "E"; "F"; "G"; "H"; "I"; "Other"] in
  ∃ n1 n9,
    (drawPaths [] series []).1 !! 1%nat = Some n1
    ∧ (drawPaths [] series []).1 !! 9%nat = Some n9
    ∧ node_fill n1 = Some "#7fc97f"
    ∧ node_fill n9 = Some "#7fc97f".
Proof.
  intros series.
  destruct (fills_on_a_fresh_scale [] series 1 (mkSeries "A" 0 []) eq_refl)
    as (n1 & H1 & _ & Hf1).
  destruct (fills_on_a_fresh_scale [] series 9 (mkSeries "I" 0 []) eq_refl)
    as (n9 & H9 & _ & Hf9).
  exists n1, n9. split_and!; [exact H1|exact H9|exact Hf1|exact Hf9].
Defined.

(** ** The top of the stack *)

Lemma cumulative_last (base : Datum → Q) (i : nat) (ks : list string)
    (data : list Datum) (top : Series) :
  last (cumulative base i ks data) = Some top →
  last ks = Some (key top)
  ∧ Forall2 (λ d pt, ∃ v, y1 pt = Some v
                          ∧ (v == base d + Qsum (numeric d <$> ks))%Q)
            data (points top).
Proof.
  revert base i. induction ks as [|k ks IH]; intros base i; [done|].
  cbn [cumulative]. destruct ks as [|k' ks'].
  - cbn [cumulative last]. intros [= <-]. cbn [key points]. split; [done|].
    apply Forall2_fmap_r, Forall_Forall2_diag, Forall_forall. intros d _.
    eexists. split; [done|]. simpl. unfold Qsum. simpl. ring.
  - intros Hlast.
    change (last (cumulative (λ d, (numeric d k + base d)%Q) (S i) (k' :: ks') data)
            = Some top) in Hlast.
    apply IH in Hlast as [Hk Hpts]. split; [done|].
    eapply Forall2_impl; [exact Hpts|]. intros d pt (v & Hv & Heq).
    exists v. split; [done|]. rewrite Heq, (fmap_cons _ k), Qsum_cons. ring.
Qed.

Lemma stacked_last (ks : list string) (data : list Datum) (top : Series) :
  last (stacked ks data) = Some top →
  last ks = Some (key top)
  ∧ Forall2 (λ d pt, ∃ v, y1 pt = Some v ∧ (v == Qsum (numeric d <$> ks))%Q)
            data (points top).
Proof.
  destruct ks as [|k ks]; [done|]. cbn [stacked]. destruct ks as [|k' ks'].
  - cbn [cumulative last]. intros [= <-]. cbn [key points]. split; [done|].
    apply Forall2_fmap_r, Forall_Forall2_diag, Forall_forall. intros d _.
    eexists. split; [done|]. simpl. unfold Qsum. simpl. ring.
  - intros Hlast.
    change (last (cumulative (λ d, numeric d k) 1 (k' :: ks') data) = Some top)
      in Hlast.
    apply cumulative_last in Hlast as [Hk Hpts]. split; [done|].
    eapply Forall2_impl; [exact Hpts|]. intros d pt (v & Hv & Heq).
    exists v. split; [done|]. rewrite Heq, (fmap_cons _ k), Qsum_cons. ring.
Qed.

Lemma tradeObject_value (pdata : list TradeRecord) (partners : list string)
    (p : option Date) (w : Q) (k : string) :
  k ∈ Set_add partners "Other" → is_Some (value (tradeObject pdata partners p w) k).
Proof.
  intros Hk. unfold value. rewrite tradeObject_lookup.
  destruct (decide (k ∈ partners)); [done|].
  apply elem_of_Set_add in Hk as [?| ->]; [done|]. by rewrite decide_True.
Qed.

Lemma tradeObject_numeric_partner pdata partners p w (k : string) :
  k ∈ partners → numeric (tradeObject pdata partners p w) k = partnerValue pdata k.
Proof.
  intros Hk. unfold numeric, value. rewrite tradeObject_lookup.
  by rewrite decide_True.
Qed.

Lemma tradeObject_numeric_Other pdata partners p w :
  "Other" ∉ partners →
  numeric (tradeObject pdata partners p w) "Other" = (w - partnerTrade pdata)%Q.
Proof.
  intros Hk. unfold numeric, value. rewrite tradeObject_lookup.
  rewrite decide_False by done. by rewrite decide_True.
Qed.

(** The values of the tracked partners in a period add up to the trade of
    all its non-world records. *)
Lemma partner_values_total (data : list TradeRecord) (y : Z) :
  titles_identify_partners data → deduplicated data →
  let pdata := filter (λ d, period d = y) data in
  (Qsum (partnerValue pdata <$> chartPartners data) == partnerTrade pdata)%Q.
Proof.
  intros [Hworld Hinj] Hdd pdata. rewrite partnerTrade_Qsum.
  assert (partnerValue pdata <$> chartPartners data
          = partnerValue (filter (λ d, ptCode d ≠ world) pdata)
              <$> chartPartners data) as ->.
  { apply Forall_fmap_ext, Forall_forall. intros t Ht.
    apply partnerValue_nonworld.
    intros d [_ Hd]%list_elem_of_filter Hc <-.
    apply elem_of_Set_delete in Ht as [_ Ht]. apply Ht. by apply Hworld. }
  apply Qsum_by_title.
  - apply NoDup_Set_delete, NoDup_Set_new.
  - apply partner_titles_NoDup; [|done]. by split.
  - intros d [Hc [_ Hd]%list_elem_of_filter]%list_elem_of_filter.
    apply elem_of_Set_delete. split.
    + apply elem_of_Set_new. by apply list_elem_of_fmap_2.
    + intros Ht. apply Hc. by apply Hworld.
Qed.

Lemma Qsum_ext {A} (f g : A → Q) (l : list A) :
  (∀ x, x ∈ l → f x = g x) → Qsum (f <$> l) = Qsum (g <$> l).
Proof.
  intros Hfg. f_equal. apply Forall_fmap_ext, Forall_forall. exact Hfg.
Qed.

(** The values an entry holds for the stack keys add up to the world trade
    of its period. *)
Lemma tradeEntry_total (data : list TradeRecord) (y : Z) (w : TradeRecord) :
  1000 ≤ y ≤ 9999 → "Other" ∉ ptTitle <$> data →
  titles_identify_partners data → deduplicated data →
  world_record (periodData data (yearDate y)) = Some w →
  (Qsum (numeric (tradeEntry data (chartPartners data) (yearDate y))
           <$> chartPartners data ++ ["Other"])
   == TradeValue w)%Q.
Proof.
  intros Hy Hother Htitles Hdd Hwr.
  assert (Hno : "Other" ∉ chartPartners data) by (by apply Other_not_partner).
  rewrite fmap_app, Qsum_app. unfold tradeEntry, worldTradeOf. rewrite Hwr.
  cbn [from_option].
  rewrite (Qsum_ext _ (partnerValue (periodData data (yearDate y))))
    by (intros k Hk0; by apply tradeObject_numeric_partner).
  rewrite fmap_cons, Qsum_cons, tradeObject_numeric_Other by done.
  rewrite periodData_year by done.
  rewrite (partner_values_total data y Htitles Hdd).
  change (Qsum (numeric _ <$> [])) with 0%Q. ring.
Qed.

Lemma updateChart_stacked data X Y pg :
  valid_years 1000 data → every_period_has_world data →
  "Other" ∉ ptTitle <$> data →
  updateChart data X Y pg
  = (Ok (),
     drawn (mkRender data
              (stacked (chartPartners data ++ ["Other"])
                 (tradeEntry data (chartPartners data) <$> getPeriods data))
              X Y)
           (logged (getPeriods data ≫= tradeWarnings data) pg)).
Proof.
  intros Hv Hw Hother.
  pose proof (getPeriods_world data Hv Hw) as Hall.
  assert (Hno : "Other" ∉ chartPartners data) by (by apply Other_not_partner).
  rewrite updateChart_run_Ok.
  2:{ eapply Forall_impl; [exact Hall|].
      intros p (y & w & _ & _ & _ & ->). eauto. }
  do 3 f_equal.
  rewrite stack_stacked; [by cbn [keys stackGen]; rewrite Set_add_fresh|].
  intros e k (p & -> & _)%list_elem_of_fmap Hk. by apply tradeObject_value.
Qed.

(** X13: the silhouette of the chart.  For deduplicated data with
    four-digit years in which every period has a world record, titles
    identify partners and no partner is titled "Other", [updateChart] draws
    a chart whose topmost series is the residual, and the upper edge of that
    series is, period by period, the world trade value: the partner bands
    and the residual together fill exactly the area under the world curve. *)
Theorem chart_top_is_world_trade data X Y pg :
  valid_years 1000 data → every_period_has_world data →
  "Other" ∉ ptTitle <$> data →
  titles_identify_partners data → deduplicated data →
  ∃ pg' r,
    updateChart data X Y pg = (Ok (), pg')
    ∧ renders pg' = renders pg ++ [r]
    ∧ ∃ top,
        last (r_series r) = Some top
        ∧ key top = "Other"
        ∧ Forall2 (λ p pt, ∃ w v,
                     world_record (periodData data p) = Some w
                     ∧ y1 pt = Some v ∧ (v == TradeValue w)%Q)
                  (getPeriods data) (points top).
Proof.
  intros Hv Hw Hother Htitles Hdd.
  pose proof (getPeriods_world data Hv Hw) as Hall.
  eexists _, _. split; [by apply updateChart_stacked|].
  split; [done|]. cbn [r_series].
  set (entries := tradeEntry data (chartPartners data) <$> getPeriods data).
  destruct (last (stacked (chartPartners data ++ ["Other"]) entries))
    as [top|] eqn:Hlast.
  2:{ apply last_None in Hlast. by destruct (chartPartners data). }
  exists top. split; [done|].
  apply stacked_last in Hlast as [Hk Hpts]. rewrite last_snoc in Hk.
  split; [congruence|].
  unfold entries in Hpts. apply Forall2_fmap_l in Hpts.
  apply Forall2_same_length_lookup_2; [by eapply Forall2_length|].
  intros i p pt Hp Hpt.
  destruct (Forall2_lookup_l _ _ _ _ _ Hpts Hp) as (pt' & Hpt' & v & Hv1 & Hsum).
  assert (pt' = pt) as -> by congruence.
  rewrite Forall_forall in Hall.
  destruct (Hall p (list_elem_of_lookup_2 _ _ _ Hp)) as (y & w & -> & Hy & _ & Hwr).
  exists w, v. split; [done|]. split; [done|]. rewrite Hsum.
  by apply tradeEntry_total.
Qed.

Lemma chart_top_is_world_trade_witness :
  let data := [mkRecord 0 "World" 2019 90; mkRecord 124 "Canada" 2019 20;
               mkRecord 0 "World" 2020 100; mkRecord 36 "Australia" 2020 30;
               mkRecord 124 "Canada" 2020 25] in
  let pg := mkPage [] [] [] true in
  let X := mkScale (Fin 0, Fin 1) (40, 595) in
  let Y := mkScale (Fin 0, Fin 100) (230, 5) in
  ∃ pg' r top,
    updateChart data X Y pg = (Ok (), pg')
    ∧ last (r_series r) = Some top
    ∧ key top = "Other"
    ∧ length (points top) = length (getPeriods data).
Proof.
  intros data pg X Y.
  destruct (chart_top_is_world_trade data X Y pg)
    as (pg' & r & Hrun & _ & top & Hlast & Hkey & Hpts).
  - intros d Hd. each_record Hd; lia.
  - intros d Hd.
    each_record Hd;
      [exists (mkRecord 0 "World" 2019 90) | exists (mkRecord 0 "World" 2019 90)
      |exists (mkRecord 0 "World" 2020 100) | exists (mkRecord 0 "World" 2020 100)
      |exists (mkRecord 0 "World" 2020 100)];
      (split; [unfold data; rewrite !elem_of_cons; tauto|done]).
  - simpl. rewrite !elem_of_cons, elem_of_nil.
    intros [?|[?|[?|[?|[?|[]]]]]]; discriminate.
  - split.
    + intros d Hd. each_record Hd; done.
    + intros d1 d2 Hd1 Hd2. each_record Hd1; each_record Hd2; done.
  - by vm_compute; repeat constructor; rewrite ?elem_of_cons, ?elem_of_nil;
      intuition discriminate.
  - exists pg', r, top. split_and!; [exact Hrun|exact Hlast|exact Hkey|].
    symmetry. by eapply Forall2_length.
Defined.

(** ** Runs that complete *)

Lemma uniqueData_keeps_pairs (data : list TradeRecord) (d : TradeRecord) :
  d ∈ data → ∃ d', d' ∈ uniqueData data ∧ pairOf d' = pairOf d.
Proof.
  intros Hd.
  pose proof (uniqueData_map_pair ∅ data (ptCode d) (period d)) as Hpair.
  rewrite decide_False in Hpair by set_solver. fold (uniqueData data) in Hpair.
  destruct (JS.find (λ x, bool_decide (same_pair (ptCode d) (period d) x)) data)
    as [d'|] eqn:Hfind.
  - exists d'. simpl in Hpair.
    assert (d' ∈ filter (same_pair (ptCode d) (period d)) (uniqueData data))
      as [[Hc Hp] Hin]%list_elem_of_filter
      by (rewrite Hpair; apply list_elem_of_here).
    split; [done|]. unfold pairOf. by rewrite Hc, Hp.
  - exfalso. unfold JS.find in Hfind. apply list_elem_of_In in Hd.
    eapply find_none in Hfind; [|exact Hd].
    apply bool_decide_eq_false in Hfind. by destruct Hfind.
Qed.

Lemma uniqueData_elem_of (data : list TradeRecord) (d : TradeRecord) :
  d ∈ uniqueData data → d ∈ data.
Proof. intros Hd. eapply elem_of_sublist; [done|apply uniqueData_map_sublist]. Qed.

Lemma world_record_is_Some (data : list TradeRecord) (w : TradeRecord) :
  w ∈ data → ptCode w = world → is_Some (world_record data).
Proof.
  intros Hin Hw. destruct (world_record data) eqn:Hwr; [done|].
  rewrite world_record_None in Hwr. by destruct (Hwr w Hin).
Qed.

(** Merged data in which every period has a world record is drawn. *)
Lemma updateChart_completes data X Y pg :
  valid_years 1000 data → every_period_has_world data →
  ∃ pg', updateChart data X Y pg = (Ok (), pg').
Proof.
  intros Hv Hw. eexists. apply updateChart_run_Ok.
  eapply Forall_impl; [exact (getPeriods_world data Hv Hw)|].
  intros p (y & w & _ & _ & _ & ->). eauto.
Qed.

Lemma merged_has_world (first src resp : list TradeRecord) :
  (∀ w, w ∈ first → ∃ w', w' ∈ src ∧ pairOf w' = pairOf w) →
  every_period_has_world src →
  (∀ d, d ∈ resp →
     ∃ w, w ∈ first ++ resp ∧ ptCode w = world ∧ period w = period d) →
  every_period_has_world (uniqueData (src ++ resp)).
Proof.
  intros Hfirst Hsrc Hresp d Hd%uniqueData_elem_of.
  assert (∃ w, w ∈ src ++ resp ∧ ptCode w = world ∧ period w = period d)
    as (w & Hw & Hc & Hp).
  { apply elem_of_app in Hd as [Hd|Hd].
    - destruct (Hsrc d Hd) as (w & ? & ? & ?). exists w.
      split_and!; try done. apply elem_of_app. by left.
    - destruct (Hresp d Hd) as (w & [Hw|Hw]%elem_of_app & Hc & Hp).
      + destruct (Hfirst w Hw) as (w' & Hw' & [= Hc' Hp']).
        exists w'. split_and!; [apply elem_of_app; by left|congruence..].
      + exists w. split_and!; try done. apply elem_of_app. by right. }
  destruct (uniqueData_keeps_pairs _ w Hw) as (w' & Hw' & [= Hc' Hp']).
  exists w'. split_and!; [done|congruence..].
Qed.

Section Complete.
Variable json : nat → URLSearchParams → option (list TradeRecord).

Lemma backfill_completes HScode X Y first queue src pg :
  complete_service json first →
  (∀ w, w ∈ first → ∃ w', w' ∈ src ∧ pairOf w' = pairOf w) →
  valid_years 1000 src → every_period_has_world src → deduplicated src →
  ∃ st, (backfill json HScode X Y (queue, src) pg).1 = Ok st.
Proof.
  intros [Hans Hresp]. revert queue src pg.
  apply (backfill_rules json HScode X Y
           (λ _ src _ r,
              (∀ w, w ∈ first → ∃ w', w' ∈ src ∧ pairOf w' = pairOf w) →
              valid_years 1000 src → every_period_has_world src →
              deduplicated src → ∃ st, r.1 = Ok st)).
  - intros src pg _ _ _ _. by eexists.
  - intros queue src pg _ q Hq. destruct (Hans (length (requests pg)) (params_of q)).
    congruence.
  - intros queue src pg newData e pg2 _ q Hq Hrun Hfirst Hv Hw Hdd. exfalso.
    destruct (Hresp _ _ _ Hq) as (Hvn & _ & Hwn).
    destruct (updateChart_completes (uniqueData (src ++ newData)) X Y
                (mkPage (console pg) (requests pg ++ [q]) (renders pg) (loading pg)))
      as [pg' Hok].
    + intros d [Hd|Hd]%uniqueData_elem_of%elem_of_app; [by apply Hv|by apply Hvn].
    + by eapply merged_has_world.
    + congruence.
  - intros queue src pg newData pg2 r _ q Hq Hrun IH Hfirst Hv Hw Hdd.
    destruct (Hresp _ _ _ Hq) as (Hvn & _ & Hwn).
    apply IH.
    + intros w Hin. destruct (Hfirst w Hin) as (w' & Hw' & Heq). exists w'.
      split; [|done]. eapply elem_of_prefix; [exact Hw'|].
      by apply uniqueData_extends.
    + intros d [Hd|Hd]%uniqueData_elem_of%elem_of_app; [by apply Hv|by apply Hvn].
    + by eapply merged_has_world.
    + apply uniqueData_deduplicated.
Qed.

(** X14: a sufficient condition for a run to complete.  When every
    request is answered, the periods are four-digit years, answers to
    requests for all partners have a world record, and every period met has
    a world record in the same answer or in the first one, the run ends
    without an exception and removes the "Loading..." paragraph. *)
Theorem run_completes_on_a_complete_service HScode pg first :
  json (length (requests pg))
       (params_of (mkRequest HScode (inr [world; canada]) (inl "all")))
  = Some first →
  complete_service json first →
  (addComtradeData json HScode pg).1 = Ok ()
  ∧ loading (addComtradeData json HScode pg).2 = false.
Proof.
  intros Hq1 Hcs. pose proof Hcs as [Hans Hresp].
  pose proof (addComtradeData_stages json HScode pg) as Hst. cbv zeta in Hst.
  rewrite Hq1 in Hst.
  destruct (Hresp _ _ _ Hq1) as (Hv1 & _ & Hw1).
  assert (Hv : valid_years 1000 (uniqueData first)).
  { intros d Hd%uniqueData_elem_of. by apply Hv1. }
  assert (Hfirst : ∀ w, w ∈ first →
            ∃ w', w' ∈ uniqueData first ∧ pairOf w' = pairOf w)
    by (intros w Hw; by apply uniqueData_keeps_pairs).
  assert (Hw : every_period_has_world (uniqueData first)).
  { intros d Hd%uniqueData_elem_of.
    destruct (Hw1 d Hd) as (w & Hin & Hc & Hp).
    assert (w ∈ first) as Hin' by (apply elem_of_app in Hin; tauto).
    destruct (Hfirst w Hin') as (w' & Hw' & [= Hc' Hp']).
    exists w'. split_and!; [done|congruence..]. }
  set (pg1 := mkPage _ (_ ++ _) _ true) in Hst.
  match type of Hst with
  | context [updateChart ?d ?X ?Y pg1] =>
      destruct (updateChart_completes d X Y pg1 Hv Hw) as [pg2 Hrun];
      rewrite Hrun in Hst
  end.
  match type of Hst with
  | context [json ?n ?q] =>
      destruct (Hans n q) as [ranking Hq2]; rewrite Hq2 in Hst;
      destruct (Hresp _ _ _ Hq2) as (_ & Hall & _)
  end.
  destruct (Hall eq_refl) as (w & Hwin & Hwc).
  destruct (world_record_is_Some ranking w Hwin Hwc) as [w0 Hwr].
  rewrite Hwr in Hst.
  match type of Hst with
  | context [backfill json HScode ?X ?Y (?q, ?s) ?p] =>
      destruct (backfill_completes HScode X Y first q s p Hcs Hfirst Hv Hw
                  (uniqueData_deduplicated first)) as [st Hok];
      destruct (backfill json HScode X Y (q, s) p) as [[st'|e] pg4]
  end; [|done].
  by rewrite Hst.
Qed.

End Complete.

Ltac pick_world :=
  first
    [exists (mkRecord 0 "World" 2019 90);
     split; [rewrite ?elem_of_app, !elem_of_cons; tauto|done]
    |exists (mkRecord 0 "World" 2020 100);
     split; [rewrite ?elem_of_app, !elem_of_cons; tauto|done]
    |exists (mkRecord 0 "World" 2021 500);
     split; [rewrite ?elem_of_app, !elem_of_cons; tauto|done]].

Lemma run_completes_on_a_complete_service_witness :
  let pg := mkPage [] [] [] false in
  (addComtradeData growing_service "0901" pg).1 = Ok ()
  ∧ loading (addComtradeData growing_service "0901" pg).2 = false.
Proof.
  intros pg.
  apply (run_completes_on_a_complete_service growing_service "0901" pg _ eq_refl).
  split.
  - intros [|[|n]] q; by eexists.
  - intros [|[|n]] q resp [= <-]; (split_and!;
      [intros d Hd; each_record Hd; lia
      |intros _; pick_world
      |intros d Hd; each_record Hd; pick_world]).
Defined.

(** ** Consistent data *)

(** X15: no false alarm.  When a period's partner trade does not exceed
    its world trade (equality included) nothing is written to the console:
    for data with four-digit years in which every period has a world record
    and the partner records of a period sum to at most its world record,
    [updateChart] completes and leaves the console as it was. *)
Theorem no_warning_for_consistent_data data X Y pg :
  valid_years 1000 data → every_period_has_world data →
  (∀ (y : Z) w,
     world_record (filter (λ d, period d = y) data) = Some w →
     (Qsum (TradeValue <$> filter (λ d, ptCode d ≠ world)
                             (filter (λ d, period d = y) data))
      <= TradeValue w)%Q) →
  ∃ pg', updateChart data X Y pg = (Ok (), pg') ∧ console pg' = console pg.
Proof.
  intros Hv Hw Hle.
  pose proof (getPeriods_world data Hv Hw) as Hall.
  eexists. split.
  { apply updateChart_run_Ok. eapply Forall_impl; [exact Hall|].
    intros p (y & w & _ & _ & _ & ->). eauto. }
  cbn [drawn logged console].
  assert (getPeriods data ≫= tradeWarnings data = []) as ->;
    [|by rewrite app_nil_r].
  induction Hall as [|p periods (y & w & -> & Hy & _ & Hwr) _ IH]; [done|].
  rewrite bind_cons, IH, app_nil_r.
  unfold tradeWarnings, periodWarnings, worldTradeOf. rewrite Hwr.
  cbn [from_option]. rewrite periodData_year in * by done.
  assert (Qle_bool (partnerTrade (filter (λ d, period d = y) data)) (TradeValue w)
          = true) as ->; [|done].
  apply Qle_bool_iff. rewrite partnerTrade_Qsum. by apply Hle.
Qed.

Lemma no_warning_for_consistent_data_witness :
  let data := [mkRecord 0 "World" 2020 100; mkRecord 36 "Australia" 2020 70;
               mkRecord 76 "Brazil" 2020 30] in
  let pg := mkPage [] [] [] true in
  let X := mkScale (Fin 0, Fin 1) (40, 595) in
  let Y := mkScale (Fin 0, Fin 100) (230, 5) in
  ∃ pg', updateChart data X Y pg = (Ok (), pg') ∧ console pg' = [].
Proof.
  intros data pg X Y.
  apply (no_warning_for_consistent_data data X Y pg).
  - intros d Hd. each_record Hd; lia.
  - intros d Hd. exists (mkRecord 0 "World" 2020 100).
    split; [apply list_elem_of_here|]. each_record Hd; done.
  - intros y w Hwr.
    destruct (decide (y = 2020)) as [->|Hy].
    + injection Hwr as <-. by vm_compute.
    + exfalso. unfold data in Hwr. rewrite !filter_cons in Hwr. simpl in Hwr.
      rewrite !decide_False in Hwr by done. done.
Defined.

(** ** Periods that [%Y] does not round-trip *)

Lemma ndigits_exists (n : N) : (0 < n)%N → ∃ k, ndigits (S k) n.
Proof.
  induction (N.lt_wf_0 n) as [n _ IH]. intros Hn.
  destruct (decide (n < 10)%N) as [Hlt|Hge].
  { exists 0%nat. simpl. lia. }
  destruct (IH (n `div` 10)%N) as [k Hk].
  - apply N.div_lt; lia.
  - apply N.div_str_pos. lia.
  - exists (S k). cbn [ndigits] in *.
    rewrite !Nat2N.inj_succ, !N.pow_succ_r' in *.
    pose proof (N.div_mod n 10 ltac:(done)) as Hdm.
    pose proof (N.mod_lt n 10 ltac:(done)) as Hm.
    generalize dependent (10 ^ N.of_nat k)%N.
    generalize dependent (n `div` 10)%N. generalize dependent (n `mod` 10)%N.
    intros. lia.
Qed.

Lemma toString_length_value (z : Z) :
  0 < z →
  ∃ k, ndigits (S k) (Z.to_N z)
       ∧ String.length (toString z) = S k
       ∧ digits_value 0 (toString z) = z.
Proof.
  intros Hz. destruct (ndigits_exists (Z.to_N z)) as [k Hk]; [lia|].
  exists k. split; [done|]. rewrite toString_nonneg by lia.
  unfold pretty, pretty_N. rewrite decide_False by lia.
  rewrite (pretty_N_go_length (S k)), (pretty_N_go_value (S k)) by done.
  simpl. split; lia.
Qed.










(** ** The period axis as a function of the set of periods *)

Lemma getPeriods_strict (data : list TradeRecord) :
  valid_years 0 data →
  StronglySorted (λ a b, valueOf a < valueOf b) (getPeriods data).
Proof.
  intros Hv. apply StronglySorted_strict.
  - apply StronglySorted_merge_sort; apply _.
  - rewrite (getPeriods_Permutation _ Hv), <- list_fmap_compose.
    apply NoDup_fmap_2_strong; [|apply NoDup_Set_new].
    intros a b _ _. simpl. apply TimeFromYear_inj.
Qed.

#[global] Instance date_lt_antisymm :
  AntiSymm (=) (λ a b : option Date, valueOf a < valueOf b).
Proof. intros a b ??. lia. Qed.

(** X17: the period axis depends only on which years occur: two record
    lists with the same set of periods (years from 0 to 9999), in whatever
    order and multiplicity, give the same list of dates. *)
Theorem getPeriods_depends_on_the_years_only (data1 data2 : list TradeRecord) :
  valid_years 0 data1 → valid_years 0 data2 →
  (∀ y, y ∈ period <$> data1 ↔ y ∈ period <$> data2) →
  getPeriods data1 = getPeriods data2.
Proof.
  intros Hv1 Hv2 Hsame.
  apply (StronglySorted_unique (λ a b : option Date, valueOf a < valueOf b));
    [by apply getPeriods_strict ..|].
  apply NoDup_Permutation; [by apply NoDup_getPeriods ..|].
  intros x. rewrite !elem_of_getPeriods by done. split.
  - intros (d & Hd & ->).
    pose proof (proj1 (Hsame (period d)) (list_elem_of_fmap_2 period _ _ Hd))
      as (d' & Hp & Hd')%list_elem_of_fmap.
    exists d'. by rewrite Hp.
  - intros (d & Hd & ->).
    pose proof (proj2 (Hsame (period d)) (list_elem_of_fmap_2 period _ _ Hd))
      as (d' & Hp & Hd')%list_elem_of_fmap.
    exists d'. by rewrite Hp.
Qed.

Lemma getPeriods_depends_on_the_years_only_witness :
  getPeriods [mkRecord 0 "World" 2020 100; mkRecord 124 "Canada" 2019 20;
              mkRecord 124 "Canada" 2020 30]
  = getPeriods [mkRecord 36 "Australia" 2019 5; mkRecord 0 "World" 2020 100].
Proof.
  apply getPeriods_depends_on_the_years_only.
  - intros d Hd. each_record Hd; lia.
  - intros d Hd. each_record Hd; lia.
  - intros y. simpl. rewrite !elem_of_cons, !elem_of_nil. tauto.
Defined.

(** ** A first response without records *)

Section Empty.
Variable json : nat → URLSearchParams → option (list TradeRecord).

Lemma backfill_requests HScode X Y queue src pg :
  ∃ new, requests (backfill json HScode X Y (queue, src) pg).2
         = requests pg ++ new.
Proof.
  destruct (backfill_trace json HScode X Y queue src pg) as (k & _ & _ & Hreq & _).
  eauto.
Qed.

(** X18: a first response without records is not an error.  The script
    draws a chart with the single, empty series of the residual, on a time
    scale from [NaN] to [NaN] and a value scale from 0 to minus infinity,
    and goes on to the ranking request, which it sends with an empty list of
    periods. *)
Theorem empty_first_response HScode pg :
  json (length (requests pg))
       (params_of (mkRequest HScode (inr [world; canada]) (inl "all")))
  = Some [] →
  let run := addComtradeData json HScode pg in
  let q1 := mkRequest HScode (inr [world; canada]) (inl "all") in
  let q2 := mkRequest HScode (inl "all") (inr []) in
  ∃ more_requests more_charts,
    requests run.2 = requests pg ++ q1 :: q2 :: more_requests
    ∧ p_ps (params_of q2) = ""
    ∧ renders run.2
      = renders pg
        ++ mkRender [] [mkSeries "Other" 0 []]
             (mkScale (NaN, NaN) (40, 595))
             (mkScale (Fin 0, NegInfinity) (230, 5))
           :: more_charts.
Proof.
  intros Hq1 run q1 q2.
  pose proof (addComtradeData_stages json HScode pg) as Hst. cbv zeta in Hst.
  rewrite Hq1 in Hst.
  change (uniqueData []) with (@nil TradeRecord) in Hst.
  change (getPeriods []) with (@nil (option Date)) in Hst.
  change (dateRange []) with (NaN, NaN) in Hst.
  change (maxTradeValue []) with NegInfinity in Hst.
  set (pg1 := mkPage _ (_ ++ _) _ true) in Hst.
  change (updateChart [] ?X ?Y pg1)
    with (Ok (), mkPage (console pg1) (requests pg1)
                   (renders pg1 ++ [mkRender [] [mkSeries "Other" 0 []] X Y])
                   (loading pg1)) in Hst.
  cbv iota beta in Hst. cbn [requests renders console loading pg1] in Hst.
  change (slice_last 1 (date2period <$> [])) with (@nil string) in Hst.
  fold q1 q2 in Hst.
  destruct (json _ (params_of q2)) as [newData|].
  2:{ unfold run. rewrite Hst. exists [], []. cbn [snd requests renders].
      by rewrite <- !app_assoc. }
  destruct (world_record newData) as [w|].
  2:{ unfold run. rewrite Hst. exists [], []. cbn [snd requests renders].
      by rewrite <- !app_assoc. }
  match type of Hst with
  | context [backfill json HScode ?X ?Y (?q, ?s) ?p] =>
      destruct (backfill_requests HScode X Y q s p) as (reqs & Hreqs);
      destruct (backfill_renders json HScode X Y q s p) as (charts & Hcharts & _);
      destruct (backfill json HScode X Y (q, s) p) as [[st|e] pg4]
  end; unfold run; rewrite Hst; exists reqs, charts;
    cbn [fst snd requests renders] in *; rewrite Hreqs, Hcharts;
    by rewrite <- !app_assoc.
Qed.

End Empty.

Lemma empty_first_response_witness :
  let pg := mkPage [] [] [] false in
  let run := addComtradeData (λ _ _, Some []) "0901" pg in
  run.1 = Throw TypeError
  ∧ ∃ more_requests more_charts,
      requests run.2
      = requests pg ++ mkRequest "0901" (inr [world; canada]) (inl "all")
                    :: mkRequest "0901" (inl "all") (inr []) :: more_requests
      ∧ renders run.2
        = renders pg
          ++ mkRender [] [mkSeries "Other" 0 []]
               (mkScale (NaN, NaN) (40, 595))
               (mkScale (Fin 0, NegInfinity) (230, 5))
             :: more_charts.
Proof.
  intros pg run. split; [vm_compute; reflexivity|].
  destruct (empty_first_response (λ _ _, Some []) "0901" pg eq_refl)
    as (reqs & charts & Hreqs & _ & Hcharts).
  exists reqs, charts. split; [exact Hreqs|exact Hcharts].
Defined.

(** ** The partner parameter of a request *)

Lemma all_digits_numeral (s : string) : all_digits s = true → numeral s = true.
Proof.
  induction s as [|c s IH]; [done|]. simpl.
  intros [-> Hs]%andb_true_iff. by rewrite IH.
Qed.

Lemma numeral_toString (z : Z) : numeral (toString z) = true.
Proof.
  assert (Hpos : ∀ p, numeral (pretty (N.pos p)) = true).
  { intros p. apply all_digits_numeral. unfold pretty, pretty_N.
    rewrite decide_False by done. by apply pretty_N_go_all_digits. }
  destruct z as [|p|p]; [done|apply Hpos|].
  change (toString (Z.neg p)) with (String "-" (pretty (N.pos p))).
  cbn [numeral]. by rewrite Hpos.
Qed.

Lemma toString_nonempty (z : Z) : toString z ≠ "".
Proof.
  destruct z as [|p|p]; [done| |done].
  intros Heq. apply (f_equal String.length) in Heq.
  destruct (toString_length_value (Z.pos p)) as (k & _ & Hlen & _); [lia|].
  rewrite Hlen in Heq. done.
Qed.

Lemma numeral_head (s : string) (c : ascii) (t : string) :
  numeral s = true → s = String c t →
  (is_digit c || bool_decide (c = "-"%char)) = true.
Proof. intros Hs ->. simpl in Hs. by apply andb_true_iff in Hs as [? _]. Qed.

Lemma numeral_split (s1 s2 t1 t2 : string) :
  numeral s1 = true → numeral s2 = true →
  s1 +:+ String "," t1 = s2 +:+ String "," t2 → s1 = s2 ∧ t1 = t2.
Proof.
  revert s2. induction s1 as [|c s1 IH]; intros [|c2 s2] H1 H2 Heq;
    simpl in *.
  - by inversion Heq.
  - inversion Heq; subst. done.
  - inversion Heq; subst. done.
  - apply andb_true_iff in H1 as [_ H1]. apply andb_true_iff in H2 as [_ H2].
    inversion Heq; subst. destruct (IH s2 H1 H2) as [-> ->]; auto.
Qed.

Lemma numeral_no_comma (s s' t : string) :
  numeral s = true → s ≠ s' +:+ String "," t.
Proof.
  revert s'. induction s as [|c s IH]; intros [|c' s'] Hs Heq; simpl in *;
    try done.
  - inversion Heq; subst. done.
  - apply andb_true_iff in Hs as [_ Hs]. inversion Heq; subst. by eapply IH.
Qed.

Lemma join_cons2 (x y : string) (rest : list string) :
  join "," (x :: y :: rest) = x +:+ String "," (join "," (y :: rest)).
Proof. done. Qed.

Lemma join_numerals_inj (l1 l2 : list string) :
  Forall (λ s, numeral s = true ∧ s ≠ "") l1 →
  Forall (λ s, numeral s = true ∧ s ≠ "") l2 →
  join "," l1 = join "," l2 → l1 = l2.
Proof.
  intros H1. revert l2. induction H1 as [|x l1 [Hx Hxe] H1 IH]; intros l2 H2 Heq.
  - destruct H2 as [|y l2 [Hy Hye] H2]; [done|]. exfalso.
    destruct l2 as [|y' l2]; [by simpl in Heq|].
    rewrite join_cons2 in Heq. simpl in Heq. by destruct y.
  - destruct H2 as [|y l2 [Hy Hye] H2].
    { exfalso. destruct l1 as [|x' l1]; [by simpl in Heq|].
      rewrite join_cons2 in Heq. simpl in Heq. by destruct x. }
    destruct l1 as [|x' l1], l2 as [|y' l2].
    + simpl in Heq. by subst.
    + rewrite join_cons2 in Heq. change (join "," [x]) with x in Heq.
      by apply numeral_no_comma in Heq.
    + rewrite join_cons2 in Heq. change (join "," [y]) with y in Heq.
      symmetry in Heq. by apply numeral_no_comma in Heq.
    + rewrite !join_cons2 in Heq.
      apply numeral_split in Heq as [-> Hrest]; [|done..].
      f_equal. by apply IH.
Qed.

Lemma join_numerals_head (l : list string) (c : ascii) (t : string) :
  Forall (λ s, numeral s = true ∧ s ≠ "") l →
  join "," l = String c t → (is_digit c || bool_decide (c = "-"%char)) = true.
Proof.
  intros [|x l' [Hx Hxe] _]; [done|]. destruct x as [|cx x]; [done|].
  destruct l' as [|y l'].
  - intros [= <- <-]. by eapply numeral_head.
  - rewrite join_cons2. intros [= <- _]. by eapply numeral_head.
Qed.

Lemma codes_numerals (codes : list Z) :
  Forall (λ s, numeral s = true ∧ s ≠ "") (toString <$> codes).
Proof.
  apply Forall_fmap, Forall_forall. intros z _. split.
  - apply numeral_toString.
  - apply toString_nonempty.
Qed.

(** X19: the partner parameter of a request is lossless.  Two lists of
    partner codes are sent as the same [p] parameter only when they are the
    same list, and a list of codes is never sent as "all". *)
Theorem partner_parameter_is_lossless HScode ps (l1 l2 : list Z) :
  (p_p (params_of (mkRequest HScode (inr l1) ps))
   = p_p (params_of (mkRequest HScode (inr l2) ps))
   ↔ l1 = l2)
  ∧ p_p (params_of (mkRequest HScode (inr l1) ps))
    ≠ p_p (params_of (mkRequest HScode (inl "all") ps)).
Proof.
  cbn [params_of p_p q_partners]. split.
  - split; [|by intros ->]. intros Heq.
    apply join_numerals_inj in Heq; [|apply codes_numerals..].
    eapply (inj (fmap toString)), Heq.
  - intros Heq. by apply join_numerals_head in Heq; [|apply codes_numerals].
Qed.

(** ** Where the drawn records come from *)

Section Provenance.
Variable json : nat → URLSearchParams → option (list TradeRecord).

Lemma received_mono n0 reqs reqs' d :
  reqs `prefix_of` reqs' → received json n0 reqs d → received json n0 reqs' d.
Proof.
  intros Hpre (i & q & resp & Hi & Hq & Hall & Hresp & Hd).
  exists i, q, resp. split_and!; try done. by eapply prefix_lookup_Some.
Qed.

Lemma received_now n0 reqs q resp d :
  (n0 ≤ length reqs)%nat → q_periods q = inl "all" →
  json (length reqs) (params_of q) = Some resp → d ∈ resp →
  received json n0 (reqs ++ [q]) d.
Proof.
  intros Hn0 Hall Hresp Hd. exists (length reqs), q, resp.
  split_and!; try done. by rewrite lookup_app_r, Nat.sub_diag.
Qed.

Lemma merged_received n0 reqs q resp src d :
  (n0 ≤ length reqs)%nat → q_periods q = inl "all" →
  json (length reqs) (params_of q) = Some resp →
  (∀ d, d ∈ src → received json n0 reqs d) →
  d ∈ uniqueData (src ++ resp) → received json n0 (reqs ++ [q]) d.
Proof.
  intros Hn0 Hall Hresp Hsrc [Hd|Hd]%uniqueData_elem_of%elem_of_app.
  - eapply received_mono; [|by apply Hsrc]. by eexists.
  - by eapply received_now.
Qed.

Lemma backfill_received HScode X Y queue src pg :
  let run := backfill json HScode X Y (queue, src) pg in
  ∃ newq newc,
    requests run.2 = requests pg ++ newq
    ∧ renders run.2 = renders pg ++ newc
    ∧ Forall (λ q, q_HScode q = HScode) newq
    ∧ ∀ n0, (n0 ≤ length (requests pg))%nat →
        (∀ d, d ∈ src → received json n0 (requests pg) d) →
        ∀ c d, c ∈ newc → d ∈ r_data c → received json n0 (requests run.2) d.
Proof.
  cbv zeta. revert queue src pg.
  apply (backfill_rules json HScode X Y
    (λ _ src pg r,
       ∃ newq newc,
         requests r.2 = requests pg ++ newq
         ∧ renders r.2 = renders pg ++ newc
         ∧ Forall (λ q, q_HScode q = HScode) newq
         ∧ ∀ n0, (n0 ≤ length (requests pg))%nat →
             (∀ d, d ∈ src → received json n0 (requests pg) d) →
             ∀ c d, c ∈ newc → d ∈ r_data c →
               received json n0 (requests r.2) d)).
  - intros src pg. exists [], []. rewrite !app_nil_r.
    split_and!; [done|done|constructor|]. by intros ? _ _ ? ? ?%elem_of_nil.
  - intros queue src pg _ q _. exists [q], []. cbn [fst snd requests renders].
    rewrite app_nil_r. split_and!; [done|done|by repeat constructor|].
    by intros ? _ _ ? ? ?%elem_of_nil.
  - intros queue src pg newData e pg2 _ q _ Hrun.
    destruct (updateChart_frame (uniqueData (src ++ newData)) X Y
                (mkPage (console pg) (requests pg ++ [q]) (renders pg) (loading pg)))
      as (Hreq & _).
    apply updateChart_Throw_renders in Hrun as Hren. rewrite Hrun in Hreq.
    exists [q], []. cbn [fst snd requests renders] in *.
    rewrite app_nil_r. split_and!; [done|done|by repeat constructor|].
    by intros ? _ _ ? ? ?%elem_of_nil.
  - intros queue src pg newData pg2 r _ q Hq Hrun
      (newq & newc & Hreqs & Hrens & Hcode & IH).
    destruct (updateChart_frame (uniqueData (src ++ newData)) X Y
                (mkPage (console pg) (requests pg ++ [q]) (renders pg) (loading pg)))
      as (Hreq & _).
    apply updateChart_Ok in Hrun as Hren. destruct Hren as (c1 & Hc1 & Hdata & _).
    rewrite Hrun in Hreq. cbn [fst snd requests renders] in *.
    exists (q :: newq), (c1 :: newc). split_and!.
    + rewrite Hreqs, Hreq. by rewrite <- app_assoc.
    + rewrite Hrens, Hc1. by rewrite <- app_assoc.
    + by constructor.
    + intros n0 Hn0 Hsrc c d Hc Hd.
      assert (Hsrc' : ∀ d, d ∈ uniqueData (src ++ newData) →
                received json n0 (requests pg2) d).
      { intros d' Hd'. rewrite Hreq. by eapply merged_received. }
      apply elem_of_cons in Hc as [->|Hc].
      * rewrite Hdata in Hd. eapply received_mono; [|by apply Hsrc'].
        rewrite Hreqs. by eexists.
      * eapply (IH n0); [|done..]. rewrite Hreq, length_app. lia.
Qed.

(** X20: where the drawn records come from.  Every record of every chart
    of a run was received in answer to a request of that run which asked for
    all periods, the first request or one for a batch of partners; the
    answer to the ranking request is used to choose partners only.  All
    requests of the run carry the HS code it was started with. *)
Theorem drawn_records_come_from_all_period_requests HScode pg :
  let run := addComtradeData json HScode pg in
  ∃ new_requests new_charts,
    requests run.2 = requests pg ++ new_requests
    ∧ renders run.2 = renders pg ++ new_charts
    ∧ Forall (λ q, q_HScode q = HScode) new_requests
    ∧ ∀ c d, c ∈ new_charts → d ∈ r_data c →
        ∃ i q resp,
          new_requests !! i = Some q
          ∧ q_periods q = inl "all"
          ∧ json (length (requests pg) + i)%nat (params_of q) = Some resp
          ∧ d ∈ resp.
Proof.
  cbv zeta. set (n0 := length (requests pg)).
  assert (Hconv : ∀ newq d,
    received json n0 (requests pg ++ newq) d →
    ∃ i q resp, newq !! i = Some q ∧ q_periods q = inl "all"
                ∧ json (n0 + i)%nat (params_of q) = Some resp ∧ d ∈ resp).
  { intros newq d (i & q & resp & Hi & Hq & Hall & Hresp & Hd).
    exists (i - n0)%nat, q, resp. split_and!; try done.
    - by rewrite lookup_app_r in Hq.
    - by replace (n0 + (i - n0))%nat with i by lia. }
  pose proof (addComtradeData_stages json HScode pg) as Hst. cbv zeta in Hst.
  set (q1 := mkRequest HScode (inr [world; canada]) (inl "all")) in *.
  destruct (json _ (params_of q1)) as [resp|] eqn:Hq1.
  2:{ rewrite Hst. exists [q1], []. cbn [snd requests renders].
      rewrite app_nil_r. split_and!; [done|done|by repeat constructor|].
      by intros ? ? ?%elem_of_nil. }
  set (pg1 := mkPage _ (_ ++ _) _ true) in Hst.
  assert (Hsrc : ∀ d, d ∈ uniqueData resp → received json n0 (requests pg1) d).
  { intros d Hd%uniqueData_elem_of. by apply (received_now n0 (requests pg) q1 resp). }
  match type of Hst with
  | context [updateChart ?d ?X ?Y pg1] =>
      destruct (updateChart_frame d X Y pg1) as (Hreq1 & _);
      destruct (updateChart d X Y pg1) as [[[]|e] pg2] eqn:Hrun
  end; cbn [fst snd] in Hreq1.
  2:{ rewrite Hst. apply updateChart_Throw_renders in Hrun.
      exists [q1], []. cbn [snd]. rewrite Hreq1, Hrun, app_nil_r.
      split_and!; [done|done|by repeat constructor|].
      by intros ? ? ?%elem_of_nil. }
  apply updateChart_Ok in Hrun as (c1 & Hc1 & Hdata & _).
  assert (Hone : ∀ newq c d, c ∈ [c1] → d ∈ r_data c →
            received json n0 (requests pg ++ q1 :: newq) d).
  { intros newq c d ->%list_elem_of_singleton Hd. rewrite Hdata in Hd.
    eapply received_mono; [|by apply Hsrc]. subst pg1. cbn [requests].
    exists newq. by rewrite <- app_assoc. }
  match type of Hst with
  | context [json (length (requests pg2)) (params_of ?q)] => set (q2 := q) in *
  end.
  destruct (json (length (requests pg2)) _) as [newData|].
  2:{ rewrite Hst. exists [q1; q2], [c1]. cbn [snd requests renders].
      rewrite Hreq1, Hc1. subst pg1. cbn [requests renders].
      rewrite <- app_assoc. split_and!; [done|done|by repeat constructor|].
      intros c d Hc Hd. by eapply Hconv, Hone. }
  destruct (world_record newData) as [w|].
  2:{ rewrite Hst. exists [q1; q2], [c1]. cbn [snd requests renders].
      rewrite Hreq1, Hc1. subst pg1. cbn [requests renders].
      rewrite <- app_assoc. split_and!; [done|done|by repeat constructor|].
      intros c d Hc Hd. by eapply Hconv, Hone. }
  set (pg3 := mkPage _ (requests pg2 ++ _) _ _) in Hst.
  assert (Hreq3 : requests pg3 = requests pg ++ [q1; q2]).
  { subst pg3. cbn [requests]. rewrite Hreq1. subst pg1. cbn [requests].
    by rewrite <- app_assoc. }
  match type of Hst with
  | context [backfill json HScode ?X ?Y (?q, ?s) pg3] =>
      destruct (backfill_received HScode X Y q s pg3)
        as (newq & newc & Hreqs & Hrens & Hcode & Hrec);
      destruct (backfill json HScode X Y (q, s) pg3) as [[st|e] pg4]
  end; rewrite Hst; cbn [fst snd requests renders] in *;
    (exists (q1 :: q2 :: newq), (c1 :: newc); split_and!;
     [rewrite Hreqs, Hreq3; by rewrite <- app_assoc
     |rewrite Hrens; subst pg3; cbn [renders]; rewrite Hc1; by rewrite <- app_assoc
     |by repeat constructor
     |intros c d Hc Hd; apply Hconv;
      apply elem_of_cons in Hc as [->|Hc];
      [by apply (Hone (q2 :: newq) c1 d); [apply list_elem_of_here|]
      |replace (requests pg ++ q1 :: q2 :: newq) with (requests pg4)
         by (rewrite Hreqs, Hreq3; by rewrite <- app_assoc);
       apply (λ H1 H2, Hrec n0 H1 H2 c d Hc Hd);
         [rewrite Hreq3, length_app; unfold n0; lia|];
       intros d' Hd'; eapply received_mono; [|by apply Hsrc];
       rewrite Hreq3; subst pg1; cbn [requests]; exists [q2];
       by rewrite <- app_assoc]]).
Qed.

End Provenance.

(** ** Bands between zero and the world curve *)

Lemma Qsum_nonneg (xs : list Q) : Forall (λ x, (0 <= x)%Q) xs → (0 <= Qsum xs)%Q.
Proof.
  induction 1 as [|x xs Hx _ IH]; [apply Qle_refl|].
  rewrite Qsum_cons. lra.
Qed.

Lemma cumulative_bounds (base : Datum → Q) (i : nat) (ks : list string)
    (data : list Datum) :
  (∀ d k, d ∈ data → k ∈ ks → (0 <= numeric d k)%Q) →
  Forall (λ s,
      Forall2 (λ d pt, ∃ lo hi,
                 y0 pt = Some lo ∧ y1 pt = Some hi
                 ∧ (base d <= lo)%Q ∧ (lo <= hi)%Q
                 ∧ (hi <= base d + Qsum (numeric d <$> ks))%Q)
              data (points s))
    (cumulative base i ks data).
Proof.
  revert base i. induction ks as [|k ks IH]; intros base i Hpos; [constructor|].
  assert (Hrest : ∀ d, d ∈ data → (0 <= Qsum (numeric d <$> ks))%Q).
  { intros d Hd. apply Qsum_nonneg, Forall_fmap, Forall_forall.
    intros k' Hk'. apply Hpos; [done|by right]. }
  cbn [cumulative]. constructor.
  - cbn [points]. apply Forall2_fmap_r, Forall_Forall2_diag, Forall_forall.
    intros d Hd. eexists _, _. split; [done|]. split; [done|].
    cbn [y0 y1]. rewrite fmap_cons, Qsum_cons.
    pose proof (Hpos d k Hd ltac:(by left)). pose proof (Hrest d Hd).
    split_and!; lra.
  - eapply Forall_impl.
    { apply (IH (λ d, (numeric d k + base d)%Q) (S i)).
      intros d k' Hd Hk'. apply Hpos; [done|by right]. }
    intros s Hs. cbv beta in Hs. apply Forall2_same_length_lookup.
    split; [by eapply Forall2_length|]. intros j d pt Hd Hpt.
    destruct (Forall2_lookup_lr _ _ _ _ _ _ Hs Hd Hpt)
      as (lo & hi & Hlo & Hhi & H1 & H2 & H3).
    exists lo, hi. split; [done|]. split; [done|].
    rewrite fmap_cons, Qsum_cons.
    pose proof (Hpos d k (list_elem_of_lookup_2 _ _ _ Hd) ltac:(by left)).
    split_and!; lra.
Qed.

Lemma stacked_bounds (ks : list string) (data : list Datum) :
  (∀ d k, d ∈ data → k ∈ ks → (0 <= numeric d k)%Q) →
  Forall (λ s,
      Forall2 (λ d pt, ∃ lo hi,
                 y0 pt = Some lo ∧ y1 pt = Some hi
                 ∧ (0 <= lo)%Q ∧ (lo <= hi)%Q
                 ∧ (hi <= Qsum (numeric d <$> ks))%Q)
              data (points s))
    (stacked ks data).
Proof.
  destruct ks as [|k ks]; intros Hpos; [constructor|].
  assert (Hrest : ∀ d, d ∈ data → (0 <= Qsum (numeric d <$> ks))%Q).
  { intros d Hd. apply Qsum_nonneg, Forall_fmap, Forall_forall.
    intros k' Hk'. apply Hpos; [done|by right]. }
  cbn [stacked]. constructor.
  - cbn [points]. apply Forall2_fmap_r, Forall_Forall2_diag, Forall_forall.
    intros d Hd. eexists _, _. split; [done|]. split; [done|].
    cbn [y0 y1]. rewrite fmap_cons, Qsum_cons.
    pose proof (Hpos d k Hd ltac:(by left)). pose proof (Hrest d Hd).
    split_and!; lra.
  - eapply Forall_impl.
    { apply (cumulative_bounds (λ d, numeric d k) 1).
      intros d k' Hd Hk'. apply Hpos; [done|by right]. }
    intros s Hs. cbv beta in Hs. apply Forall2_same_length_lookup.
    split; [by eapply Forall2_length|]. intros j d pt Hd Hpt.
    destruct (Forall2_lookup_lr _ _ _ _ _ _ Hs Hd Hpt)
      as (lo & hi & Hlo & Hhi & H1 & H2 & H3).
    exists lo, hi. split; [done|]. split; [done|].
    rewrite fmap_cons, Qsum_cons.
    pose proof (Hpos d k (list_elem_of_lookup_2 _ _ _ Hd) ltac:(by left)).
    split_and!; lra.
Qed.

Lemma partnerValue_nonneg (pdata : list TradeRecord) (k : string) :
  (∀ d, d ∈ pdata → (0 <= TradeValue d)%Q) → (0 <= partnerValue pdata k)%Q.
Proof.
  intros Hpos. unfold partnerValue, JS.find.
  destruct (List.find _ pdata) as [r|] eqn:Hr; [|apply Qle_refl].
  apply find_some in Hr as [Hin%list_elem_of_In _]. by apply Hpos.
Qed.

(** X21: with non-negative trade values and partner trade that does not
    exceed world trade, every band of the chart lies between zero and the
    world curve: in each series and each period the lower edge is at least 0,
    the upper edge is at least the lower edge and at most the world trade
    value of the period.  (Data as for the silhouette: deduplicated,
    four-digit years, a world record in every period, titles identify
    partners and none is "Other".) *)
Theorem bands_lie_between_zero_and_world_trade data X Y pg :
  valid_years 1000 data → every_period_has_world data →
  "Other" ∉ ptTitle <$> data →
  titles_identify_partners data → deduplicated data →
  (∀ d, d ∈ data → (0 <= TradeValue d)%Q) →
  (∀ (y : Z) w,
     world_record (filter (λ d, period d = y) data) = Some w →
     (Qsum (TradeValue <$> filter (λ d, ptCode d ≠ world)
                             (filter (λ d, period d = y) data))
      <= TradeValue w)%Q) →
  ∃ pg' r,
    updateChart data X Y pg = (Ok (), pg')
    ∧ renders pg' = renders pg ++ [r]
    ∧ Forall (λ s,
        Forall2 (λ p pt, ∃ w lo hi,
                   world_record (periodData data p) = Some w
                   ∧ y0 pt = Some lo ∧ y1 pt = Some hi
                   ∧ (0 <= lo)%Q ∧ (lo <= hi)%Q ∧ (hi <= TradeValue w)%Q)
                (getPeriods data) (points s))
      (r_series r).
Proof.
  intros Hv Hw Hother Htitles Hdd Hpos Hle.
  pose proof (getPeriods_world data Hv Hw) as Hall.
  rewrite Forall_forall in Hall.
  assert (Hno : "Other" ∉ chartPartners data) by (by apply Other_not_partner).
  eexists _, _. split; [by apply updateChart_stacked|].
  split; [done|]. cbn [r_series].
  eapply Forall_impl.
  { apply stacked_bounds.
    intros e k (p & -> & Hp)%list_elem_of_fmap Hk.
    destruct (Hall p Hp) as (y & w & -> & Hy & _ & Hwr).
    assert (Hpd : ∀ d, d ∈ periodData data (yearDate y) → (0 <= TradeValue d)%Q).
    { intros d [_ Hd]%list_elem_of_filter. by apply Hpos. }
    apply elem_of_app in Hk as [Hk|Hk%list_elem_of_singleton].
    - unfold tradeEntry. rewrite tradeObject_numeric_partner by done.
      by apply partnerValue_nonneg.
    - subst k. unfold tradeEntry, worldTradeOf.
      rewrite tradeObject_numeric_Other, Hwr by done. cbn [from_option].
      rewrite periodData_year in * by done.
      pose proof (Hle y w Hwr) as Hyw. rewrite <- partnerTrade_Qsum in Hyw. lra. }
  intros s Hs. apply Forall2_fmap_l in Hs.
  apply Forall2_same_length_lookup. split; [by eapply Forall2_length|].
  intros j p pt Hp Hpt.
  destruct (Forall2_lookup_lr _ _ _ _ _ _ Hs Hp Hpt)
    as (lo & hi & Hlo & Hhi & H1 & H2 & H3).
  destruct (Hall p (list_elem_of_lookup_2 _ _ _ Hp)) as (y & w & -> & Hy & _ & Hwr).
  exists w, lo, hi. split_and!; try done.
  by rewrite (tradeEntry_total data y w) in H3.
Qed.

Lemma bands_lie_between_zero_and_world_trade_witness :
  let data := [mkRecord 0 "World" 2019 90; mkRecord 124 "Canada" 2019 20;
               mkRecord 0 "World" 2020 100; mkRecord 36 "Australia" 2020 30;
               mkRecord 124 "Canada" 2020 25] in
  let pg := mkPage [] [] [] true in
  let X := mkScale (Fin 0, Fin 1) (40, 595) in
  let Y := mkScale (Fin 0, Fin 100) (230, 5) in
  ∃ pg' r,
    updateChart data X Y pg = (Ok (), pg')
    ∧ renders pg' = renders pg ++ [r]
    ∧ Forall (λ s, length (points s) = length (getPeriods data)) (r_series r).
Proof.
  intros data pg X Y.
  destruct (bands_lie_between_zero_and_world_trade data X Y pg)
    as (pg' & r & Hrun & Hren & Hall).
  - intros d Hd. each_record Hd; lia.
  - intros d Hd.
    each_record Hd;
      [exists (mkRecord 0 "World" 2019 90) | exists (mkRecord 0 "World" 2019 90)
      |exists (mkRecord 0 "World" 2020 100) | exists (mkRecord 0 "World" 2020 100)
      |exists (mkRecord 0 "World" 2020 100)];
      (split; [unfold data; rewrite !elem_of_cons; tauto|done]).
  - simpl. rewrite !elem_of_cons, elem_of_nil.
    intros [?|[?|[?|[?|[?|[]]]]]]; discriminate.
  - split.
    + intros d Hd. each_record Hd; done.
    + intros d1 d2 Hd1 Hd2. each_record Hd1; each_record Hd2; done.
  - by vm_compute; repeat constructor; rewrite ?elem_of_cons, ?elem_of_nil;
      intuition discriminate.
  - intros d Hd. each_record Hd; by vm_compute.
  - intros y w Hwr.
    destruct (decide (y = 2019)) as [->|Hy19];
      [injection Hwr as <-; by vm_compute|].
    destruct (decide (y = 2020)) as [->|Hy20];
      [injection Hwr as <-; by vm_compute|].
    exfalso. unfold data in Hwr. rewrite !filter_cons in Hwr. simpl in Hwr.
    rewrite !decide_False in Hwr by done. done.
  - exists pg', r. split; [exact Hrun|]. split; [exact Hren|].
    eapply Forall_impl; [exact Hall|]. intros s Hs. cbv beta in Hs.
    symmetry. exact (Forall2_length _ _ _ Hs).
Defined.

(** ** World values and the value axis *)

Lemma updateChart_Ok_render data X Y pg pg' :
  updateChart data X Y pg = (Ok (), pg') →
  requests pg' = requests pg
  ∧ ∃ series, renders pg' = renders pg ++ [mkRender data series X Y].
Proof.
  intros (entries & ws & -> & _)%updateChart_inv. split; [done|]. by eexists.
Qed.

Section ValueAxis.
Variable json : nat → URLSearchParams → option (list TradeRecord).

Lemma backfill_world_records HScode X Y (n0 : nat) (src0 : list TradeRecord)
    queue src pg :
  (∀ n q resp, (n0 < n)%nat → p_ps q = "all" → json n q = Some resp →
     ∀ d, d ∈ resp → ptCode d ≠ world) →
  (n0 < length (requests pg))%nat →
  (∀ w, w ∈ src → ptCode w = world → w ∈ src0) →
  ∃ newc,
    renders (backfill json HScode X Y (queue, src) pg).2 = renders pg ++ newc
    ∧ ∀ c, c ∈ newc →
        r_Y c = Y ∧ ∀ w, w ∈ r_data c → ptCode w = world → w ∈ src0.
Proof.
  intros Hnow. revert queue src pg.
  apply (backfill_rules json HScode X Y
    (λ _ src pg r,
       (n0 < length (requests pg))%nat →
       (∀ w, w ∈ src → ptCode w = world → w ∈ src0) →
       ∃ newc,
         renders r.2 = renders pg ++ newc
         ∧ ∀ c, c ∈ newc →
             r_Y c = Y ∧ ∀ w, w ∈ r_data c → ptCode w = world → w ∈ src0)).
  - intros src pg _ _. exists []. rewrite app_nil_r.
    split; [done|]. by intros ? ?%elem_of_nil.
  - intros queue src pg _ q _ _ _. exists []. cbn [snd renders].
    rewrite app_nil_r. split; [done|]. by intros ? ?%elem_of_nil.
  - intros queue src pg newData e pg2 _ q _ Hrun _ _.
    apply updateChart_Throw_renders in Hrun. exists []. cbn [snd] in *.
    rewrite app_nil_r. split; [done|]. by intros ? ?%elem_of_nil.
  - intros queue src pg newData pg2 r _ q Hq Hrun IH Hn0 Hsrc.
    apply updateChart_Ok_render in Hrun as (Hreq & series & Hren).
    cbn [requests renders] in *.
    assert (Hsrc' : ∀ w, w ∈ uniqueData (src ++ newData) → ptCode w = world →
              w ∈ src0).
    { intros w [Hw|Hw]%uniqueData_elem_of%elem_of_app Hc; [by apply Hsrc|].
      exfalso.
      by apply (Hnow (length (requests pg)) (params_of q) newData Hn0 eq_refl
                  Hq w Hw). }
    destruct IH as (newc & Hnewc & Hall); [rewrite Hreq, length_app; lia|done|].
    exists (mkRender (uniqueData (src ++ newData)) series X Y :: newc). split.
    + by rewrite Hnewc, Hren, <- app_assoc.
    + intros c [->|Hc]%elem_of_cons; [by split|by apply Hall].
Qed.

(** X22: the world values of a run stay within the value axis.  When
    the answers to the later requests for all periods (the batch requests)
    carry no world record, every world record of every chart of the run is a
    record of the deduplicated first response, and its trade value is at most
    the upper end of the value axis the chart is drawn on. *)
Theorem world_values_stay_within_value_axis HScode pg first :
  json (length (requests pg))
       (params_of (mkRequest HScode (inr [world; canada]) (inl "all")))
  = Some first →
  (∀ n q resp, (length (requests pg) < n)%nat → p_ps q = "all" →
     json n q = Some resp → ∀ d, d ∈ resp → ptCode d ≠ world) →
  ∃ new,
    renders (addComtradeData json HScode pg).2 = renders pg ++ new
    ∧ ∀ c w, c ∈ new → w ∈ r_data c → ptCode w = world →
        w ∈ uniqueData first
        ∧ ∃ m, domain (r_Y c) = (Fin 0, Fin m) ∧ (TradeValue w <= m)%Q.
Proof.
  intros Hq1 Hnow.
  pose proof (addComtradeData_stages json HScode pg) as Hst. cbv zeta in Hst.
  rewrite Hq1 in Hst.
  set (src0 := uniqueData first) in *.
  set (Y := mkScale (Fin 0, maxTradeValue src0) (230, 5)) in *.
  assert (Hfinal : ∀ new : list Render,
    (∀ c, c ∈ new →
       r_Y c = Y ∧ ∀ w, w ∈ r_data c → ptCode w = world → w ∈ src0) →
    ∀ c w, c ∈ new → w ∈ r_data c → ptCode w = world →
      w ∈ src0 ∧ ∃ m, domain (r_Y c) = (Fin 0, Fin m) ∧ (TradeValue w <= m)%Q).
  { intros new Hall c w Hc Hw Hcode. destruct (Hall c Hc) as [-> Hin].
    specialize (Hin w Hw Hcode). split; [done|].
    destruct (maxTradeValue_spec src0 w Hin Hcode) as (m & top & Hm & _ & _ & _ & Hle).
    exists m. cbn [domain Y]. rewrite Hm. split; [done|]. by apply Hle. }
  set (pg1 := mkPage _ (_ ++ _) _ true) in Hst.
  match type of Hst with
  | context [updateChart src0 ?X0 Y pg1] =>
      destruct (updateChart src0 X0 Y pg1) as [[[]|e] pg2] eqn:Hrun
  end.
  2:{ rewrite Hst. apply updateChart_Throw_renders in Hrun. exists [].
      cbn [snd]. rewrite Hrun, app_nil_r. split; [done|].
      by intros ? ? ?%elem_of_nil. }
  apply updateChart_Ok_render in Hrun as (Hreq & series & Hren).
  set (c1 := mkRender src0 series _ Y) in Hren.
  assert (Hc1 : ∀ c, c ∈ [c1] →
            r_Y c = Y ∧ ∀ w, w ∈ r_data c → ptCode w = world → w ∈ src0).
  { by intros c ->%list_elem_of_singleton. }
  destruct (json (length (requests pg2)) _) as [newData|].
  2:{ rewrite Hst. exists [c1]. cbn [snd renders]. split; [done|].
      by apply Hfinal. }
  destruct (world_record newData) as [w0|].
  2:{ rewrite Hst. exists [c1]. cbn [snd renders]. split; [done|].
      by apply Hfinal. }
  set (pg3 := mkPage _ (requests pg2 ++ _) _ _) in Hst.
  match type of Hst with
  | context [backfill json HScode ?X0 Y (?q, src0) pg3] =>
      destruct (backfill_world_records HScode X0 Y (length (requests pg)) src0
                  q src0 pg3 Hnow) as (newc & Hnewc & Hall);
        [subst pg3; cbn [requests]; rewrite Hreq; subst pg1; cbn [requests];
         rewrite !length_app; simpl; lia
        |done|];
      destruct (backfill json HScode X0 Y (q, src0) pg3) as [[st|e] pg4]
  end; rewrite Hst; cbn [fst snd renders] in *;
    (exists (c1 :: newc); split;
     [rewrite Hnewc; subst pg3; cbn [renders]; by rewrite Hren, <- app_assoc|];
     apply Hfinal; intros c [->|Hc]%elem_of_cons; [by split|by apply Hall]).
Qed.

End ValueAxis.

Lemma world_values_stay_within_value_axis_witness :
  let pg := mkPage [] [] [] false in
  let service := λ (n : nat) (q : URLSearchParams),
    match n with
    | 0%nat => Some [mkRecord 0 "World" 2019 90; mkRecord 124 "Canada" 2019 20;
                     mkRecord 0 "World" 2020 100; mkRecord 124 "Canada" 2020 30]
    | _ =>
        if decide (p_ps q = "all")
        then Some [mkRecord 36 "Australia" 2019 35; mkRecord 36 "Australia" 2020 40]
        else Some [mkRecord 0 "World" 2020 100; mkRecord 36 "Australia" 2020 40]
    end in
  length (renders (addComtradeData service "0901" pg).2) = 2%nat
  ∧ ∃ new,
      renders (addComtradeData service "0901" pg).2 = renders pg ++ new
      ∧ ∀ c w, c ∈ new → w ∈ r_data c → ptCode w = world →
          ∃ m, domain (r_Y c) = (Fin 0, Fin m) ∧ (TradeValue w <= m)%Q.
Proof.
  intros pg service. split; [vm_compute; reflexivity|].
  destruct (world_values_stay_within_value_axis service "0901" pg _ eq_refl)
    as (new & Hnew & Hall).
  - intros [|n] q resp Hn Hps Hresp d Hd; [simpl in Hn; lia|].
    simpl in Hresp. rewrite decide_True in Hresp by done.
    injection Hresp as <-. each_record Hd; by vm_compute.
  - exists new. split; [exact Hnew|]. intros c w Hc Hw Hcode.
    exact (proj2 (Hall c w Hc Hw Hcode)).
Defined.
